(** * bore-go: the client of the bore TCP tunnel

    A shallow embedding of the Go package [borego] (protocol.go, the
    authenticator, the client and proxy.go) together with the properties
    of its framing layer, message codec, authenticator, client state
    machine and proxy session.

    Conventions.
    - A Go [[]byte] is a [list byte]; a Go [string] is a [string].
    - A Go function returning [(T, error)] returns a pair whose second
      component is an [option error] ([None] is Go's [nil]).
    - Sockets, framed connections and clients are Go pointers; they are
      indices into tables of the [World], and every function that has an
      effect runs in the state monad [M] over the [World].
    - The standard library (net, bufio, encoding/json, crypto) and
      github.com/google/uuid are modelled from their documented
      behaviour; each such definition says so. *)

From Stdlib Require Import ZArith List Strings.String Strings.Ascii Strings.Byte Bool Lia.
From stdpp Require Import base gmap strings list option.
Import ListNotations.

Set Default Proof Using "Type".

(* ================================================================== *)
(** * Bytes and strings *)
(* ================================================================== *)

Module Bytes.

Definition eqb (a b : byte) : bool := Byte.eqb a b.

(** [[]byte(s)] and [string(b)]. *)
Definition of_string (s : string) : list byte := list_byte_of_string s.
Definition to_string (b : list byte) : string := string_of_list_byte b.

(** [bytes.IndexByte] as a split: the part up to and including the first
    [delim], and what follows it. *)
Fixpoint cut (delim : byte) (l : list byte) : option (list byte * list byte) :=
  match l with
  | [] => None
  | x :: l' =>
      if eqb x delim then Some ([x], l')
      else match cut delim l' with
           | Some (pre, post) => Some (x :: pre, post)
           | None => None
           end
  end.

(** [bytes.TrimSuffix(l, []byte{0})]. *)
Fixpoint trim_zero (l : list byte) : list byte :=
  match l with
  | [] => []
  | [x] => if eqb x x00 then [] else [x]
  | x :: l' => x :: trim_zero l'
  end.

Fixpoint list_eqb (a b : list byte) : bool :=
  match a, b with
  | [], [] => true
  | x :: a', y :: b' => eqb x y && list_eqb a' b'
  | _, _ => false
  end.

Definition to_Z (b : byte) : Z := Z.of_N (Byte.to_N b).

Definition of_Z (z : Z) : byte :=
  match Byte.of_N (Z.to_N (z mod 256)) with
  | Some b => b
  | None => x00
  end.

End Bytes.

(* ================================================================== *)
(** * Errors *)
(* ================================================================== *)

(** [ServerMessageKind] (protocol.go). [KindNone] is the zero value of the
    underlying string type, the kind of [ServerMessage{}]. *)
Inductive ServerMessageKind :=
  | KindNone
  | ServerHello
  | ServerChallenge
  | ServerHeartbeat
  | ServerConnection
  | ServerError.

(** Every error value the package creates or passes on.  The first two
    groups come from the libraries, the others are the [errors.New] and
    [fmt.Errorf] sites of the package, one constructor per site; a [cause]
    argument is a [%w] wrapped error. *)
Inductive error :=
  (* io, bufio, net *)
  | EOF                     (* io.EOF *)
  | ErrNoProgress           (* io.ErrNoProgress *)
  | ErrBufferFull           (* bufio.ErrBufferFull *)
  | ErrShortWrite           (* io.ErrShortWrite *)
  | NetClosed               (* use of closed network connection *)
  | NetTimeout              (* i/o timeout: a net.Error with Timeout() *)
  | NetReset                (* connection reset by peer, broken pipe *)
  | NetRefused              (* connection refused, on dial *)
  (* encoding/json, uuid *)
  | JsonSyntax
  | JsonType
  | UuidInvalid
  (* errors.go *)
  | ErrUnexpectedEOF        (* unexpected EOF from server *)
  | ErrUnexpectedHandshake  (* unexpected handshake message *)
  (* protocol.go *)
  | FrameTooLarge (n : nat)                 (* frame too large: %d bytes *)
  | TimedOut (cause : error)                (* timed out waiting for message: %w *)
  | EmptyFrame                              (* empty frame *)
  | UnexpectedUnit (unit : string)          (* unexpected unit message: %s *)
  | InvalidServerMessage (cause : error)    (* invalid server message: %w *)
  | ExpectedSingleField (keys : nat)        (* expected single-field message, got %d keys *)
  | InvalidHello (cause : error)            (* invalid hello message: %w *)
  | InvalidChallenge (cause : error)        (* invalid challenge message: %w *)
  | InvalidChallengeUUID (cause : error)    (* invalid challenge uuid: %w *)
  | InvalidConnection (cause : error)       (* invalid connection message: %w *)
  | InvalidConnectionUUID (cause : error)   (* invalid connection uuid: %w *)
  | InvalidErrorMessage (cause : error)     (* invalid error message: %w *)
  | UnknownKind (k : string)                (* unknown message kind: %s *)
  | Unreachable                             (* unreachable *)
  (* the client *)
  | DialError (addr : string) (cause : error)   (* dial %s: %w *)
  | ServerRejected (text : string)              (* server error: %s *)
  | AuthenticationRequired  (* server requires authentication but no secret was provided *)
  | UnexpectedInitialMessage (k : ServerMessageKind)  (* unexpected initial message: %v *)
  | ConnectProxy (cause : error)            (* connect to server for proxy: %w *)
  | ConnectLocal (cause : error)            (* connect to local service: %w *)
  | WriteBuffered (cause : error).          (* write buffered data to local: %w *)

(** [errors.Unwrap]: the error wrapped with [%w], if any. *)
Definition Unwrap (e : error) : option error :=
  match e with
  | TimedOut c | InvalidServerMessage c | InvalidHello c | InvalidChallenge c
  | InvalidChallengeUUID c | InvalidConnection c | InvalidConnectionUUID c
  | InvalidErrorMessage c | DialError _ c | ConnectProxy c | ConnectLocal c
  | WriteBuffered c => Some c
  | _ => None
  end.

(** [errors.Is(err, io.EOF)]: [io.EOF] itself or anything that wraps it. *)
Fixpoint Is_EOF (e : error) : bool :=
  match e with
  | EOF => true
  | TimedOut c | InvalidServerMessage c | InvalidHello c | InvalidChallenge c
  | InvalidChallengeUUID c | InvalidConnection c | InvalidConnectionUUID c
  | InvalidErrorMessage c | DialError _ c | ConnectProxy c | ConnectLocal c
  | WriteBuffered c => Is_EOF c
  | _ => false
  end.

(** [err != nil]. *)
Definition not_nil (e : option error) : bool :=
  match e with
  | Some _ => true
  | None => false
  end.

(** [nerr, ok := err.(net.Error); ok && nerr.Timeout()]: a type assertion on
    the error itself, which does not look through wrappers. *)
Definition is_net_timeout (e : error) : bool :=
  match e with
  | NetTimeout => true
  | _ => false
  end.

(* ================================================================== *)
(** * Constants (protocol.go) *)
(* ================================================================== *)

Definition ControlPort : Z := 7835.
Definition MaxFrameLength : nat := 256.

(* ================================================================== *)
(** * Sockets: the model of [net.Conn] *)
(* ================================================================== *)

(** What the peer of a socket does, in order.  When the list is exhausted
    the peer has closed its side: reads return [io.EOF]. *)
Inductive event :=
  | Data (b : byte) (bs : list byte)  (* a non-empty segment arrives *)
  | Stall   (* the peer stays silent for longer than NetworkTimeout *)
  | Reset.  (* the connection breaks *)

(** A deadline of a socket: none, set to [now + NetworkTimeout] and still
    ahead, or passed. *)
Inductive deadline := NoDeadline | Armed | Expired.

Record Conn := mkConn {
  incoming : list event;    (* what the peer will send *)
  outgoing : list byte;     (* what has been written to the peer *)
  wbudget : option nat;     (* [Some n]: the peer accepts n more bytes, then writes fail *)
  rdeadline : deadline;
  wdeadline : deadline;
  closes : nat              (* how often [Close] was called on the socket *)
}.

Definition is_closed (c : Conn) : bool := negb (Nat.eqb (closes c) 0).

Definition set_incoming (evs : list event) (c : Conn) : Conn :=
  mkConn evs (outgoing c) (wbudget c) (rdeadline c) (wdeadline c) (closes c).
Definition set_rdeadline (d : deadline) (c : Conn) : Conn :=
  mkConn (incoming c) (outgoing c) (wbudget c) d (wdeadline c) (closes c).
Definition set_wdeadline (d : deadline) (c : Conn) : Conn :=
  mkConn (incoming c) (outgoing c) (wbudget c) (rdeadline c) d (closes c).

(** The segment that remains after [n] of its bytes were read. *)
Definition rest_of_segment (n : nat) (seg : list byte) (rest : list event) : list event :=
  match skipn n seg with
  | [] => rest
  | b :: bs => Data b bs :: rest
  end.

(** A read of at most [n > 0] bytes from the peer's events.  Without a
    deadline a silent peer is waited for; with one, the read times out and
    the deadline has passed.  A broken connection reports the reset
    once: what the peer had still to send is lost, and later reads find
    the end of the stream. *)
Fixpoint read_events (dl : deadline) (n : nat) (evs : list event)
  : (list byte * option error) * deadline * list event :=
  match evs with
  | [] => (([], Some EOF), dl, [])
  | Data b bs :: rest => ((firstn n (b :: bs), None), dl, rest_of_segment n (b :: bs) rest)
  | Stall :: rest =>
      match dl with
      | NoDeadline => read_events dl n rest
      | _ => (([], Some NetTimeout), Expired, rest)
      end
  | Reset :: rest => (([], Some NetReset), dl, [])
  end.

(** [conn.Read(p)] with [len(p) = n]. *)
Definition conn_Read (n : nat) (c : Conn) : (list byte * option error) * Conn :=
  if is_closed c then (([], Some NetClosed), c)
  else if Nat.eqb n 0 then (([], None), c)
  else match rdeadline c with
       | Expired => (([], Some NetTimeout), c)
       | dl =>
           let '(res, dl', evs') := read_events dl n (incoming c) in
           (res, set_rdeadline dl' (set_incoming evs' c))
       end.

(** [conn.Write(p)]: all of [p] is written, or the write fails after the
    bytes the peer still accepted. *)
Definition conn_Write (p : list byte) (c : Conn) : (nat * option error) * Conn :=
  if is_closed c then ((0, Some NetClosed), c)
  else match wbudget c with
       | None =>
           ((length p, None),
            mkConn (incoming c) (outgoing c ++ p) None (rdeadline c) (wdeadline c) (closes c))
       | Some k =>
           if length p <=? k then
             ((length p, None),
              mkConn (incoming c) (outgoing c ++ p) (Some (k - length p))
                     (rdeadline c) (wdeadline c) (closes c))
           else
             ((k, Some NetReset),
              mkConn (incoming c) (outgoing c ++ firstn k p) (Some 0)
                     (rdeadline c) (wdeadline c) (closes c))
       end.

(** [conn.SetReadDeadline(t)], [conn.SetWriteDeadline(t)] and
    [conn.SetDeadline(t)]; [arm] says whether [t] is a time ahead or the
    zero time, which clears the deadline. *)
Definition deadline_of (arm : bool) : deadline := if arm then Armed else NoDeadline.

Definition conn_SetReadDeadline (arm : bool) (c : Conn) : option error * Conn :=
  if is_closed c then (Some NetClosed, c)
  else (None, set_rdeadline (deadline_of arm) c).

Definition conn_SetWriteDeadline (arm : bool) (c : Conn) : option error * Conn :=
  if is_closed c then (Some NetClosed, c)
  else (None, set_wdeadline (deadline_of arm) c).

Definition conn_SetDeadline (arm : bool) (c : Conn) : option error * Conn :=
  if is_closed c then (Some NetClosed, c)
  else (None, set_wdeadline (deadline_of arm) (set_rdeadline (deadline_of arm) c)).

(** [conn.Close()]: the first call closes the socket, a later one reports
    that it is closed already. *)
Definition conn_Close (c : Conn) : option error * Conn :=
  (if is_closed c then Some NetClosed else None,
   mkConn (incoming c) (outgoing c) (wbudget c) (rdeadline c) (wdeadline c) (S (closes c))).

(* ================================================================== *)
(** * Buffered I/O: the model of [bufio.Reader] and [bufio.Writer] *)
(* ================================================================== *)

(** The size of a buffer of [bufio.NewReader] and [bufio.NewWriter]. *)
Definition bufSize : nat := 4096.

(** A [bufio.Reader]: the unread bytes [buf[r:w]] and the pending error. *)
Record Reader := mkReader {
  rbuf : list byte;
  rerr : option error
}.

(** A [bufio.Writer]: the bytes not flushed yet and the sticky error. *)
Record Writer := mkWriter {
  wbuf : list byte;
  werr : option error
}.

(** [b.fill()]: one read into the free part of the buffer.  The source
    retries an empty read without error up to 100 times and then gives up
    with [io.ErrNoProgress]; [conn_Read] leaves the socket as it is on such
    a read, so the retries would all be empty. *)
Definition Reader_fill (r : Reader) (c : Conn) : Reader * Conn :=
  let '((bs, e), c') := conn_Read (bufSize - length (rbuf r)) c in
  match e, bs with
  | Some err, _ => (mkReader (rbuf r ++ bs) (Some err), c')
  | None, [] => (mkReader (rbuf r) (Some ErrNoProgress), c')
  | None, _ => (mkReader (rbuf r ++ bs) None, c')
  end.

(** [b.ReadSlice(delim)]: search the buffer; hand out a pending error with
    what is buffered; report a full buffer; else fill and search again.
    [fuel] bounds the number of fills. *)
Fixpoint Reader_ReadSlice (fuel : nat) (delim : byte) (r : Reader) (c : Conn)
  : (list byte * option error) * Reader * Conn :=
  match Bytes.cut delim (rbuf r) with
  | Some (line, rest) => ((line, None), mkReader rest (rerr r), c)
  | None =>
      match rerr r with
      | Some e => ((rbuf r, Some e), mkReader [] None, c)
      | None =>
          if bufSize <=? length (rbuf r) then
            ((rbuf r, Some ErrBufferFull), mkReader [] None, c)
          else
            match fuel with
            | O => ((rbuf r, Some ErrNoProgress), mkReader [] None, c)
            | S fuel' =>
                let '(r', c') := Reader_fill r c in
                Reader_ReadSlice fuel' delim r' c'
            end
      end
  end.

(** [b.collectFragments(delim)] with the concatenation [ReadBytes] does on
    its result: full buffers are set aside until [ReadSlice] finds the
    delimiter or fails with something else than a full buffer. *)
Fixpoint Reader_collect (fuel : nat) (delim : byte) (acc : list byte)
  (r : Reader) (c : Conn) : (list byte * option error) * Reader * Conn :=
  let '((frag, e), r', c') := Reader_ReadSlice fuel delim r c in
  match e with
  | None => ((acc ++ frag, None), r', c')
  | Some ErrBufferFull =>
      match fuel with
      | O => ((acc ++ frag, Some ErrNoProgress), r', c')
      | S fuel' => Reader_collect fuel' delim (acc ++ frag) r' c'
      end
  | Some err => ((acc ++ frag, Some err), r', c')
  end.

(** The number of steps the peer's events can feed. *)
Fixpoint events_size (evs : list event) : nat :=
  match evs with
  | [] => 0
  | Data b bs :: rest => S (S (length bs)) + events_size rest
  | _ :: rest => 1 + events_size rest
  end.

Definition read_fuel (r : Reader) (c : Conn) : nat :=
  S (length (rbuf r) + events_size (incoming c)).

(** [b.ReadBytes(delim)]. *)
Definition Reader_ReadBytes (delim : byte) (r : Reader) (c : Conn)
  : (list byte * option error) * Reader * Conn :=
  Reader_collect (read_fuel r c) delim [] r c.

(** [b.Buffered()]. *)
Definition Reader_Buffered (r : Reader) : nat := length (rbuf r).

(** [b.readErr()]. *)
Definition Reader_readErr (r : Reader) : option error * Reader :=
  (rerr r, mkReader (rbuf r) None).

(** [b.Peek(n)].  The fill loop of the source runs while fewer than [n]
    bytes are buffered, the buffer is not full and no error is pending;
    [fuel] bounds it. *)
Fixpoint Reader_Peek_loop (fuel : nat) (n : nat) (r : Reader) (c : Conn)
  : (list byte * option error) * Reader * Conn :=
  if (length (rbuf r) <? n) && (length (rbuf r) <? bufSize)
     && match rerr r with None => true | Some _ => false end
  then match fuel with
       | O => ((rbuf r, Some ErrNoProgress), r, c)
       | S fuel' => let '(r', c') := Reader_fill r c in Reader_Peek_loop fuel' n r' c'
       end
  else if bufSize <? n then ((rbuf r, Some ErrBufferFull), r, c)
  else if length (rbuf r) <? n then
    let '(e, r') := Reader_readErr r in
    ((rbuf r, Some (match e with Some e' => e' | None => ErrBufferFull end)), r', c)
  else ((firstn n (rbuf r), None), r, c).

Definition Reader_Peek (n : nat) (r : Reader) (c : Conn)
  : (list byte * option error) * Reader * Conn :=
  Reader_Peek_loop (S n) n r c.

(** [b.Discard(n)]: skip what is buffered, filling when nothing is. *)
Fixpoint Reader_Discard_loop (fuel : nat) (remaining : nat) (done : nat) (r : Reader) (c : Conn)
  : (nat * option error) * Reader * Conn :=
  let '(r1, c1) :=
    match rbuf r with
    | [] => Reader_fill r c
    | _ => (r, c)
    end in
  let skip := Nat.min (length (rbuf r1)) remaining in
  let r2 := mkReader (skipn skip (rbuf r1)) (rerr r1) in
  if Nat.eqb (remaining - skip) 0 then ((done + skip, None), r2, c1)
  else match rerr r2 with
       | Some e => ((done + skip, Some e), mkReader (rbuf r2) None, c1)
       | None =>
           match fuel with
           | O => ((done + skip, Some ErrNoProgress), r2, c1)
           | S fuel' => Reader_Discard_loop fuel' (remaining - skip) (done + skip) r2 c1
           end
       end.

Definition Reader_Discard (n : nat) (r : Reader) (c : Conn)
  : (nat * option error) * Reader * Conn :=
  if Nat.eqb n 0 then ((0, None), r, c)
  else Reader_Discard_loop n n 0 r c.

(** [b.Flush()]. *)
Definition Writer_Flush (w : Writer) (c : Conn) : option error * Writer * Conn :=
  match werr w with
  | Some e => (Some e, w, c)
  | None =>
      match wbuf w with
      | [] => (None, w, c)
      | _ =>
          let '((n, e), c') := conn_Write (wbuf w) c in
          let e' := match e with
                    | None => if n <? length (wbuf w) then Some ErrShortWrite else None
                    | Some _ => e
                    end in
          match e' with
          | Some err => (Some err, mkWriter (skipn n (wbuf w)) (Some err), c')
          | None => (None, mkWriter [] None, c')
          end
      end
  end.

(** [b.Write(p)].  While [p] does not fit, an empty buffer is bypassed and
    a partly filled one is topped up and flushed; what remains is copied
    into the buffer.  The loop runs at most twice: after a flush the buffer
    is empty or the writer has failed. *)
Fixpoint Writer_Write_loop (fuel : nat) (p : list byte) (nn : nat) (w : Writer) (c : Conn)
  : (nat * option error) * Writer * Conn :=
  let avail := bufSize - length (wbuf w) in
  if (avail <? length p) && match werr w with None => true | Some _ => false end then
    match fuel with
    | O => ((nn, Some ErrNoProgress), w, c)
    | S fuel' =>
        match wbuf w with
        | [] =>
            let '((n, e), c') := conn_Write p c in
            Writer_Write_loop fuel' (skipn n p) (nn + n) (mkWriter [] e) c'
        | _ =>
            let '(_, w', c') := Writer_Flush (mkWriter (wbuf w ++ firstn avail p) (werr w)) c in
            Writer_Write_loop fuel' (skipn avail p) (nn + avail) w' c'
        end
    end
  else
    match werr w with
    | Some e => ((nn, Some e), w, c)
    | None => ((nn + length p, None), mkWriter (wbuf w ++ p) None, c)
    end.

Definition Writer_Write (p : list byte) (w : Writer) (c : Conn)
  : (nat * option error) * Writer * Conn :=
  Writer_Write_loop 3 p 0 w c.

(** [b.WriteByte(c)]. *)
Definition Writer_WriteByte (x : byte) (w : Writer) (c : Conn) : option error * Writer * Conn :=
  match werr w with
  | Some e => (Some e, w, c)
  | None =>
      if bufSize <=? length (wbuf w) then
        let '(e, w', c') := Writer_Flush w c in
        match e with
        | Some _ => (werr w', w', c')
        | None => (None, mkWriter (wbuf w' ++ [x]) (werr w'), c')
        end
      else (None, mkWriter (wbuf w ++ [x]) None, c)
  end.

(* ================================================================== *)
(** * The data of the package *)
(* ================================================================== *)

(** [uuid.UUID], an array of 16 bytes. *)
Definition UUID := list byte.

(** [uuid.Nil], the zero value. *)
Definition uuid_Nil : UUID := repeat x00 16.

(** [Delimited] (protocol.go): a socket with its buffered reader and
    writer.  The fields [conn], [r] and [w] carry the prefix [d_];
    [d_conn] is the descriptor of the socket. *)
Record Delimited := mkDelimited {
  d_conn : nat;
  d_r : Reader;
  d_w : Writer
}.

(** [ServerMessage] (protocol.go). *)
Record ServerMessage := mkServerMessage {
  Kind : ServerMessageKind;
  Port : Z;
  ID : UUID;
  ErrorText : string
}.

(** [ServerMessage{}]. *)
Definition ServerMessage_zero : ServerMessage :=
  mkServerMessage KindNone 0 uuid_Nil EmptyString.

(** [Authenticator]. *)
Record Authenticator := mkAuthenticator {
  key : list byte
}.

(** [Client].  The fields that are not atomics carry the prefix [c_].
    [c_conn] points to the framed control connection ([None] is [nil]);
    [connected], [activeProxies] and [lastHeartbeat] are the atomics,
    [closeOnce] says whether the [sync.Once] has fired. *)
Record Client := mkClient {
  c_conn : option nat;
  c_to : string;
  c_localHost : string;
  c_localPort : Z;
  c_remotePort : Z;
  c_auth : option Authenticator;
  connected : bool;
  activeProxies : Z;
  lastHeartbeat : Z;
  closeOnce : bool
}.

(** What [net.DialTimeout] finds at an address: a failure, or a peer with
    its events and the number of bytes it accepts. *)
Inductive DialOutcome :=
  | DialFails (e : error)
  | DialConnects (peer : list event) (budget : option nat).

(** The lines the package logs, one constructor per [log.Printf] site. *)
Inductive LogEntry :=
  | LogConnected (port : Z)                      (* connected to server, remote port %d *)
  | LogUnexpectedControl (k : ServerMessageKind)  (* unexpected control message: %v *)
  | LogUnknownMessage (m : ServerMessage)         (* unknown server message: %+v *)
  | LogProxyEnded (id : UUID) (e : error).        (* proxy for %s ended with error: %v *)

(** The goroutines the package starts with [go]: the proxy session of
    [Listen] for a connection id, and its watcher that closes the client
    once the context is done. *)
Inductive Task :=
  | GoHandleConnection (client : nat) (id : UUID)
  | GoCloseWhenDone (ctx : nat) (client : nat).

(** The goroutines of [proxy]: the two copies and the caller, which waits
    for them. *)
Inductive Thread :=
  | CopyAB     (* io.Copy(a, b) *)
  | CopyBA     (* io.Copy(b, a) *)
  | Caller.

(** The state all effects act on. *)
Record World := mkWorld {
  socks : list Conn;                          (* the sockets, by descriptor *)
  delims : list Delimited;                    (* the heap of [*Delimited] *)
  clients : list Client;                      (* the heap of [*Client] *)
  network : gmap string (list DialOutcome);   (* what a dial of an address gives, in turn *)
  now : Z;                                    (* [time.Now().UnixNano()] *)
  contexts : list bool;                       (* the contexts: whether each is done *)
  goroutines : list Task;                     (* the goroutines started with [go] *)
  schedule : list Thread;                     (* which goroutine of a proxy runs next *)
  logs : list LogEntry                        (* the lines logged *)
}.

Definition with_socks (x : list Conn) (w : World) : World :=
  mkWorld x (delims w) (clients w) (network w) (now w) (contexts w) (goroutines w) (schedule w) (logs w).
Definition with_delims (x : list Delimited) (w : World) : World :=
  mkWorld (socks w) x (clients w) (network w) (now w) (contexts w) (goroutines w) (schedule w) (logs w).
Definition with_clients (x : list Client) (w : World) : World :=
  mkWorld (socks w) (delims w) x (network w) (now w) (contexts w) (goroutines w) (schedule w) (logs w).
Definition with_network (x : gmap string (list DialOutcome)) (w : World) : World :=
  mkWorld (socks w) (delims w) (clients w) x (now w) (contexts w) (goroutines w) (schedule w) (logs w).
Definition with_contexts (x : list bool) (w : World) : World :=
  mkWorld (socks w) (delims w) (clients w) (network w) (now w) x (goroutines w) (schedule w) (logs w).
Definition with_goroutines (x : list Task) (w : World) : World :=
  mkWorld (socks w) (delims w) (clients w) (network w) (now w) (contexts w) x (schedule w) (logs w).
Definition with_schedule (x : list Thread) (w : World) : World :=
  mkWorld (socks w) (delims w) (clients w) (network w) (now w) (contexts w) (goroutines w) x (logs w).
Definition with_logs (x : list LogEntry) (w : World) : World :=
  mkWorld (socks w) (delims w) (clients w) (network w) (now w) (contexts w) (goroutines w) (schedule w) x.

(* ================================================================== *)
(** * The state monad *)
(* ================================================================== *)

Definition M (A : Type) : Type := World -> A * World.

Definition ret {A} (a : A) : M A := fun w => (a, w).

Definition bind {A B} (m : M A) (k : A -> M B) : M B :=
  fun w => let (a, w') := m w in k a w'.

#[global] Instance M_ret : MRet M := @ret.
#[global] Instance M_bind : MBind M := fun A B k m => bind m k.

Definition get : M World := fun w => (w, w).
Definition modify (f : World -> World) : M unit := fun w => (tt, f w).

(** An operation on the socket [fd].  A descriptor that was never handed
    out behaves like a closed socket. *)
Definition on_sock {A} (fd : nat) (bad : A) (f : Conn -> A * Conn) : M A :=
  fun w =>
    match socks w !! fd with
    | Some c => let (a, c') := f c in (a, with_socks (<[fd := c']> (socks w)) w)
    | None => (bad, w)
    end.

Definition net_Read (fd : nat) (n : nat) : M (list byte * option error) :=
  on_sock fd ([], Some NetClosed) (conn_Read n).
Definition net_Write (fd : nat) (p : list byte) : M (nat * option error) :=
  on_sock fd (0, Some NetClosed) (conn_Write p).
Definition net_SetReadDeadline (fd : nat) (arm : bool) : M (option error) :=
  on_sock fd (Some NetClosed) (conn_SetReadDeadline arm).
Definition net_SetWriteDeadline (fd : nat) (arm : bool) : M (option error) :=
  on_sock fd (Some NetClosed) (conn_SetWriteDeadline arm).
Definition net_SetDeadline (fd : nat) (arm : bool) : M (option error) :=
  on_sock fd (Some NetClosed) (conn_SetDeadline arm).
Definition net_Close (fd : nat) : M (option error) :=
  on_sock fd (Some NetClosed) conn_Close.

(** An operation of the buffered reader or writer of the framed connection
    [d], which acts on the pair of the [Delimited] and its socket. *)
Definition on_delim {A} (d : nat) (bad : A)
  (f : Delimited -> Conn -> A * Delimited * Conn) : M A :=
  fun w =>
    match delims w !! d with
    | Some D =>
        match socks w !! d_conn D with
        | Some c =>
            let '(a, D', c') := f D c in
            (a, with_delims (<[d := D']> (delims w))
                  (with_socks (<[d_conn D := c']> (socks w)) w))
        | None => (bad, w)
        end
    | None => (bad, w)
    end.

Definition on_reader {A} (f : Reader -> Conn -> A * Reader * Conn)
  (D : Delimited) (c : Conn) : A * Delimited * Conn :=
  let '(a, r', c') := f (d_r D) c in (a, mkDelimited (d_conn D) r' (d_w D), c').

Definition on_writer {A} (f : Writer -> Conn -> A * Writer * Conn)
  (D : Delimited) (c : Conn) : A * Delimited * Conn :=
  let '(a, w', c') := f (d_w D) c in (a, mkDelimited (d_conn D) (d_r D) w', c').


(* ================================================================== *)
(** * UTF-8: the model of [unicode/utf8] *)
(* ================================================================== *)

Module UTF8.

(** [utf8.RuneError], U+FFFD. *)
Definition RuneError : Z := 65533.

Definition in_range (lo hi : Z) (b : byte) : bool :=
  (lo <=? Bytes.to_Z b)%Z && (Bytes.to_Z b <=? hi)%Z.

Definition cont (b : byte) : Z := Z.land (Bytes.to_Z b) 63.

(** [utf8.DecodeRune(p)]: the first rune of [p] and its width; an invalid
    or truncated encoding gives [(RuneError, 1)], the empty input
    [(RuneError, 0)]. *)
Definition DecodeRune (p : list byte) : Z * nat :=
  match p with
  | [] => (RuneError, 0)
  | b0 :: p1 =>
      let z0 := Bytes.to_Z b0 in
      if (z0 <? 128)%Z then (z0, 1)
      else if in_range 194 223 b0 then
        match p1 with
        | b1 :: _ =>
            if in_range 128 191 b1
            then (Z.lor (Z.shiftl (Z.land z0 31) 6) (cont b1), 2)
            else (RuneError, 1)
        | _ => (RuneError, 1)
        end
      else if in_range 224 239 b0 then
        match p1 with
        | b1 :: b2 :: _ =>
            let lo := if (z0 =? 224)%Z then 160%Z else 128%Z in
            let hi := if (z0 =? 237)%Z then 159%Z else 191%Z in
            if in_range lo hi b1 && in_range 128 191 b2
            then (Z.lor (Z.shiftl (Z.land z0 15) 12)
                        (Z.lor (Z.shiftl (cont b1) 6) (cont b2)), 3)
            else (RuneError, 1)
        | _ => (RuneError, 1)
        end
      else if in_range 240 244 b0 then
        match p1 with
        | b1 :: b2 :: b3 :: _ =>
            let lo := if (z0 =? 240)%Z then 144%Z else 128%Z in
            let hi := if (z0 =? 244)%Z then 143%Z else 191%Z in
            if in_range lo hi b1 && in_range 128 191 b2 && in_range 128 191 b3
            then (Z.lor (Z.shiftl (Z.land z0 7) 18)
                        (Z.lor (Z.shiftl (cont b1) 12)
                               (Z.lor (Z.shiftl (cont b2) 6) (cont b3))), 4)
            else (RuneError, 1)
        | _ => (RuneError, 1)
        end
      else (RuneError, 1)
  end.

Definition is_surrogate (r : Z) : bool := (55296 <=? r)%Z && (r <=? 57343)%Z.

(** [utf8.EncodeRune]; a surrogate or a value out of range is written as
    [RuneError]. *)
Definition EncodeRune (r : Z) : list byte :=
  let r := if (r <? 0)%Z || (1114111 <? r)%Z || is_surrogate r then RuneError else r in
  if (r <? 128)%Z then [Bytes.of_Z r]
  else if (r <? 2048)%Z then
    [Bytes.of_Z (Z.lor 192 (Z.shiftr r 6)); Bytes.of_Z (Z.lor 128 (Z.land r 63))]
  else if (r <? 65536)%Z then
    [Bytes.of_Z (Z.lor 224 (Z.shiftr r 12));
     Bytes.of_Z (Z.lor 128 (Z.land (Z.shiftr r 6) 63));
     Bytes.of_Z (Z.lor 128 (Z.land r 63))]
  else
    [Bytes.of_Z (Z.lor 240 (Z.shiftr r 18));
     Bytes.of_Z (Z.lor 128 (Z.land (Z.shiftr r 12) 63));
     Bytes.of_Z (Z.lor 128 (Z.land (Z.shiftr r 6) 63));
     Bytes.of_Z (Z.lor 128 (Z.land r 63))].

(** [utf16.DecodeRune(r1, r2)]: the rune of a surrogate pair, or
    [RuneError] when the two are not a high and a low surrogate. *)
Definition DecodeSurrogates (r1 r2 : Z) : Z :=
  if (55296 <=? r1)%Z && (r1 <? 56320)%Z && (56320 <=? r2)%Z && (r2 <? 57344)%Z
  then (Z.lor (Z.shiftl (r1 - 55296) 10) (r2 - 56320) + 65536)%Z
  else RuneError.

End UTF8.

(* ================================================================== *)
(** * Hexadecimal digits and decimal numbers *)
(* ================================================================== *)

Module Hex.

(** The value of a hexadecimal digit, of either case. *)
Definition digit_value (b : byte) : option Z :=
  let z := Bytes.to_Z b in
  if (48 <=? z)%Z && (z <=? 57)%Z then Some (z - 48)%Z
  else if (97 <=? z)%Z && (z <=? 102)%Z then Some (z - 87)%Z
  else if (65 <=? z)%Z && (z <=? 70)%Z then Some (z - 55)%Z
  else None.

(** The lower-case digit of a value below 16: the table
    [0123456789abcdef] of [encoding/hex]. *)
Definition digit (z : Z) : byte :=
  if (z <? 10)%Z then Bytes.of_Z (48 + z) else Bytes.of_Z (87 + z).

(** [hex.EncodeToString(src)]: two lower-case digits per byte, the high
    nibble first. *)
Fixpoint encode (src : list byte) : list byte :=
  match src with
  | [] => []
  | b :: rest =>
      digit (Z.shiftr (Bytes.to_Z b) 4) :: digit (Z.land (Bytes.to_Z b) 15) :: encode rest
  end.

Definition EncodeToString (src : list byte) : string := Bytes.to_string (encode src).

(** [xtob(x1, x2)] of the uuid package: the byte of two digits. *)
Definition xtob (x1 x2 : byte) : option byte :=
  match digit_value x1, digit_value x2 with
  | Some h, Some l => Some (Bytes.of_Z (16 * h + l))
  | _, _ => None
  end.

End Hex.

Module Decimal.

Definition is_digit (b : byte) : bool :=
  (48 <=? Bytes.to_Z b)%Z && (Bytes.to_Z b <=? 57)%Z.

(** The value of a string of decimal digits; [None] when it is empty or
    has another character. *)
Fixpoint value_from (acc : Z) (l : list byte) : option Z :=
  match l with
  | [] => Some acc
  | b :: rest =>
      if is_digit b then value_from (10 * acc + (Bytes.to_Z b - 48)) rest else None
  end.

Definition value (l : list byte) : option Z :=
  match l with
  | [] => None
  | _ => value_from 0 l
  end.

(** The decimal digits of a natural number, most significant first. *)
Fixpoint digits_fuel (fuel : nat) (n : Z) (acc : list byte) : list byte :=
  match fuel with
  | O => acc
  | S fuel' =>
      let acc' := Bytes.of_Z (48 + n mod 10) :: acc in
      if (n <? 10)%Z then acc' else digits_fuel fuel' (n / 10) acc'
  end.

(** [strconv.Itoa(n)] for [n >= 0]. *)
Definition Itoa (n : Z) : list byte := digits_fuel (S (Z.to_nat (Z.log2 n))) n [].

End Decimal.

(* ================================================================== *)
(** * JSON: the model of [encoding/json] *)
(* ================================================================== *)

Module JSON.

(** A JSON text as [json.Unmarshal] sees it.  A number keeps its literal,
    a string is decoded, an object keeps its members in order. *)
#[warnings="-register-all"]
Inductive value :=
  | JNull
  | JBool (b : bool)
  | JNumber (lit : list byte)
  | JString (s : string)
  | JArray (elems : list value)
  | JObject (members : list (string * value)).

Definition is_space (b : byte) : bool :=
  match b with
  | x20 | x09 | x0a | x0d => true
  | _ => false
  end.

Fixpoint skip_space (l : list byte) : list byte :=
  match l with
  | b :: l' => if is_space b then skip_space l' else l
  | [] => []
  end.

(** The four hexadecimal digits of a [\u] escape. *)
Definition getu4 (l : list byte) : option (Z * list byte) :=
  match l with
  | a :: b :: c :: d :: rest =>
      match Hex.digit_value a, Hex.digit_value b, Hex.digit_value c, Hex.digit_value d with
      | Some va, Some vb, Some vc, Some vd =>
          Some (((va * 16 + vb) * 16 + vc) * 16 + vd, rest)%Z
      | _, _, _, _ => None
      end
  | _ => None
  end.

(** The characters of a string literal after its opening quote, decoded
    as [unquote] does: escapes are replaced, a surrogate pair of [\u]
    escapes is one rune, a lone surrogate and an invalid UTF-8 byte become
    U+FFFD.  A control character ends the parse with an error. *)
Fixpoint string_body (fuel : nat) (l : list byte) (acc : list byte)
  : option (list byte * list byte) :=
  match fuel with
  | O => None
  | S fuel' =>
      match l with
      | [] => None
      | x22 :: rest => Some (acc, rest)
      | x5c :: e :: rest =>
          match e with
          | x22 | x5c | x2f => string_body fuel' rest (acc ++ [e])
          | "b"%byte => string_body fuel' rest (acc ++ [x08])
          | "f"%byte => string_body fuel' rest (acc ++ [x0c])
          | "n"%byte => string_body fuel' rest (acc ++ [x0a])
          | "r"%byte => string_body fuel' rest (acc ++ [x0d])
          | "t"%byte => string_body fuel' rest (acc ++ [x09])
          | "u"%byte =>
              match getu4 rest with
              | None => None
              | Some (rr, rest1) =>
                  if UTF8.is_surrogate rr then
                    match rest1 with
                    | x5c :: "u"%byte :: rest2 =>
                        match getu4 rest2 with
                        | Some (rr1, rest3) =>
                            let dec := UTF8.DecodeSurrogates rr rr1 in
                            if (dec =? UTF8.RuneError)%Z
                            then string_body fuel' rest1 (acc ++ UTF8.EncodeRune UTF8.RuneError)
                            else string_body fuel' rest3 (acc ++ UTF8.EncodeRune dec)
                        | None => string_body fuel' rest1 (acc ++ UTF8.EncodeRune UTF8.RuneError)
                        end
                    | _ => string_body fuel' rest1 (acc ++ UTF8.EncodeRune UTF8.RuneError)
                    end
                  else string_body fuel' rest1 (acc ++ UTF8.EncodeRune rr)
              end
          | _ => None
          end
      | [x5c] => None
      | b :: rest =>
          if (Bytes.to_Z b <? 32)%Z then None
          else if (Bytes.to_Z b <? 128)%Z then string_body fuel' rest (acc ++ [b])
          else
            let '(r, size) := UTF8.DecodeRune l in
            string_body fuel' (skipn size l) (acc ++ UTF8.EncodeRune r)
      end
  end.

Fixpoint span_digits (l : list byte) : list byte * list byte :=
  match l with
  | b :: l' =>
      if Decimal.is_digit b then let '(ds, rest) := span_digits l' in (b :: ds, rest)
      else ([], l)
  | [] => ([], [])
  end.

(** A number literal: an optional minus, an integer part without leading
    zeros, an optional fraction and an optional exponent. *)
Definition number (l : list byte) : option (list byte * list byte) :=
  let '(sign, l1) :=
    match l with
    | "-"%byte :: l' => (["-"%byte], l')
    | _ => ([], l)
    end in
  let int_part :=
    match l1 with
    | "0"%byte :: l' => Some (["0"%byte], l')
    | _ =>
        match span_digits l1 with
        | ([], _) => None
        | (ds, l') => Some (ds, l')
        end
    end in
  match int_part with
  | None => None
  | Some (ip, l2) =>
      let frac :=
        match l2 with
        | "."%byte :: l' =>
            match span_digits l' with
            | ([], _) => None
            | (ds, l'') => Some ("."%byte :: ds, l'')
            end
        | _ => Some ([], l2)
        end in
      match frac with
      | None => None
      | Some (fp, l3) =>
          let exp :=
            match l3 with
            | e :: l' =>
                if Bytes.eqb e "e"%byte || Bytes.eqb e "E"%byte then
                  let '(sg, l'') :=
                    match l' with
                    | s :: l'' =>
                        if Bytes.eqb s "+"%byte || Bytes.eqb s "-"%byte
                        then ([s], l'') else ([], l')
                    | [] => ([], l')
                    end in
                  match span_digits l'' with
                  | ([], _) => None
                  | (ds, l''') => Some (e :: sg ++ ds, l''')
                  end
                else Some ([], l3)
            | [] => Some ([], l3)
            end in
          match exp with
          | None => None
          | Some (ep, l4) => Some (sign ++ ip ++ fp ++ ep, l4)
          end
      end
  end.

(** A literal name: [true], [false] or [null]. *)
Fixpoint literal (name : list byte) (l : list byte) : option (list byte) :=
  match name, l with
  | [], _ => Some l
  | n :: name', b :: l' => if Bytes.eqb n b then literal name' l' else None
  | _ :: _, [] => None
  end.

(** One value, after optional white space; what follows it is returned.
    [elements] and [members] read the rest of an array and of an object
    after their first item. *)
Fixpoint parse_value (fuel : nat) (l : list byte) : option (value * list byte) :=
  match fuel with
  | O => None
  | S fuel' =>
      match skip_space l with
      | "{"%byte :: l1 =>
          match skip_space l1 with
          | "}"%byte :: l2 => Some (JObject [], l2)
          | x22 :: l2 =>
              match string_body (length l2) l2 [] with
              | None => None
              | Some (k, l3) =>
                  match skip_space l3 with
                  | ":"%byte :: l4 =>
                      match parse_value fuel' l4 with
                      | None => None
                      | Some (v, l5) =>
                          match members fuel' l5 [(Bytes.to_string k, v)] with
                          | None => None
                          | Some (ms, l6) => Some (JObject ms, l6)
                          end
                      end
                  | _ => None
                  end
              end
          | _ => None
          end
      | "["%byte :: l1 =>
          match skip_space l1 with
          | "]"%byte :: l2 => Some (JArray [], l2)
          | _ =>
              match parse_value fuel' l1 with
              | None => None
              | Some (v, l2) =>
                  match elements fuel' l2 [v] with
                  | None => None
                  | Some (vs, l3) => Some (JArray vs, l3)
                  end
              end
          end
      | x22 :: l1 =>
          match string_body (length l1) l1 [] with
          | None => None
          | Some (s, l2) => Some (JString (Bytes.to_string s), l2)
          end
      | "t"%byte :: l1 =>
          match literal (Bytes.of_string "rue") l1 with
          | Some l2 => Some (JBool true, l2)
          | None => None
          end
      | "f"%byte :: l1 =>
          match literal (Bytes.of_string "alse") l1 with
          | Some l2 => Some (JBool false, l2)
          | None => None
          end
      | "n"%byte :: l1 =>
          match literal (Bytes.of_string "ull") l1 with
          | Some l2 => Some (JNull, l2)
          | None => None
          end
      | l0 =>
          match number l0 with
          | Some (lit, l1) => Some (JNumber lit, l1)
          | None => None
          end
      end
  end
with elements (fuel : nat) (l : list byte) (acc : list value)
  : option (list value * list byte) :=
  match fuel with
  | O => None
  | S fuel' =>
      match skip_space l with
      | "]"%byte :: l1 => Some (acc, l1)
      | ","%byte :: l1 =>
          match parse_value fuel' l1 with
          | None => None
          | Some (v, l2) => elements fuel' l2 (acc ++ [v])
          end
      | _ => None
      end
  end
with members (fuel : nat) (l : list byte) (acc : list (string * value))
  : option (list (string * value) * list byte) :=
  match fuel with
  | O => None
  | S fuel' =>
      match skip_space l with
      | "}"%byte :: l1 => Some (acc, l1)
      | ","%byte :: l1 =>
          match skip_space l1 with
          | x22 :: l2 =>
              match string_body (length l2) l2 [] with
              | None => None
              | Some (k, l3) =>
                  match skip_space l3 with
                  | ":"%byte :: l4 =>
                      match parse_value fuel' l4 with
                      | None => None
                      | Some (v, l5) => members fuel' l5 (acc ++ [(Bytes.to_string k, v)])
                      end
                  | _ => None
                  end
              end
          | _ => None
          end
      | _ => None
      end
  end.

(** A whole text: one value with white space around it and nothing else
    ([checkValid]). *)
Definition parse (data : list byte) : option value :=
  match parse_value (S (length data)) data with
  | Some (v, rest) =>
      match skip_space rest with
      | [] => Some v
      | _ => None
      end
  | None => None
  end.

(** A [json.RawMessage] holds the bytes of one value of a text that was
    checked already; unmarshalling it parses those bytes again, which gives
    the value the first parse found.  The model keeps that value. *)
Abbreviation RawMessage := value.

(** What [json.Unmarshal] does with a parsed text for a [*string] that
    holds [cur]: a string is stored, [null] leaves the target as it is,
    anything else is a type error. *)
Definition decode_string (v : value) (cur : string) : string * option error :=
  match v with
  | JString s => (s, None)
  | JNull => (cur, None)
  | _ => (cur, Some JsonType)
  end.

(** For a [*uint16] that holds [cur]: the literal must be an unsigned
    decimal integer ([strconv.ParseUint]) that fits 16 bits. *)
Definition decode_uint16 (v : value) (cur : Z) : Z * option error :=
  match v with
  | JNumber lit =>
      match Decimal.value lit with
      | Some n => if (n <=? 65535)%Z then (n, None) else (cur, Some JsonType)
      | None => (cur, Some JsonType)
      end
  | JNull => (cur, None)
  | _ => (cur, Some JsonType)
  end.

(** The map of the members of an object: they are stored in order, so a
    repeated key keeps its last value. *)
Definition object_map (ms : list (string * value)) : gmap string RawMessage :=
  fold_left (fun m kv => <[kv.1 := kv.2]> m) ms ∅.

(** For a [*map[string]json.RawMessage] that holds [nil]. *)
Definition decode_map (v : value) : gmap string RawMessage * option error :=
  match v with
  | JObject ms => (object_map ms, None)
  | JNull => (∅, None)
  | _ => (∅, Some JsonType)
  end.

(** [json.Unmarshal(data, &target)] for the three targets. *)
Definition Unmarshal_string (data : list byte) (cur : string) : string * option error :=
  match parse data with
  | Some v => decode_string v cur
  | None => (cur, Some JsonSyntax)
  end.

Definition Unmarshal_map (data : list byte) : gmap string RawMessage * option error :=
  match parse data with
  | Some v => decode_map v
  | None => (∅, Some JsonSyntax)
  end.

(** The values the package marshals: what [encodeHello],
    [encodeAuthenticate] and [encodeAccept] build, a
    [map[string]interface{}] with one entry whose value is a [uint16], a
    [string] or a [uuid.UUID]. *)
Inductive GoValue :=
  | VUint16 (n : Z)
  | VString (s : string)
  | VText (text : list byte)      (* an [encoding.TextMarshaler], by its text *)
  | VMap1 (k : string) (v : GoValue).

Definition hex4 (z : Z) : list byte :=
  [Hex.digit (Z.land (Z.shiftr z 12) 15); Hex.digit (Z.land (Z.shiftr z 8) 15);
   Hex.digit (Z.land (Z.shiftr z 4) 15); Hex.digit (Z.land z 15)].

(** The characters of a string as [json.Marshal] writes them, with HTML
    escaping on: a quote and a backslash are escaped, the control
    characters with a short escape use it (backspace and form feed since
    Go 1.22), the others and [<], [>], [&] a [\u] escape; invalid UTF-8
    is written as [\ufffd], and U+2028 and U+2029 are escaped. *)
Fixpoint quote_body (fuel : nat) (l : list byte) : list byte :=
  match fuel with
  | O => []
  | S fuel' =>
      match l with
      | [] => []
      | b :: rest =>
          let z := Bytes.to_Z b in
          if (z <? 128)%Z then
            match b with
            | x22 | x5c => x5c :: b :: quote_body fuel' rest
            | x08 => x5c :: "b"%byte :: quote_body fuel' rest
            | x0c => x5c :: "f"%byte :: quote_body fuel' rest
            | x0a => x5c :: "n"%byte :: quote_body fuel' rest
            | x0d => x5c :: "r"%byte :: quote_body fuel' rest
            | x09 => x5c :: "t"%byte :: quote_body fuel' rest
            | _ =>
                if (z <? 32)%Z || Bytes.eqb b "<"%byte || Bytes.eqb b ">"%byte
                   || Bytes.eqb b "&"%byte
                then x5c :: "u"%byte :: hex4 z ++ quote_body fuel' rest
                else b :: quote_body fuel' rest
            end
          else
            let '(r, size) := UTF8.DecodeRune l in
            if (r =? UTF8.RuneError)%Z && Nat.eqb size 1
            then x5c :: "u"%byte :: hex4 UTF8.RuneError ++ quote_body fuel' rest
            else if (r =? 8232)%Z || (r =? 8233)%Z
            then x5c :: "u"%byte :: hex4 r ++ quote_body fuel' (skipn size l)
            else firstn size l ++ quote_body fuel' (skipn size l)
      end
  end.

Definition quote (l : list byte) : list byte :=
  x22 :: quote_body (length l) l ++ [x22].

(** [json.Marshal(v)]. *)
Fixpoint Marshal (v : GoValue) : list byte * option error :=
  match v with
  | VUint16 n => (Decimal.Itoa n, None)
  | VString s => (quote (Bytes.of_string s), None)
  | VText t => (quote t, None)
  | VMap1 k v' =>
      match Marshal v' with
      | (body, None) => ("{"%byte :: quote (Bytes.of_string k) ++ ":"%byte :: body ++ ["}"%byte], None)
      | (_, Some e) => ([], Some e)
      end
  end.

End JSON.

(* ================================================================== *)
(** * UUIDs: the model of [github.com/google/uuid] *)
(* ================================================================== *)

Module uuid.

(** The sixteen bytes of the canonical form
    [xxxxxxxx-xxxx-xxxx-xxxx-xxxxxxxxxxxx], read at the offsets
    0, 2, 4, 6, 9, 11, 14, 16, 19, 21, 24, 26, 28, 30, 32, 34. *)
Definition offsets : list nat := [0; 2; 4; 6; 9; 11; 14; 16; 19; 21; 24; 26; 28; 30; 32; 34].

Fixpoint bytes_at (s : list byte) (xs : list nat) : option (list byte) :=
  match xs with
  | [] => Some []
  | x :: xs' =>
      match s !! x, s !! (S x) with
      | Some a, Some b =>
          match Hex.xtob a b, bytes_at s xs' with
          | Some v, Some vs => Some (v :: vs)
          | _, _ => None
          end
      | _, _ => None
      end
  end.

Definition canonical (s : list byte) : option UUID :=
  if match s !! 8, s !! 13, s !! 18, s !! 23 with
     | Some a, Some b, Some c, Some d =>
         Bytes.eqb a "-"%byte && Bytes.eqb b "-"%byte && Bytes.eqb c "-"%byte
         && Bytes.eqb d "-"%byte
     | _, _, _, _ => false
     end
  then bytes_at s offsets
  else None.

Definition lower (b : byte) : byte :=
  let z := Bytes.to_Z b in
  if (65 <=? z)%Z && (z <=? 90)%Z then Bytes.of_Z (z + 32) else b.

Definition parsed (o : option UUID) : UUID * option error :=
  match o with
  | Some id => (id, None)
  | None => (uuid_Nil, Some UuidInvalid)
  end.

(** [uuid.Parse(s)]: the canonical form, the same with the prefix
    [urn:uuid:] or within one character on each side, or 32 digits. *)
Definition Parse (str : string) : UUID * option error :=
  let s := Bytes.of_string str in
  let n := length s in
  if Nat.eqb n 36 then parsed (canonical s)
  else if Nat.eqb n 45 then
    if Bytes.list_eqb (List.map lower (firstn 9 s)) (Bytes.of_string "urn:uuid:")
    then parsed (canonical (skipn 9 s))
    else (uuid_Nil, Some UuidInvalid)
  else if Nat.eqb n 38 then parsed (canonical (skipn 1 s))
  else if Nat.eqb n 32 then parsed (bytes_at s (List.map (fun i => 2 * i) (seq 0 16)))
  else (uuid_Nil, Some UuidInvalid).

(** [id.String()], which is also [id.MarshalText()]. *)
Definition String (id : UUID) : list byte :=
  Hex.encode (firstn 4 id) ++ "-"%byte :: Hex.encode (firstn 2 (skipn 4 id))
  ++ "-"%byte :: Hex.encode (firstn 2 (skipn 6 id))
  ++ "-"%byte :: Hex.encode (firstn 2 (skipn 8 id))
  ++ "-"%byte :: Hex.encode (skipn 10 id).

End uuid.

(* ================================================================== *)
(** * SHA-256 and HMAC: the model of [crypto/sha256] and [crypto/hmac] *)
(* ================================================================== *)

Module SHA256.

Local Open Scope Z_scope.

(** Words are 32-bit: every result is taken modulo [2^32]. *)
Definition mask : Z := 4294967295.
Definition wrap (x : Z) : Z := Z.land x mask.
Definition add (x y : Z) : Z := wrap (x + y).
Definition rotr (n x : Z) : Z := Z.lor (Z.shiftr x n) (wrap (Z.shiftl x (32 - n))).
Definition shr (n x : Z) : Z := Z.shiftr x n.
Definition not32 (x : Z) : Z := Z.lxor x mask.

Definition Ch (x y z : Z) : Z := Z.lxor (Z.land x y) (Z.land (not32 x) z).
Definition Maj (x y z : Z) : Z := Z.lxor (Z.lxor (Z.land x y) (Z.land x z)) (Z.land y z).
Definition Sigma0 (x : Z) : Z := Z.lxor (Z.lxor (rotr 2 x) (rotr 13 x)) (rotr 22 x).
Definition Sigma1 (x : Z) : Z := Z.lxor (Z.lxor (rotr 6 x) (rotr 11 x)) (rotr 25 x).
Definition sigma0 (x : Z) : Z := Z.lxor (Z.lxor (rotr 7 x) (rotr 18 x)) (shr 3 x).
Definition sigma1 (x : Z) : Z := Z.lxor (Z.lxor (rotr 17 x) (rotr 19 x)) (shr 10 x).

(** The round constants and the initial hash value. *)
Definition K : list Z :=
  [
   1116352408; 1899447441; 3049323471; 3921009573; 961987163; 1508970993; 2453635748; 2870763221;
   3624381080; 310598401; 607225278; 1426881987; 1925078388; 2162078206; 2614888103; 3248222580;
   3835390401; 4022224774; 264347078; 604807628; 770255983; 1249150122; 1555081692; 1996064986;
   2554220882; 2821834349; 2952996808; 3210313671; 3336571891; 3584528711; 113926993; 338241895;
   666307205; 773529912; 1294757372; 1396182291; 1695183700; 1986661051; 2177026350; 2456956037;
   2730485921; 2820302411; 3259730800; 3345764771; 3516065817; 3600352804; 4094571909; 275423344;
   430227734; 506948616; 659060556; 883997877; 958139571; 1322822218; 1537002063; 1747873779;
   1955562222; 2024104815; 2227730452; 2361852424; 2428436474; 2756734187; 3204031479; 3329325298
  ].

Definition H0 : list Z :=
  [
   1779033703; 3144134277; 1013904242; 2773480762; 1359893119; 2600822924; 528734635; 1541459225
  ].

(** The size of a block and of a digest, in bytes. *)
Definition BlockSize : nat := 64.
Definition Size : nat := 32.

(** Big-endian words. *)
Definition be32 (x : Z) : list byte :=
  [Bytes.of_Z (Z.shiftr x 24); Bytes.of_Z (Z.shiftr x 16); Bytes.of_Z (Z.shiftr x 8);
   Bytes.of_Z x].

Fixpoint words (l : list byte) : list Z :=
  match l with
  | a :: b :: c :: d :: rest =>
      (Z.shiftl (Bytes.to_Z a) 24 + Z.shiftl (Bytes.to_Z b) 16
       + Z.shiftl (Bytes.to_Z c) 8 + Bytes.to_Z d) :: words rest
  | _ => []
  end.

(** The message schedule: the sixteen words of the block and 48 more. *)
Fixpoint schedule (more : nat) (w : list Z) : list Z :=
  match more with
  | O => w
  | S more' =>
      let t := length w in
      let at_ (i : nat) := nth (t - i)%nat w 0 in
      schedule more' (w ++ [add (add (sigma1 (at_ 2%nat)) (at_ 7%nat))
                               (add (sigma0 (at_ 15%nat)) (at_ 16%nat))])
  end.

Definition state : Type := Z * Z * Z * Z * Z * Z * Z * Z.

Definition round (s : state) (kw : Z * Z) : state :=
  let '(a, b, c, d, e, f, g, h) := s in
  let '(k, w) := kw in
  let t1 := add (add (add h (Sigma1 e)) (add (Ch e f g) k)) w in
  let t2 := add (Sigma0 a) (Maj a b c) in
  (add t1 t2, a, b, c, add d t1, e, f, g).

Definition of_list (l : list Z) : state :=
  match l with
  | [a; b; c; d; e; f; g; h] => (a, b, c, d, e, f, g, h)
  | _ => (0, 0, 0, 0, 0, 0, 0, 0)
  end.

Definition to_list (s : state) : list Z :=
  let '(a, b, c, d, e, f, g, h) := s in [a; b; c; d; e; f; g; h].

(** One block: 64 rounds, then the sum with the chaining value. *)
Definition compress (h : list Z) (block : list byte) : list Z :=
  let w := schedule 48 (words block) in
  let s := fold_left round (combine K w) (of_list h) in
  List.map (fun p => add (fst p) (snd p)) (combine h (to_list s)).

(** The message followed by a one bit, zeros up to 56 modulo 64, and its
    length in bits as a 64-bit big-endian number. *)
Definition pad (msg : list byte) : list byte :=
  let n := Z.of_nat (length msg) in
  msg ++ [x80] ++ repeat x00 (Z.to_nat ((55 - n) mod 64))
      ++ be32 (Z.shiftr (8 * n) 32) ++ be32 (8 * n).

Fixpoint blocks (fuel : nat) (l : list byte) : list (list byte) :=
  match fuel with
  | O => []
  | S fuel' =>
      match l with
      | [] => []
      | _ => firstn 64 l :: blocks fuel' (skipn 64 l)
      end
  end.

(** [sha256.Sum256(data)]. *)
Definition Sum256 (data : list byte) : list byte :=
  let p := pad data in
  concat (List.map be32 (fold_left compress (blocks (length p) p) H0)).

(** The [hash.Hash] of [sha256.New()], by the bytes written to it: [Sum]
    appends the hash of all of them and leaves the state as it is. *)
Record digest := mkDigest {
  written : list byte
}.

Definition New : digest := mkDigest [].
Definition Write (p : list byte) (d : digest) : digest := mkDigest (written d ++ p).
Definition Sum (b : list byte) (d : digest) : list byte := b ++ Sum256 (written d).
Definition Reset (d : digest) : digest := mkDigest [].

End SHA256.

Module HMAC.

(** The [hmac] struct of [crypto/hmac], over SHA-256. *)
Record hmac := mkHmac {
  opad : list byte;
  ipad : list byte;
  outer : SHA256.digest;
  inner : SHA256.digest
}.

Definition xor_byte (x : Z) (b : byte) : byte := Bytes.of_Z (Z.lxor (Bytes.to_Z b) x).

(** [copy(pad, key)] into [make([]byte, blocksize)]. *)
Definition copy_key (key : list byte) : list byte :=
  firstn SHA256.BlockSize key ++ repeat x00 (SHA256.BlockSize - length key).

(** [hmac.New(sha256.New, key)]: a key longer than a block is hashed; both
    pads are the key filled up with zeros, xored with 0x36 and 0x5c; the
    inner hash starts with the inner pad. *)
Definition New (key : list byte) : hmac :=
  let outer0 := SHA256.New in
  let inner0 := SHA256.New in
  let '(outer1, key1) :=
    if SHA256.BlockSize <? length key
    then let o := SHA256.Write key outer0 in (o, SHA256.Sum [] o)
    else (outer0, key) in
  let ipad := List.map (xor_byte 54) (copy_key key1) in
  let opad := List.map (xor_byte 92) (copy_key key1) in
  mkHmac opad ipad outer1 (SHA256.Write ipad inner0).

(** [h.Write(p)]. *)
Definition Write (p : list byte) (h : hmac) : hmac :=
  mkHmac (opad h) (ipad h) (outer h) (SHA256.Write p (inner h)).

(** [h.Sum(in)]: the outer hash is reset, fed the outer pad and the inner
    sum, and its sum is appended to [in]. *)
Definition Sum (b : list byte) (h : hmac) : list byte * hmac :=
  let origLen := length b in
  let b1 := SHA256.Sum b (inner h) in
  let o := SHA256.Write (skipn origLen b1) (SHA256.Write (opad h) (SHA256.Reset (outer h))) in
  (SHA256.Sum (firstn origLen b1) o, mkHmac (opad h) (ipad h) o (inner h)).

End HMAC.

(* ================================================================== *)
(** * protocol.go *)
(* ================================================================== *)

(** [NewDelimited(conn)]: a new framed connection with empty buffers. *)
Definition NewDelimited (conn : nat) : M nat :=
  fun w =>
    (length (delims w),
     with_delims (delims w ++ [mkDelimited conn (mkReader [] None) (mkWriter [] None)]) w).

(** The calls [d.conn.SetWriteDeadline], [d.conn.SetReadDeadline],
    [d.w.Write], [d.w.WriteByte], [d.w.Flush], [d.r.ReadBytes],
    [d.r.Peek], [d.r.Discard] and [d.conn.Close] on the framed
    connection [d]. *)
Definition d_SetWriteDeadline (d : nat) (arm : bool) : M (option error) :=
  on_delim d (Some NetClosed)
    (fun D c => let '(e, c') := conn_SetWriteDeadline arm c in (e, D, c')).
Definition d_SetReadDeadline (d : nat) (arm : bool) : M (option error) :=
  on_delim d (Some NetClosed)
    (fun D c => let '(e, c') := conn_SetReadDeadline arm c in (e, D, c')).
Definition d_Write (d : nat) (p : list byte) : M (nat * option error) :=
  on_delim d (0, Some NetClosed) (on_writer (Writer_Write p)).
Definition d_WriteByte (d : nat) (x : byte) : M (option error) :=
  on_delim d (Some NetClosed) (on_writer (Writer_WriteByte x)).
Definition d_Flush (d : nat) : M (option error) :=
  on_delim d (Some NetClosed) (on_writer Writer_Flush).
Definition d_ReadBytes (d : nat) (delim : byte) : M (list byte * option error) :=
  on_delim d ([], Some NetClosed) (on_reader (Reader_ReadBytes delim)).
Definition d_Buffered (d : nat) : M nat :=
  on_delim d 0 (fun D c => (Reader_Buffered (d_r D), D, c)).
Definition d_Peek (d : nat) (n : nat) : M (list byte * option error) :=
  on_delim d ([], Some NetClosed) (on_reader (Reader_Peek n)).
Definition d_Discard (d : nat) (n : nat) : M (nat * option error) :=
  on_delim d (0, Some NetClosed) (on_reader (Reader_Discard n)).
Definition d_Close (d : nat) : M (option error) :=
  on_delim d (Some NetClosed)
    (fun D c => let '(e, c') := conn_Close c in (e, D, c')).

(** [d.SendJSON(v)]. *)
Definition SendJSON (d : nat) (v : JSON.GoValue) : M (option error) :=
  let '(payload, err) := JSON.Marshal v in
  match err with
  | Some e => mret (Some e)
  | None =>
      if MaxFrameLength <? length payload then
        mret (Some (FrameTooLarge (length payload)))
      else
        err ← d_SetWriteDeadline d true;
        match err with
        | Some e => mret (Some e)
        | None =>
            '(_, err) ← d_Write d payload;
            match err with
            | Some e => mret (Some e)
            | None =>
                err ← d_WriteByte d x00;
                match err with
                | Some e => mret (Some e)
                | None => d_Flush d
                end
            end
        end
  end.

(** [d.RecvFrame(timeout)]: the frame, whether there is one, and the
    error. *)
Definition RecvFrame (d : nat) (timeout : bool) : M (list byte * bool * option error) :=
  err ← d_SetReadDeadline d timeout;
  match err with
  | Some e => mret ([], false, Some e)
  | None =>
      '(frame, err) ← d_ReadBytes d x00;
      match err with
      | Some e =>
          if Is_EOF e then mret ([], false, None)
          else if is_net_timeout e then mret ([], false, Some (TimedOut e))
          else mret ([], false, Some e)
      | None =>
          if Nat.eqb (length frame) 0 then mret ([], false, Some EmptyFrame)
          else
            let frame := Bytes.trim_zero frame in
            if MaxFrameLength <? length frame then
              mret ([], false, Some (FrameTooLarge (length frame)))
            else mret (frame, true, None)
      end
  end.

(** [d.BufferedData()]. *)
Definition BufferedData (d : nat) : M (list byte * option error) :=
  buffered ← d_Buffered d;
  if Nat.eqb buffered 0 then mret ([], None)
  else
    '(peeked, err) ← d_Peek d buffered;
    match err with
    | Some e => mret ([], Some e)
    | None =>
        '(_, err) ← d_Discard d buffered;
        match err with
        | Some e => mret ([], Some e)
        | None => mret (peeked, None)
        end
    end.

(** [d.Close()]. *)
Definition Delimited_Close (d : nat) : M (option error) := d_Close d.

(** [d.RawConn()]; a framed connection that does not exist has no socket,
    which the descriptor past the table stands for. *)
Definition RawConn (d : nat) : M nat :=
  fun w =>
    (match delims w !! d with
     | Some D => d_conn D
     | None => length (socks w)
     end, w).

(** [decodeServerMessage(data)]. *)
Definition decodeServerMessage (data : list byte) : ServerMessage * option error :=
  let '(unit, err) := JSON.Unmarshal_string data EmptyString in
  match err with
  | None =>
      if String.eqb unit "Heartbeat"
      then (mkServerMessage ServerHeartbeat 0 uuid_Nil EmptyString, None)
      else (ServerMessage_zero, Some (UnexpectedUnit unit))
  | Some _ =>
      let '(obj, err) := JSON.Unmarshal_map data in
      match err with
      | Some e => (ServerMessage_zero, Some (InvalidServerMessage e))
      | None =>
          if negb (Nat.eqb (size obj) 1) then
            (ServerMessage_zero, Some (ExpectedSingleField (size obj)))
          else
            match map_to_list obj with
            | (k, v) :: _ =>
                if String.eqb k "Hello" then
                  let '(port, err) := JSON.decode_uint16 v 0 in
                  match err with
                  | Some e => (ServerMessage_zero, Some (InvalidHello e))
                  | None => (mkServerMessage ServerHello port uuid_Nil EmptyString, None)
                  end
                else if String.eqb k "Challenge" then
                  let '(raw, err) := JSON.decode_string v EmptyString in
                  match err with
                  | Some e => (ServerMessage_zero, Some (InvalidChallenge e))
                  | None =>
                      let '(id, err) := uuid.Parse raw in
                      match err with
                      | Some e => (ServerMessage_zero, Some (InvalidChallengeUUID e))
                      | None => (mkServerMessage ServerChallenge 0 id EmptyString, None)
                      end
                  end
                else if String.eqb k "Connection" then
                  let '(raw, err) := JSON.decode_string v EmptyString in
                  match err with
                  | Some e => (ServerMessage_zero, Some (InvalidConnection e))
                  | None =>
                      let '(id, err) := uuid.Parse raw in
                      match err with
                      | Some e => (ServerMessage_zero, Some (InvalidConnectionUUID e))
                      | None => (mkServerMessage ServerConnection 0 id EmptyString, None)
                      end
                  end
                else if String.eqb k "Error" then
                  let '(msg, err) := JSON.decode_string v EmptyString in
                  match err with
                  | Some e => (ServerMessage_zero, Some (InvalidErrorMessage e))
                  | None => (mkServerMessage ServerError 0 uuid_Nil msg, None)
                  end
                else (ServerMessage_zero, Some (UnknownKind k))
            | [] => (ServerMessage_zero, Some Unreachable)
            end
      end
  end.

(** [encodeHello], [encodeAuthenticate] and [encodeAccept]. *)
Definition encodeHello (port : Z) : JSON.GoValue :=
  JSON.VMap1 "Hello" (JSON.VUint16 port).

Definition encodeAuthenticate (tag : string) : JSON.GoValue :=
  JSON.VMap1 "Authenticate" (JSON.VString tag).

Definition encodeAccept (id : UUID) : JSON.GoValue :=
  JSON.VMap1 "Accept" (JSON.VText (uuid.String id)).

(** [d.RecvServer(timeout)]. *)
Definition RecvServer (d : nat) (timeout : bool) : M (ServerMessage * bool * option error) :=
  '(frame, ok, err) ← RecvFrame d timeout;
  if not_nil err || negb ok then mret (ServerMessage_zero, ok, err)
  else
    let '(msg, err) := decodeServerMessage frame in
    mret (msg, ok, err).

(* ================================================================== *)
(** * The authenticator *)
(* ================================================================== *)

(** [NewAuthenticator(secret)]. *)
Definition NewAuthenticator (secret : string) : Authenticator :=
  let hashed := SHA256.Sum256 (Bytes.of_string secret) in
  mkAuthenticator hashed.

(** [a.Answer(challenge)]. *)
Definition Answer (a : Authenticator) (challenge : UUID) : string :=
  let mac := HMAC.New (key a) in
  let mac := HMAC.Write challenge mac in
  Hex.EncodeToString (fst (HMAC.Sum [] mac)).

(** [a.ClientHandshake(conn)]. *)
Definition ClientHandshake (a : Authenticator) (conn : nat) : M (option error) :=
  '(msg, ok, err) ← RecvServer conn true;
  match err with
  | Some e => mret (Some e)
  | None =>
      if negb ok then mret (Some ErrUnexpectedEOF)
      else
        match Kind msg with
        | ServerChallenge =>
            let tag := Answer a (ID msg) in
            SendJSON conn (encodeAuthenticate tag)
        | _ => mret (Some ErrUnexpectedHandshake)
        end
  end.

(* ================================================================== *)
(** * proxy.go *)
(* ================================================================== *)

(** A goroutine running [io.Copy(dst, src)]: about to read, holding a
    chunk to write together with the error its read returned, or
    finished with the error of the copy. *)
Inductive CopyState :=
  | Reading
  | Writing (chunk : list byte) (er : option error)
  | Finished (err : option error).

(** The size of the buffer of [io.Copy]. *)
Definition copyBufSize : nat := 8 * bufSize.

(** How a copy goes on after a read that returned the error [er]:
    [io.EOF] ends it without error, another error ends it with that
    error. *)
Definition after_read (er : option error) : CopyState :=
  match er with
  | None => Reading
  | Some EOF => Finished None
  | Some e => Finished (Some e)
  end.

(** One step of [io.Copy(dst, src)]: a read, or the write of the chunk
    read before. *)
Definition copy_step (dst src : nat) (st : CopyState) : M CopyState :=
  match st with
  | Reading =>
      '(chunk, er) ← net_Read src copyBufSize;
      match chunk with
      | [] => mret (after_read er)
      | _ => mret (Writing chunk er)
      end
  | Writing chunk er =>
      '(nw, ew) ← net_Write dst chunk;
      match ew with
      | Some e => mret (Finished (Some e))
      | None =>
          if negb (Nat.eqb nw (length chunk)) then mret (Finished (Some ErrShortWrite))
          else mret (after_read er)
      end
  | Finished e => mret (Finished e)
  end.

(** Where the caller of the two goroutines stands in [proxy]. *)
Inductive CallerState :=
  | AwaitFirst                          (* err1 := <-errCh *)
  | CloseA (err1 : option error)        (* _ = a.Close() *)
  | CloseB (err1 : option error)        (* _ = b.Close() *)
  | AwaitSecond (err1 : option error)   (* err2 := <-errCh *)
  | Returned (err : option error).

Record ProxyState := mkProxyState {
  copyAB : CopyState;               (* io.Copy(a, b) *)
  sentAB : bool;                    (* its result was sent to errCh *)
  copyBA : CopyState;               (* io.Copy(b, a) *)
  sentBA : bool;
  errCh : list (option error);      (* the channel, of capacity 2 *)
  caller : CallerState
}.

(** The value [proxy] returns for the two results. *)
Definition proxy_result (err1 err2 : option error) : option error :=
  match err1 with
  | Some EOF | None =>
      match err2 with
      | Some EOF | None => None
      | Some e2 => Some e2
      end
  | Some e1 => Some e1
  end.

(** One step of the goroutine [t].  A copy that has finished sends its
    result; the caller moves on when the channel has a value for it. *)
Definition proxy_step (a b : nat) (t : Thread) (st : ProxyState) : M ProxyState :=
  match t with
  | CopyAB =>
      match copyAB st with
      | Finished e =>
          if sentAB st then mret st
          else mret (mkProxyState (copyAB st) true (copyBA st) (sentBA st)
                       (errCh st ++ [e]) (caller st))
      | cs =>
          cs' ← copy_step a b cs;
          mret (mkProxyState cs' (sentAB st) (copyBA st) (sentBA st) (errCh st) (caller st))
      end
  | CopyBA =>
      match copyBA st with
      | Finished e =>
          if sentBA st then mret st
          else mret (mkProxyState (copyAB st) (sentAB st) (copyBA st) true
                       (errCh st ++ [e]) (caller st))
      | cs =>
          cs' ← copy_step b a cs;
          mret (mkProxyState (copyAB st) (sentAB st) cs' (sentBA st) (errCh st) (caller st))
      end
  | Caller =>
      match caller st with
      | AwaitFirst =>
          match errCh st with
          | err1 :: ch =>
              mret (mkProxyState (copyAB st) (sentAB st) (copyBA st) (sentBA st) ch
                      (CloseA err1))
          | [] => mret st
          end
      | CloseA err1 =>
          net_Close a;;
          mret (mkProxyState (copyAB st) (sentAB st) (copyBA st) (sentBA st) (errCh st)
                  (CloseB err1))
      | CloseB err1 =>
          net_Close b;;
          mret (mkProxyState (copyAB st) (sentAB st) (copyBA st) (sentBA st) (errCh st)
                  (AwaitSecond err1))
      | AwaitSecond err1 =>
          match errCh st with
          | err2 :: ch =>
              mret (mkProxyState (copyAB st) (sentAB st) (copyBA st) (sentBA st) ch
                      (Returned (proxy_result err1 err2)))
          | [] => mret st
          end
      | Returned e => mret st
      end
  end.

(** The goroutines run as the schedule says until the caller returns or
    the schedule ends; what is left of the schedule is given back. *)
Fixpoint proxy_run (a b : nat) (sched : list Thread) (st : ProxyState)
  : M (ProxyState * list Thread) :=
  match caller st with
  | Returned _ => mret (st, sched)
  | _ =>
      match sched with
      | [] => mret (st, [])
      | t :: sched' =>
          st' ← proxy_step a b t st;
          proxy_run a b sched' st'
      end
  end.

(** [proxy(a, b)]: [Some err] when it returns [err], [None] when it is
    still running at the end of the schedule. *)
Definition proxy (a b : nat) : M (option (option error)) :=
  w ← get;
  '(st, sched') ← proxy_run a b (schedule w)
                    (mkProxyState Reading false Reading false [] AwaitFirst);
  modify (with_schedule sched');;
  match caller st with
  | Returned e => mret (Some e)
  | _ => mret None
  end.

(* ================================================================== *)
(** * The client *)
(* ================================================================== *)

(** [net.JoinHostPort(host, port)]: a host with a colon is put in
    brackets. *)
Definition JoinHostPort (host port : string) : string :=
  if existsb (Bytes.eqb ":"%byte) (Bytes.of_string host)
  then String.append "[" (String.append host (String.append "]:" port))
  else String.append host (String.append ":" port).

(** [net.DialTimeout("tcp", addr, NetworkTimeout)]: the next outcome the
    network has for the address; none is a refused connection.  A new
    socket gets the next free descriptor. *)
Definition DialTimeout (addr : string) : M (nat * option error) :=
  fun w =>
    match network w !! addr with
    | Some (DialConnects peer budget :: rest) =>
        (length (socks w), None,
         with_network (<[addr := rest]> (network w))
           (with_socks (socks w ++ [mkConn peer [] budget NoDeadline NoDeadline 0]) w))
    | Some (DialFails e :: rest) =>
        (length (socks w), Some e, with_network (<[addr := rest]> (network w)) w)
    | _ => (length (socks w), Some NetRefused, w)
    end.

(** [connectWithTimeout(host, port)].  With an error the descriptor
    returned stands for Go's [nil] and is not used. *)
Definition connectWithTimeout (host : string) (port : Z) : M (nat * option error) :=
  let addr := JoinHostPort host (Bytes.to_string (Decimal.Itoa port)) in
  '(conn, err) ← DialTimeout addr;
  match err with
  | Some e => mret (conn, Some (DialError addr e))
  | None => mret (conn, None)
  end.

(** The atomics of a client and its [sync.Once]. *)
Definition set_connected (b : bool) (c : Client) : Client :=
  mkClient (c_conn c) (c_to c) (c_localHost c) (c_localPort c) (c_remotePort c) (c_auth c)
           b (activeProxies c) (lastHeartbeat c) (closeOnce c).
Definition add_activeProxies (n : Z) (c : Client) : Client :=
  mkClient (c_conn c) (c_to c) (c_localHost c) (c_localPort c) (c_remotePort c) (c_auth c)
           (connected c) (activeProxies c + n) (lastHeartbeat c) (closeOnce c).
Definition set_lastHeartbeat (t : Z) (c : Client) : Client :=
  mkClient (c_conn c) (c_to c) (c_localHost c) (c_localPort c) (c_remotePort c) (c_auth c)
           (connected c) (activeProxies c) t (closeOnce c).
Definition set_closeOnce (c : Client) : Client :=
  mkClient (c_conn c) (c_to c) (c_localHost c) (c_localPort c) (c_remotePort c) (c_auth c)
           (connected c) (activeProxies c) (lastHeartbeat c) true.

(** A store to a field of the client [c]. *)
Definition update_client (c : nat) (f : Client -> Client) : M unit :=
  modify (fun w =>
            match clients w !! c with
            | Some C => with_clients (<[c := f C]> (clients w)) w
            | None => w
            end).

(** A load from the client [c]; [bad] stands for the fields of a client
    that does not exist. *)
Definition read_client {A} (c : nat) (bad : A) (f : Client -> A) : M A :=
  fun w =>
    (match clients w !! c with
     | Some C => f C
     | None => bad
     end, w).

(** The framed connection a [*Delimited] points to.  [nil] is a pointer to
    no framed connection, whose operations report a closed connection
    where the source would panic. *)
Definition deref (p : option nat) : M nat :=
  fun w => (default (length (delims w)) p, w).

Definition log_Printf (l : LogEntry) : M unit :=
  modify (fun w => with_logs (logs w ++ [l]) w).

Definition go (t : Task) : M unit :=
  modify (fun w => with_goroutines (goroutines w ++ [t]) w).

Definition time_Now : M Z := fun w => (now w, w).

(** [NewClient(localHost, localPort, to, desiredPort, secret)]: the new
    client, or [None] for Go's [nil], and the error. *)
Definition NewClient (localHost : string) (localPort : Z) (to : string)
  (desiredPort : Z) (secret : string) : M (option nat * option error) :=
  '(conn, err) ← connectWithTimeout to ControlPort;
  match err with
  | Some e => mret (None, Some e)
  | None =>
      framed ← NewDelimited conn;
      '(auth, err) ←
        (if negb (String.eqb secret EmptyString) then
           let auth := NewAuthenticator secret in
           err ← ClientHandshake auth framed;
           mret (Some auth, err)
         else mret (None, None));
      match err with
      | Some e => net_Close conn;; mret (None, Some e)
      | None =>
          err ← SendJSON framed (encodeHello desiredPort);
          match err with
          | Some e => net_Close conn;; mret (None, Some e)
          | None =>
              '(msg, ok, err) ← RecvServer framed true;
              match err with
              | Some e => net_Close conn;; mret (None, Some e)
              | None =>
                  if negb ok then net_Close conn;; mret (None, Some ErrUnexpectedEOF)
                  else
                    match Kind msg with
                    | ServerHello =>
                        log_Printf (LogConnected (Port msg));;
                        w ← get;
                        let client := length (clients w) in
                        modify (with_clients
                                  (clients w ++
                                     [mkClient (Some framed) to localHost localPort
                                        (Port msg) auth false 0 0 false]));;
                        update_client client (set_connected true);;
                        mret (Some client, None)
                    | ServerError =>
                        net_Close conn;;
                        mret (None, Some (ServerRejected (ErrorText msg)))
                    | ServerChallenge =>
                        net_Close conn;;
                        mret (None, Some AuthenticationRequired)
                    | k =>
                        net_Close conn;;
                        mret (None, Some (UnexpectedInitialMessage k))
                    end
              end
          end
      end
  end.

(** [c.RemotePort()], [c.Connected()], [c.ActiveProxies()] and
    [c.LastHeartbeat()]. *)
Definition RemotePort (c : nat) : M Z := read_client c 0%Z c_remotePort.
Definition Connected (c : nat) : M bool := read_client c false connected.
Definition ActiveProxies (c : nat) : M Z := read_client c 0%Z activeProxies.
Definition LastHeartbeat (c : nat) : M (Z * bool) :=
  ns ← read_client c 0%Z lastHeartbeat;
  if (ns =? 0)%Z then mret (0%Z, false) else mret (ns, true).

(** [c.Close()].  The function given to [closeOnce.Do] runs on the first
    call only; [sync.Once] lets no two calls overlap, so that a call is
    one step. *)
Definition Close (c : nat) : M (option error) :=
  fired ← read_client c true closeOnce;
  if (fired : bool) then mret None
  else
    update_client c set_closeOnce;;
    update_client c (set_connected false);;
    conn ← read_client c None c_conn;
    match conn with
    | Some d => Delimited_Close d
    | None => mret None
    end.

(** [context.WithCancel(ctx)]: a new context, done from the start when
    its parent is. *)
Definition WithCancel (ctx : option nat) : M nat :=
  fun w =>
    let parent_done :=
      match ctx with
      | Some p => default false (contexts w !! p)
      | None => false
      end in
    (length (contexts w), with_contexts (contexts w ++ [parent_done]) w).

(** The [cancel] function of a context. *)
Definition cancel (ctx : nat) : M unit :=
  modify (fun w => with_contexts (<[ctx := true]> (contexts w)) w).

(** What one pass through the loop of [Listen] does: go on, or return. *)
Inductive Flow :=
  | Continue
  | Return (err : option error).

(** The body of the [for] loop of [Listen]. *)
Definition Listen_body (c : nat) : M Flow :=
  conn ← read_client c None c_conn;
  d ← deref conn;
  '(msg, ok, err) ← RecvServer d false;
  match err with
  | Some e => mret (Return (Some e))
  | None =>
      if negb ok then mret (Return None)
      else
        match Kind msg with
        | ServerHeartbeat =>
            t ← time_Now;
            update_client c (set_lastHeartbeat t);;
            mret Continue
        | ServerConnection =>
            let id := ID msg in
            go (GoHandleConnection c id);;
            mret Continue
        | ServerHello | ServerChallenge =>
            log_Printf (LogUnexpectedControl (Kind msg));;
            mret Continue
        | ServerError => mret (Return (Some (ServerRejected (ErrorText msg))))
        | KindNone =>
            log_Printf (LogUnknownMessage msg);;
            mret Continue
        end
  end.

(** The loop, for at most [fuel] passes: [Some err] when it returned
    [err], [None] when it is still running. *)
Fixpoint Listen_loop (fuel : nat) (c : nat) : M (option (option error)) :=
  match fuel with
  | O => mret None
  | S fuel' =>
      flow ← Listen_body c;
      match flow with
      | Return err => mret (Some err)
      | Continue => Listen_loop fuel' c
      end
  end.

(** [c.Listen(ctx)], with the number of passes its loop may take.  The
    deferred calls run when the loop returns: first [connected] is set
    to false, then the context is cancelled. *)
Definition Listen (fuel : nat) (c : nat) (ctx : option nat) : M (option (option error)) :=
  ctx' ← WithCancel ctx;
  go (GoCloseWhenDone ctx' c);;
  update_client c (set_connected true);;
  r ← Listen_loop fuel c;
  match r with
  | Some err =>
      update_client c (set_connected false);;
      cancel ctx';;
      mret (Some err)
  | None => mret None
  end.

(** The first part of [c.handleConnection(id)], up to the call of
    [BufferedData]: the tunnel is opened and what its reader has buffered
    is taken out.  It gives the framed connection, the buffered bytes and
    the error. *)
Definition handleConnection_tunnel (c : nat) (id : UUID)
  : M (nat * list byte * option error) :=
  to ← read_client c EmptyString c_to;
  '(remoteConn, err) ← connectWithTimeout to ControlPort;
  match err with
  | Some e => mret (0, [], Some (ConnectProxy e))
  | None =>
      framed ← NewDelimited remoteConn;
      auth ← read_client c None c_auth;
      err ← match auth with
            | Some a => ClientHandshake a framed
            | None => mret None
            end;
      match err with
      | Some e => Delimited_Close framed;; mret (framed, [], Some e)
      | None =>
          err ← SendJSON framed (encodeAccept id);
          match err with
          | Some e => Delimited_Close framed;; mret (framed, [], Some e)
          | None =>
              net_SetDeadline remoteConn false;;
              '(buffered, err) ← BufferedData framed;
              match err with
              | Some e => Delimited_Close framed;; mret (framed, [], Some e)
              | None => mret (framed, buffered, None)
              end
          end
      end
  end.

(** The second part, from the dial of the local service on: the
    buffered bytes are written to it, then the two sockets are proxied.
    [None] says that [proxy] is still running. *)
Definition handleConnection_local (c : nat) (framed : nat) (buffered : list byte)
  : M (option (option error)) :=
  localHost ← read_client c EmptyString c_localHost;
  localPort ← read_client c 0%Z c_localPort;
  '(localConn, err) ← connectWithTimeout localHost localPort;
  match err with
  | Some e => Delimited_Close framed;; mret (Some (Some (ConnectLocal e)))
  | None =>
      err ← (if 0 <? length buffered then
               '(_, err) ← net_Write localConn buffered; mret err
             else mret None);
      match err with
      | Some e =>
          net_Close localConn;;
          Delimited_Close framed;;
          mret (Some (Some (WriteBuffered e)))
      | None =>
          raw ← RawConn framed;
          proxy localConn raw
      end
  end.

(** [c.handleConnection(id)]; the deferred decrement runs when it
    returns. *)
Definition handleConnection (c : nat) (id : UUID) : M (option (option error)) :=
  update_client c (add_activeProxies 1);;
  '(framed, buffered, err) ← handleConnection_tunnel c id;
  r ← match err with
      | Some e => mret (Some (Some e))
      | None => handleConnection_local c framed buffered
      end;
  match r with
  | Some err => update_client c (add_activeProxies (-1));; mret (Some err)
  | None => mret None
  end.

(** The goroutine [Listen] starts for a connection: a session that
    returned an error is logged. *)
Definition run_GoHandleConnection (c : nat) (id : UUID) : M unit :=
  r ← handleConnection c id;
  match r with
  | Some (Some e) => log_Printf (LogProxyEnded id e)
  | _ => mret tt
  end.

(** The goroutine [Listen] starts to watch its context: it waits until
    the context is done and then calls [c.Close()], whose error it
    drops.  [false] says that it is still waiting. *)
Definition run_GoCloseWhenDone (ctx c : nat) : M bool :=
  fun w =>
    match contexts w !! ctx with
    | Some true => let '(_, w') := Close c w in (true, w')
    | _ => (false, w)
    end.

(* ================================================================== *)
(** * Notions used to state the properties *)
(* ================================================================== *)

(** ** Streams and frames *)

(** The bytes of the segments among the events, in order, up to the
    point where the connection breaks: what arrives from the peer in
    all. *)
Fixpoint stream (evs : list event) : list byte :=
  match evs with
  | [] => []
  | Data b bs :: rest => b :: bs ++ stream rest
  | Stall :: rest => stream rest
  | Reset :: _ => []
  end.

Definition is_data (e : event) : bool :=
  match e with
  | Data _ _ => true
  | _ => false
  end.

(** Events that are segments only: the peer neither stalls nor breaks
    the connection. *)
Definition all_data (evs : list event) : Prop := Forall (fun e => is_data e = true) evs.

(** What a reader that holds the unterminated bytes [acc] gets from the
    events: the bytes up to and including the first delimiter, or the
    bytes that come before the end of the stream, an expired deadline or
    a broken connection, with that error.  It knows nothing of buffers;
    [Reader_ReadBytes] is shown to compute it. *)
Fixpoint next_frame (delim : byte) (dl : deadline) (acc : list byte) (evs : list event)
  : list byte * option error :=
  match evs with
  | [] => (acc, Some EOF)
  | Data b bs :: rest =>
      match Bytes.cut delim (b :: bs) with
      | Some (line, _) => (acc ++ line, None)
      | None => next_frame delim dl (acc ++ b :: bs) rest
      end
  | Stall :: rest =>
      match dl with
      | NoDeadline => next_frame delim dl acc rest
      | _ => (acc, Some NetTimeout)
      end
  | Reset :: _ => (acc, Some NetReset)
  end.

(** The result of one [ReadSlice] with respect to [next_frame]: the frame
    is complete, or it failed as the frame does, or the buffer was full
    and the rest of the frame is the frame of what remains. *)
Definition slice_ok (delim : byte) (r : Reader) (c : Conn)
  (res : (list byte * option error) * Reader * Conn) : Prop :=
  let '((frag, e), r', c') := res in
  match e with
  | None => next_frame delim (rdeadline c) (rbuf r) (incoming c) = (frag, None)
  | Some ErrBufferFull =>
      rbuf r' = [] /\ rerr r' = None /\ is_closed c' = false /\ rdeadline c' = rdeadline c /\
      Bytes.cut delim frag = None /\ 0 < length frag /\
      events_size (incoming c') + length frag <= events_size (incoming c) + length (rbuf r) /\
      next_frame delim (rdeadline c) (rbuf r) (incoming c)
        = next_frame delim (rdeadline c) frag (incoming c')
  | Some err =>
      next_frame delim (rdeadline c) (rbuf r) (incoming c) = (frag, Some err) /\ rbuf r' = []
  end.

(** What [RecvFrame] returns for the result of [ReadBytes]. *)
Definition frame_result (frame : list byte) (err : option error)
  : list byte * bool * option error :=
  match err with
  | Some e =>
      if Is_EOF e then ([], false, None)
      else if is_net_timeout e then ([], false, Some (TimedOut e))
      else ([], false, Some e)
  | None =>
      if Nat.eqb (length frame) 0 then ([], false, Some EmptyFrame)
      else if MaxFrameLength <? length (Bytes.trim_zero frame)
           then ([], false, Some (FrameTooLarge (length (Bytes.trim_zero frame))))
           else (Bytes.trim_zero frame, true, None)
  end.

(** ** Worlds *)

(** The framed connection [d] of the world is [D], over the socket [c]. *)
Definition framed_on (w : World) (d : nat) (D : Delimited) (c : Conn) : Prop :=
  delims w !! d = Some D /\ socks w !! d_conn D = Some c.

(** The world in which the framed connection [d] and its socket have
    become [D'] and [c']. *)
Definition put_framed (d : nat) (D' : Delimited) (c' : Conn) (w : World) : World :=
  with_delims (<[d := D']> (delims w)) (with_socks (<[d_conn D' := c']> (socks w)) w).

(** The second world differs from the first in the contents of sockets
    and framed connections at most. *)
Definition only_sockets (w w' : World) : Prop :=
  clients w' = clients w /\ network w' = network w /\ now w' = now w /\
  contexts w' = contexts w /\ goroutines w' = goroutines w /\
  schedule w' = schedule w /\ logs w' = logs w /\
  length (socks w') = length (socks w) /\ length (delims w') = length (delims w).

(** A computation that acts on sockets and framed connections only. *)
Definition frames {A} (m : M A) : Prop := forall w, only_sockets w (m w).2.

(** A call has left no socket of its own open: every socket that was
    created since the world [w] is closed in [w']. *)
Definition no_socket_left_open (w w' : World) : Prop :=
  forall fd s, length (socks w) <= fd -> socks w' !! fd = Some s -> is_closed s = true.

(** [n] calls of [c.Close()], one after the other, with their results. *)
Fixpoint Close_times (n : nat) (c : nat) : M (list (option error)) :=
  match n with
  | O => mret []
  | S n' =>
      err ← Close c;
      errs ← Close_times n' c;
      mret (err :: errs)
  end.

(** What [io.Copy(local, tunnel)] has done so far, for the buffered bytes
    [b] and the bytes [S0] the tunnel had to deliver when the relaying
    began: the local socket has received [b] and then bytes of the
    tunnel in their order; a chunk that was read is the next to be
    written. *)
Definition relay_inv (L T : nat) (b S0 : list byte) (st : CopyState) (w : World) : Prop :=
  exists sL sT relayed,
    socks w !! L = Some sL /\ socks w !! T = Some sT /\
    outgoing sL = b ++ relayed /\
    match st with
    | Reading => relayed ++ stream (incoming sT) = S0
    | Writing chunk _ => relayed ++ chunk ++ stream (incoming sT) = S0
    | Finished _ => relayed `prefix_of` S0
    end.

(** ** The codec and the authentication tag *)

(** The keys the codec knows. *)
Definition known_key (k : string) : bool :=
  String.eqb k "Hello" || String.eqb k "Challenge" || String.eqb k "Connection"
  || String.eqb k "Error".

(** The message of a heartbeat, [ServerMessage{Kind: ServerHeartbeat}]. *)
Definition heartbeat : ServerMessage := mkServerMessage ServerHeartbeat 0 uuid_Nil EmptyString.

(** The authentication tag in the words of the wire protocol, to be
    compared with [Answer]. *)
Module Spec.

(** The digits of lower-case hexadecimal. *)
Definition hex_digits : list byte := Bytes.of_string "0123456789abcdef".

(** The lower-case hex encoding of a byte string: for each byte the digit
    of its high half and the digit of its low half. *)
Definition lower_hex (bs : list byte) : string :=
  Bytes.to_string
    (flat_map (fun b => [nth (Z.to_nat (Bytes.to_Z b / 16)) hex_digits x00;
                         nth (Z.to_nat (Bytes.to_Z b mod 16)) hex_digits x00]) bs).

(** HMAC (RFC 2104) over SHA-256, whose block has 64 bytes: a key longer
    than a block is hashed, the key is filled up to a block with zeros,
    and the result is H((K xor opad) || H((K xor ipad) || text)) with the
    bytes 0x5c for opad and 0x36 for ipad. *)
Definition hmac_sha256 (k text : list byte) : list byte :=
  let k' := if 64 <? length k then SHA256.Sum256 k else k in
  let K := k' ++ repeat x00 (64 - length k') in
  let xor_with (x : Z) (l : list byte) :=
    List.map (fun b => Bytes.of_Z (Z.lxor (Bytes.to_Z b) x)) l in
  SHA256.Sum256 (xor_with 92%Z K ++ SHA256.Sum256 (xor_with 54%Z K ++ text)).

(** The authentication tag of the wire protocol: HMAC-SHA256 over the 16
    raw bytes of the challenge, keyed by SHA-256(secret), in lower-case
    hex. *)
Definition tag (secret : string) (challenge : UUID) : string :=
  lower_hex (hmac_sha256 (SHA256.Sum256 (Bytes.of_string secret)) challenge).

End Spec.

(** ** Worlds and texts of the examples *)

(** A JSON string literal of plain characters. *)
Definition quoted (s : string) : list byte := x22 :: Bytes.of_string s ++ [x22].

(** An object with one member. *)
Definition object1 (k : string) (v : list byte) : list byte :=
  "{"%byte :: quoted k ++ ":"%byte :: v ++ ["}"%byte].

(** A text with its terminator. *)
Definition frame (text : list byte) : list byte := text ++ [x00].

(** The segment that carries some bytes. *)
Definition segment (l : list byte) : list event :=
  match l with
  | b :: bs => [Data b bs]
  | [] => []
  end.

Definition challenge_frame : list byte :=
  frame (object1 "Challenge" (quoted "123e4567-e89b-12d3-a456-426614174000")).

Definition hello_frame : list byte :=
  frame (object1 "Hello" (Bytes.of_string "9000")).

(** A world with one framed connection over one socket: the reader has
    buffered some bytes and the peer sends the given events. *)
Definition one_socket (buffered : list byte) (evs : list event) : World :=
  mkWorld [mkConn evs [] None NoDeadline NoDeadline 0]
          [mkDelimited 0 (mkReader buffered None) (mkWriter [] None)]
          [] ∅ 0 [] [] [] [].

(** A world in which the relay [relay.example] accepts one connection on
    the control port and sends the given events. *)
Definition relay_world (evs : list event) : World :=
  mkWorld [] [] [] {[ "relay.example:7835"%string := [DialConnects evs None] ]}
          1000 [] [] [] [].

(** A world with the client 0 on the framed control connection 0, whose
    relay sends the given events. *)
Definition listen_world (evs : list event) : World :=
  mkWorld [mkConn evs [] None NoDeadline NoDeadline 0]
          [mkDelimited 0 (mkReader [] None) (mkWriter [] None)]
          [mkClient (Some 0) "relay.example" "localhost" 8000 9000 None true 0 0 false]
          ∅ 1000 [] [] [] [].

(** The id of the session of the examples. *)
Definition session_id : UUID := repeat x07 16.

(** A world for a session of the client 0, which has a secret: the relay
    answers a new connection with a challenge and, in the same segment,
    the first bytes of the tunnel; the local service accepts a
    connection. *)
Definition session_world : World :=
  mkWorld [] []
    [mkClient None "relay.example" "localhost" 8000 9000
              (Some (NewAuthenticator "s3cret")) true 0 0 false]
    {[ "relay.example:7835"%string :=
         [DialConnects (segment (challenge_frame ++ Bytes.of_string "GET /")
                        ++ segment (Bytes.of_string " HTTP/1.1")) None];
       "localhost:8000"%string :=
         [DialConnects (segment (Bytes.of_string "200 OK")) None] ]}
    1000 [] []
    [CopyAB; CopyBA; CopyAB; CopyAB; CopyBA; CopyAB; CopyAB; Caller; CopyBA; Caller;
     Caller; CopyBA; CopyBA; Caller]
    [].

(** ** Notions of the further properties *)

(** The second socket differs from the first in what the peer still
    sends and in the read deadline at most: nothing was written to it and
    it was not closed. *)
Definition reads_only (c c' : Conn) : Prop :=
  outgoing c' = outgoing c /\ wbudget c' = wbudget c /\ wdeadline c' = wdeadline c
  /\ closes c' = closes c.

(** [n] calls of [d.RecvFrame(timeout)], one after the other, with their
    results. *)
Fixpoint RecvFrame_times (n : nat) (d : nat) (timeout : bool)
  : M (list (list byte * bool * option error)) :=
  match n with
  | O => mret []
  | S n' =>
      r ← RecvFrame d timeout;
      rs ← RecvFrame_times n' d timeout;
      mret (r :: rs)
  end.

(** What [RecvFrame] returns for a frame with the payload [p]. *)
Definition received (p : list byte) : list byte * bool * option error :=
  if MaxFrameLength <? length p then ([], false, Some (FrameTooLarge (length p)))
  else (p, true, None).

(** An ASCII character that stands for itself in a JSON string, for the
    decoder and for the encoder: printable, and none of the quote, the
    backslash and the characters [<], [>], [&] that [json.Marshal]
    escapes. *)
Definition plain (b : byte) : bool :=
  (32 <=? Bytes.to_Z b)%Z && (Bytes.to_Z b <? 127)%Z
  && negb (Bytes.eqb b x22) && negb (Bytes.eqb b x5c)
  && negb (Bytes.eqb b "<"%byte) && negb (Bytes.eqb b ">"%byte)
  && negb (Bytes.eqb b "&"%byte).

(** An unsigned decimal literal as JSON writes it: digits, with no
    leading zero unless it is the digit zero alone. *)
Definition canonical_uint (ds : list byte) : bool :=
  match ds with
  | [] => false
  | h :: t => forallb Decimal.is_digit ds && (negb (Bytes.eqb h "0"%byte) || Nat.eqb (length t) 0)
  end.

(** The socket [fd] of the world has been closed. *)
Definition closed (fd : nat) (w : World) : Prop :=
  exists s, socks w !! fd = Some s /\ is_closed s = true.

(** The error a copy ended with, if it has ended. *)
Definition copy_result (st : CopyState) : list (option error) :=
  match st with
  | Finished e => [e]
  | _ => []
  end.

(** The results the copies of a proxy have sent to the channel. *)
Definition sent_results (st : ProxyState) : list (option error) :=
  (if sentAB st then copy_result (copyAB st) else [])
  ++ (if sentBA st then copy_result (copyBA st) else []).

(** The values the caller of a proxy has received from the channel. *)
Definition received_by (cs : CallerState) (got : list (option error)) : Prop :=
  match cs with
  | AwaitFirst => got = []
  | CloseA e1 | CloseB e1 | AwaitSecond e1 => got = [e1]
  | Returned e => exists e1 e2, got = [e1; e2] /\ e = proxy_result e1 e2
  end.

(** The bookkeeping of a proxy: a copy sends its result once, after it
    has finished, and what the caller has received and what is in the
    channel are the results sent; the caller closes the first socket
    before the second and both before it waits for the second result. *)
Definition proxy_inv (a b : nat) (st : ProxyState) (w : World) : Prop :=
  (sentAB st = true -> exists e, copyAB st = Finished e)
  /\ (sentBA st = true -> exists e, copyBA st = Finished e)
  /\ (exists got, received_by (caller st) got
                  /\ Permutation (got ++ errCh st) (sent_results st))
  /\ match caller st with
     | AwaitFirst | CloseA _ => True
     | CloseB _ => closed a w
     | AwaitSecond _ | Returned _ => closed a w /\ closed b w
     end.

(** The state in which [proxy] starts its goroutines. *)
Definition proxy_start : ProxyState :=
  mkProxyState Reading false Reading false [] AwaitFirst.

(** A computation that leaves the part [f] of the world as it is. *)
Definition keeps {A B} (f : World -> B) (m : M A) : Prop :=
  forall w, f (m w).2 = f w.

(** A computation that leaves every framed connection on its socket. *)
Definition keeps_conns {A} (m : M A) : Prop :=
  forall w d D, delims w !! d = Some D ->
    exists D', delims (m w).2 !! d = Some D' /\ d_conn D' = d_conn D.

(** The tunnel of a session: the socket [n] is the last one that was
    opened, and the framed connection [framed] is on it. *)
Definition tunnel_at (n framed : nat) (w : World) : Prop :=
  length (socks w) = S n /\ exists D, delims w !! framed = Some D /\ d_conn D = n.

(** What a pass of the loop of [Listen] leaves as it is: the contexts,
    the goroutines started before, the sockets in number, the socket of
    every framed connection, and of the client its control connection
    and its [sync.Once]. *)
Definition listens (c : nat) (w w' : World) : Prop :=
  contexts w' = contexts w
  /\ (forall t, In t (goroutines w) -> In t (goroutines w'))
  /\ length (socks w') = length (socks w)
  /\ (forall d D, delims w !! d = Some D ->
        exists D', delims w' !! d = Some D' /\ d_conn D' = d_conn D)
  /\ (forall C, clients w !! c = Some C ->
        exists C', clients w' !! c = Some C' /\ c_conn C' = c_conn C
                   /\ closeOnce C' = closeOnce C).

(** The sessions [Listen] starts for the messages of the relay: one for
    each [Connection], with its id, in the order of the messages. *)
Definition sessions (c : nat) (msgs : list ServerMessage) : list Task :=
  flat_map (fun m => match Kind m with
                     | ServerConnection => [GoHandleConnection c (ID m)]
                     | _ => []
                     end) msgs.

(** The state of a client that listens: its control connection is the
    framed connection [d], which is open and in order, and the relay
    sends [bytes] on it and then ends the stream. *)
Definition listening (c d : nat) (bytes : list byte) (w : World) : Prop :=
  (exists C, clients w !! c = Some C /\ c_conn C = Some d)
  /\ exists D s, framed_on w d D s /\ is_closed s = false /\ rerr (d_r D) = None
                 /\ all_data (incoming s) /\ rbuf (d_r D) ++ stream (incoming s) = bytes.

(** The framed connection [d] over the socket [s] is open and in order:
    nothing is held back in its writer, the peer takes what is written
    and has the bytes [bytes] for the reader, and the socket has got the
    bytes [out]. *)
Definition in_order (w : World) (d : nat) (D : Delimited) (s : Conn)
  (bytes out : list byte) : Prop :=
  framed_on w d D s /\ is_closed s = false /\ rerr (d_r D) = None
  /\ all_data (incoming s) /\ rbuf (d_r D) ++ stream (incoming s) = bytes
  /\ wbuf (d_w D) = [] /\ werr (d_w D) = None /\ wbudget s = None /\ outgoing s = out.

(** Whether a peer that accepts [budget] more bytes, or any number for
    [None], takes [n] bytes. *)
Definition takes (budget : option nat) (n : nat) : bool :=
  match budget with
  | Some k => n <=? k
  | None => true
  end.

(* ================================================================== *)
(** * Properties of the buffered reader *)
(* ================================================================== *)

Lemma Bytes_eqb_spec (a b : byte) : reflect (a = b) (Bytes.eqb a b).
Proof.
  unfold Bytes.eqb. destruct (Byte.eqb a b) eqn:E; constructor.
  - now apply Byte.byte_dec_bl.
  - now apply Byte.eqb_false.
Qed.

Lemma cut_app_None delim l1 l2 :
  Bytes.cut delim l1 = None ->
  Bytes.cut delim (l1 ++ l2) =
    match Bytes.cut delim l2 with
    | Some (line, post) => Some (l1 ++ line, post)
    | None => None
    end.
Proof.
  induction l1 as [|x l1 IH]; simpl; intros H.
  - destruct (Bytes.cut delim l2) as [[? ?]|]; reflexivity.
  - destruct (Bytes.eqb x delim); [discriminate|].
    destruct (Bytes.cut delim l1) as [[? ?]|]; [discriminate|].
    rewrite IH by reflexivity.
    destruct (Bytes.cut delim l2) as [[? ?]|]; reflexivity.
Qed.

Lemma cut_app_Some delim l1 l2 line post :
  Bytes.cut delim l1 = Some (line, post) ->
  Bytes.cut delim (l1 ++ l2) = Some (line, post ++ l2).
Proof.
  revert line post. induction l1 as [|x l1 IH]; simpl; intros line post H; [discriminate|].
  destruct (Bytes.eqb x delim).
  - inversion H; subst. reflexivity.
  - destruct (Bytes.cut delim l1) as [[ln pp]|] eqn:E; [|discriminate].
    inversion H; subst. rewrite (IH ln post eq_refl). reflexivity.
Qed.

Lemma cut_Some_split delim l line post :
  Bytes.cut delim l = Some (line, post) ->
  exists p, line = p ++ [delim] /\ l = line ++ post /\ Bytes.cut delim p = None.
Proof.
  revert line post. induction l as [|x l IH]; simpl; intros line post H; [discriminate|].
  destruct (Bytes_eqb_spec x delim) as [->|Hne].
  - inversion H; subst. exists []. auto.
  - destruct (Bytes.cut delim l) as [[ln p]|] eqn:E; [|discriminate].
    inversion H; subst. destruct (IH ln post eq_refl) as (p' & -> & -> & Hp).
    exists (x :: p'). simpl. repeat split; auto.
    destruct (Bytes_eqb_spec x delim); [contradiction|]. now rewrite Hp.
Qed.

Lemma cut_None_app delim l1 l2 :
  Bytes.cut delim (l1 ++ l2) = None -> Bytes.cut delim l1 = None /\ Bytes.cut delim l2 = None.
Proof.
  intros H. destruct (Bytes.cut delim l1) as [[ln p]|] eqn:E1.
  - rewrite (cut_app_Some _ _ _ _ _ E1) in H. discriminate.
  - rewrite cut_app_None in H by assumption.
    destruct (Bytes.cut delim l2) as [[? ?]|]; [discriminate|]. auto.
Qed.

Lemma next_frame_acc delim dl a acc evs :
  next_frame delim dl (a ++ acc) evs =
    let '(l, e) := next_frame delim dl acc evs in (a ++ l, e).
Proof.
  revert acc. induction evs as [|ev evs IH]; intros acc; simpl.
  - reflexivity.
  - destruct ev.
    + destruct (Bytes.eqb b delim).
      * now rewrite app_assoc.
      * destruct (Bytes.cut delim bs) as [[? ?]|].
        -- now rewrite app_assoc.
        -- rewrite <- app_assoc. apply IH.
    + destruct dl; auto.
    + reflexivity.
Qed.

Lemma next_frame_Data delim dl acc b bs rest :
  next_frame delim dl acc (Data b bs :: rest) =
    match Bytes.cut delim (b :: bs) with
    | Some (line, _) => (acc ++ line, None)
    | None => next_frame delim dl (acc ++ b :: bs) rest
    end.
Proof. reflexivity. Qed.

Lemma events_size_rest n seg rest :
  0 < n -> seg <> [] ->
  events_size (rest_of_segment n seg rest) + length (firstn n seg)
    <= S (length seg) + events_size rest.
Proof.
  intros Hn Hseg. unfold rest_of_segment.
  pose proof (firstn_skipn n seg) as Hfs.
  assert (Hlen : length seg = length (firstn n seg) + length (skipn n seg))
    by (rewrite <- Hfs at 1; apply length_app).
  destruct (skipn n seg) as [|b' bs'] eqn:E; simpl in *; lia.
Qed.

(** A read takes the next bytes of the frame, or fails as the frame does. *)
Lemma read_events_spec delim dl n evs acc :
  0 < n ->
  let '((bs, e), dl', evs') := read_events dl n evs in
  match e with
  | Some err =>
      bs = [] /\ err <> ErrBufferFull /\ next_frame delim dl acc evs = (acc, Some err)
  | None =>
      bs <> [] /\ dl' = dl /\ events_size evs' + length bs <= events_size evs /\
      match Bytes.cut delim bs with
      | Some (line, _) => next_frame delim dl acc evs = (acc ++ line, None)
      | None => next_frame delim dl acc evs = next_frame delim dl (acc ++ bs) evs'
      end
  end.
Proof.
  intros Hn. induction evs as [|ev evs IH].
  - simpl. repeat split; auto; discriminate.
  - destruct ev as [b bs| |].
    + cbn [read_events]. rewrite next_frame_Data.
      set (seg := b :: bs).
      assert (Hseg : seg <> []) by discriminate.
      pose proof (firstn_skipn n seg) as Hfs.
      split; [|split; [reflexivity|split]].
      * destruct n; [lia|]. discriminate.
      * pose proof (events_size_rest n seg evs Hn Hseg). simpl. simpl in H. lia.
      * destruct (Bytes.cut delim (firstn n seg)) as [[line post]|] eqn:E1.
        -- rewrite <- Hfs. rewrite (cut_app_Some _ _ _ _ _ E1). reflexivity.
        -- rewrite <- Hfs at 1. rewrite cut_app_None by assumption.
           unfold rest_of_segment.
           destruct (skipn n seg) as [|b' bs'] eqn:E2.
           ++ simpl. rewrite app_nil_r in Hfs. now rewrite Hfs.
           ++ rewrite next_frame_Data.
              destruct (Bytes.cut delim (b' :: bs')) as [[l p]|].
              ** now rewrite app_assoc.
              ** rewrite <- Hfs at 1. now rewrite app_assoc.
    + cbn [read_events next_frame]. destruct dl; try (repeat split; auto; discriminate).
      destruct (read_events NoDeadline n evs) as [[[bs e] dl'] evs'].
      destruct e; [exact IH|].
      destruct IH as (H1 & H2 & H3 & H4). repeat split; auto.
      cbn [events_size]. lia.
    + cbn [read_events next_frame]. repeat split; auto; discriminate.
Qed.

Lemma ReadSlice_eq fuel delim r c :
  Reader_ReadSlice fuel delim r c =
  match Bytes.cut delim (rbuf r) with
  | Some (line, rest) => ((line, None), mkReader rest (rerr r), c)
  | None =>
      match rerr r with
      | Some e => ((rbuf r, Some e), mkReader [] None, c)
      | None =>
          if bufSize <=? length (rbuf r) then
            ((rbuf r, Some ErrBufferFull), mkReader [] None, c)
          else
            match fuel with
            | O => ((rbuf r, Some ErrNoProgress), mkReader [] None, c)
            | S fuel' =>
                let '(r', c') := Reader_fill r c in
                Reader_ReadSlice fuel' delim r' c'
            end
      end
  end.
Proof. destruct fuel; reflexivity. Qed.

Lemma collect_eq fuel delim acc r c :
  Reader_collect fuel delim acc r c =
  let '((frag, e), r', c') := Reader_ReadSlice fuel delim r c in
  match e with
  | None => ((acc ++ frag, None), r', c')
  | Some ErrBufferFull =>
      match fuel with
      | O => ((acc ++ frag, Some ErrNoProgress), r', c')
      | S fuel' => Reader_collect fuel' delim (acc ++ frag) r' c'
      end
  | Some err => ((acc ++ frag, Some err), r', c')
  end.
Proof. destruct fuel; reflexivity. Qed.

Lemma next_frame_nil delim dl acc evs :
  next_frame delim dl acc evs =
    let '(l, e) := next_frame delim dl [] evs in (acc ++ l, e).
Proof. rewrite <- (app_nil_r acc) at 1. apply next_frame_acc. Qed.

Lemma ReadSlice_spec delim fuel : forall r c,
  rerr r = None -> is_closed c = false -> rdeadline c <> Expired ->
  Bytes.cut delim (rbuf r) = None ->
  events_size (incoming c) < fuel ->
  slice_ok delim r c (Reader_ReadSlice fuel delim r c).
Proof.
  induction fuel as [|fuel IH]; intros r c Herr Hopen Hdl Hcut Hfuel; [lia|].
  rewrite ReadSlice_eq, Hcut, Herr.
  destruct (bufSize <=? length (rbuf r)) eqn:Hfull.
  - apply Nat.leb_le in Hfull. unfold slice_ok. cbn [rbuf rerr].
    repeat split; auto. unfold bufSize in Hfull. lia.
  - apply Nat.leb_gt in Hfull.
    unfold Reader_fill, conn_Read. rewrite Hopen.
    destruct (Nat.eqb_spec (bufSize - length (rbuf r)) 0) as [E|_]; [lia|].
    assert (Hn : 0 < bufSize - length (rbuf r)) by lia.
    pose proof (read_events_spec delim (rdeadline c) _ (incoming c) (rbuf r) Hn) as Hrd.
    destruct (rdeadline c) eqn:Edl; [| |contradiction].
    all: destruct (read_events _ _ (incoming c)) as [[[bs e] dl'] evs'] eqn:Ere.
    all: destruct e as [err|].
    all: try (destruct Hrd as (-> & Hnb & Hnf); rewrite ReadSlice_eq; cbn [rbuf rerr];
              rewrite app_nil_r, Hcut; unfold slice_ok; rewrite Edl; cbn [rbuf rerr incoming];
              destruct err; try contradiction; auto; fail).
    all: destruct Hrd as (Hne & -> & Hsz & Hnf).
    all: destruct bs as [|b0 bs0]; [contradiction|].
    all: set (bs := b0 :: bs0) in *.
    all: destruct (Bytes.cut delim bs) as [[line post]|] eqn:Ecut.
    all: try (rewrite ReadSlice_eq; cbn [rbuf rerr];
              rewrite (cut_app_None _ _ _ Hcut), Ecut; unfold slice_ok; rewrite Edl;
              cbn [rbuf rerr incoming]; exact Hnf).
    all: match goal with
         | |- slice_ok _ _ _ (Reader_ReadSlice _ _ ?r1 ?c1) =>
             assert (Hs : slice_ok delim r1 c1 (Reader_ReadSlice fuel delim r1 c1))
         end.
    all: try (apply IH; cbn [rbuf rerr incoming rdeadline set_rdeadline set_incoming is_closed closes];
              [reflexivity| exact Hopen | discriminate
              | rewrite (cut_app_None _ _ _ Hcut), Ecut; reflexivity
              | subst bs; simpl in Hsz |- *; lia]).
    all: revert Hs; unfold slice_ok.
    all: destruct (Reader_ReadSlice fuel delim _ _) as [[[frag e] r'] c'].
    all: cbn [rbuf rerr incoming rdeadline set_rdeadline set_incoming].
    all: rewrite Edl, Hnf.
    all: destruct e as [[]|]; auto.
    all: intros (H1 & H2 & H3 & H4 & H5 & H6 & H7 & H8); repeat split; auto.
    all: rewrite length_app in H7; lia.
Qed.

Lemma collect_spec delim fuel : forall acc r c,
  rerr r = None -> is_closed c = false -> rdeadline c <> Expired ->
  Bytes.cut delim (rbuf r) = None ->
  length (rbuf r) + events_size (incoming c) < fuel ->
  let '((out, e), r', c') := Reader_collect fuel delim acc r c in
  (out, e) = (let '(l, e') := next_frame delim (rdeadline c) (rbuf r) (incoming c) in
              (acc ++ l, e'))
  /\ (e <> None -> rbuf r' = []).
Proof.
  induction fuel as [|fuel IH]; intros acc r c Herr Hopen Hdl Hcut Hfuel; [lia|].
  rewrite collect_eq.
  pose proof (ReadSlice_spec delim (S fuel) r c Herr Hopen Hdl Hcut ltac:(lia)) as Hs.
  unfold slice_ok in Hs.
  destruct (Reader_ReadSlice (S fuel) delim r c) as [[[frag e] r'] c'].
  destruct e as [err|].
  - assert (Hcase : err = ErrBufferFull \/
             (err <> ErrBufferFull /\
              next_frame delim (rdeadline c) (rbuf r) (incoming c) = (frag, Some err)
              /\ rbuf r' = [])).
    { destruct err; try (right; split; [discriminate|exact Hs]). now left. }
    destruct Hcase as [->|(Hne & Hnf & Hb)].
    + destruct Hs as (H1 & H2 & H3 & H4 & H5 & H6 & H7 & H8).
      specialize (IH (acc ++ frag) r' c' H2 H3 ltac:(congruence)
                     ltac:(rewrite H1; reflexivity) ltac:(rewrite H1; simpl; lia)).
      destruct (Reader_collect fuel delim (acc ++ frag) r' c') as [[[out e] r''] c''].
      destruct IH as [IH1 IH2]. split; [|exact IH2].
      rewrite IH1, H8, H4, H1. rewrite (next_frame_nil delim (rdeadline c) frag).
      destruct (next_frame delim (rdeadline c) [] (incoming c')) as [l e'].
      now rewrite app_assoc.
    + rewrite Hnf. destruct err; try contradiction; auto.
  - rewrite Hs. split; [reflexivity|]. congruence.
Qed.

(** [ReadBytes] gives the next frame of the stream, or the error that
    comes before its delimiter with the bytes read until then. *)
Lemma ReadBytes_next_frame delim r c :
  rerr r = None -> is_closed c = false -> rdeadline c <> Expired ->
  Bytes.cut delim (rbuf r) = None ->
  let '((out, e), r', c') := Reader_ReadBytes delim r c in
  (out, e) = next_frame delim (rdeadline c) (rbuf r) (incoming c)
  /\ (e <> None -> rbuf r' = []).
Proof.
  intros Herr Hopen Hdl Hcut. unfold Reader_ReadBytes.
  pose proof (collect_spec delim (read_fuel r c) [] r c Herr Hopen Hdl Hcut
                ltac:(unfold read_fuel; lia)) as H.
  destruct (Reader_collect _ _ _ _ _) as [[[out e] r'] c'].
  destruct (next_frame _ _ _ _) as [l e']. exact H.
Qed.

Lemma ReadBytes_buffered delim r c line rest :
  Bytes.cut delim (rbuf r) = Some (line, rest) ->
  Reader_ReadBytes delim r c = ((line, None), mkReader rest (rerr r), c).
Proof.
  intros Hcut. unfold Reader_ReadBytes. rewrite collect_eq, ReadSlice_eq, Hcut.
  reflexivity.
Qed.

Lemma next_frame_stream delim dl datas : forall acc rest,
  all_data datas ->
  next_frame delim dl acc (datas ++ rest) =
    match Bytes.cut delim (stream datas) with
    | Some (line, _) => (acc ++ line, None)
    | None => next_frame delim dl (acc ++ stream datas) rest
    end.
Proof.
  induction datas as [|ev datas IH]; intros acc rest Hall.
  - simpl. now rewrite app_nil_r.
  - inversion Hall as [|? ? Hev Hall']; subst.
    destruct ev as [b bs| |]; try discriminate.
    change ((Data b bs :: datas) ++ rest) with (Data b bs :: (datas ++ rest)).
    rewrite next_frame_Data.
    change (stream (Data b bs :: datas)) with ((b :: bs) ++ stream datas).
    destruct (Bytes.cut delim (b :: bs)) as [[line post]|] eqn:E.
    + rewrite (cut_app_Some _ _ _ _ _ E). reflexivity.
    + rewrite (cut_app_None _ _ _ E), IH by assumption.
      destruct (Bytes.cut delim (stream datas)) as [[line post]|].
      * now rewrite <- app_assoc.
      * now rewrite <- app_assoc.
Qed.

(* ================================================================== *)
(** * Properties of the framing layer *)
(* ================================================================== *)

Lemma bind_run {A B} (m : M A) (k : A -> M B) w :
  (m ≫= k) w = let (a, w') := m w in k a w'.
Proof. reflexivity. Qed.

Lemma on_delim_run {A} d (bad : A) f w D c :
  framed_on w d D c ->
  (forall a D' c', f D c = (a, D', c') -> d_conn D' = d_conn D) ->
  on_delim d bad f w =
    let '(a, D', c') := f D c in (a, put_framed d D' c' w).
Proof.
  intros [HD Hc] Hconn. unfold on_delim. rewrite HD, Hc.
  destruct (f D c) as [[a D'] c'] eqn:E.
  unfold put_framed. now rewrite (Hconn _ _ _ eq_refl).
Qed.

Lemma framed_on_put d D c D' c' w :
  framed_on w d D c -> d_conn D' = d_conn D ->
  framed_on (put_framed d D' c' w) d D' c'.
Proof.
  intros [HD Hc] Hconn. unfold framed_on, put_framed. cbn.
  split.
  - apply list_lookup_insert_eq. eapply lookup_lt_Some; eauto.
  - apply list_lookup_insert_eq. rewrite Hconn. eapply lookup_lt_Some; eauto.
Qed.

Lemma put_framed_twice d D1 c1 D2 c2 w :
  d_conn D1 = d_conn D2 ->
  put_framed d D2 c2 (put_framed d D1 c1 w) = put_framed d D2 c2 w.
Proof.
  intros H. unfold put_framed, with_delims, with_socks. cbn. rewrite H.
  now rewrite !list_insert_insert_eq.
Qed.

Lemma RecvFrame_run d timeout w D c :
  framed_on w d D c -> is_closed c = false ->
  RecvFrame d timeout w =
    let '((frame, err), r', c') :=
      Reader_ReadBytes x00 (d_r D) (set_rdeadline (deadline_of timeout) c) in
    (frame_result frame err, put_framed d (mkDelimited (d_conn D) r' (d_w D)) c' w).
Proof.
  intros Hf Hopen. unfold RecvFrame.
  rewrite bind_run. unfold d_SetReadDeadline.
  rewrite (on_delim_run _ _ _ _ _ _ Hf).
  2:{ intros a D' c'. unfold conn_SetReadDeadline. rewrite Hopen. now intros [= <- <- <-]. }
  unfold conn_SetReadDeadline. rewrite Hopen. cbn iota beta.
  rewrite bind_run. unfold d_ReadBytes.
  erewrite on_delim_run.
  2:{ eapply framed_on_put; eauto. }
  2:{ intros a D' c'. unfold on_reader.
      destruct (Reader_ReadBytes _ _ _) as [[? ?] ?]. now intros [= <- <- <-]. }
  unfold on_reader.
  destruct (Reader_ReadBytes _ _ _) as [[[frame err] r'] c'].
  rewrite put_framed_twice by reflexivity.
  unfold frame_result.
  destruct err as [e|].
  - destruct (Is_EOF e); [reflexivity|]. destruct (is_net_timeout e); reflexivity.
  - destruct (length frame =? 0); [reflexivity|].
    destruct (MaxFrameLength <? _); reflexivity.
Qed.

Lemma cut_found delim p tail :
  Bytes.cut delim p = None ->
  Bytes.cut delim (p ++ delim :: tail) = Some (p ++ [delim], tail).
Proof.
  intros H. rewrite cut_app_None by assumption. simpl.
  destruct (Bytes_eqb_spec delim delim); [reflexivity|contradiction].
Qed.

Lemma trim_zero_frame p : Bytes.trim_zero (p ++ [x00]) = p.
Proof.
  induction p as [|a p IH]; [reflexivity|].
  change ((a :: p) ++ [x00]) with (a :: (p ++ [x00])).
  destruct p as [|b p]; [reflexivity|].
  change (Bytes.trim_zero (a :: (b :: p) ++ [x00]))
    with (a :: Bytes.trim_zero ((b :: p) ++ [x00])).
  now rewrite IH.
Qed.

Lemma next_frame_found delim dl acc datas rest line tail :
  all_data datas ->
  Bytes.cut delim acc = None ->
  Bytes.cut delim (acc ++ stream datas) = Some (line, tail) ->
  next_frame delim dl acc (datas ++ rest) = (line, None).
Proof.
  intros Hall Hacc Hcut. rewrite next_frame_stream by assumption.
  rewrite cut_app_None in Hcut by assumption.
  destruct (Bytes.cut delim (stream datas)) as [[l p]|]; [|discriminate].
  now inversion Hcut.
Qed.

Lemma next_frame_not_found delim dl acc datas rest :
  all_data datas ->
  Bytes.cut delim (acc ++ stream datas) = None ->
  next_frame delim dl acc (datas ++ rest) = next_frame delim dl (acc ++ stream datas) rest.
Proof.
  intros Hall Hcut. rewrite next_frame_stream by assumption.
  apply cut_None_app in Hcut. destruct Hcut as [_ ->]. reflexivity.
Qed.

(** [RecvFrame] on a stream: what is buffered and what the peer sends
    decide the result. *)
Lemma RecvFrame_stream d timeout w D c :
  framed_on w d D c -> is_closed c = false -> rerr (d_r D) = None ->
  (RecvFrame d timeout w).1 =
    match Bytes.cut x00 (rbuf (d_r D)) with
    | Some (line, _) => frame_result line None
    | None =>
        let '(out, e) := next_frame x00 (deadline_of timeout) (rbuf (d_r D)) (incoming c) in
        frame_result out e
    end.
Proof.
  intros Hf Hopen Herr. rewrite (RecvFrame_run _ _ _ _ _ Hf Hopen).
  destruct (Bytes.cut x00 (rbuf (d_r D))) as [[line post]|] eqn:Hcut.
  - rewrite (ReadBytes_buffered _ _ _ _ _ Hcut). reflexivity.
  - pose proof (ReadBytes_next_frame x00 (d_r D) (set_rdeadline (deadline_of timeout) c)
                  Herr Hopen) as H.
    cbn [rdeadline set_rdeadline incoming] in H.
    specialize (H ltac:(destruct timeout; discriminate) Hcut).
    destruct (Reader_ReadBytes _ _ _) as [[[out e] r'] c'].
    destruct H as [H1 H2]. rewrite <- H1. reflexivity.
Qed.

(** When the read fails, nothing is left in the buffer of the reader. *)
Lemma RecvFrame_stream_failed d timeout w D c out e :
  framed_on w d D c -> is_closed c = false -> rerr (d_r D) = None ->
  Bytes.cut x00 (rbuf (d_r D)) = None ->
  next_frame x00 (deadline_of timeout) (rbuf (d_r D)) (incoming c) = (out, Some e) ->
  exists D', delims (RecvFrame d timeout w).2 !! d = Some D' /\ rbuf (d_r D') = [].
Proof.
  intros Hf Hopen Herr Hcut Hnf. rewrite (RecvFrame_run _ _ _ _ _ Hf Hopen).
  pose proof (ReadBytes_next_frame x00 (d_r D) (set_rdeadline (deadline_of timeout) c)
                Herr Hopen) as H.
  cbn [rdeadline set_rdeadline incoming] in H.
  specialize (H ltac:(destruct timeout; discriminate) Hcut).
  destruct (Reader_ReadBytes _ _ _) as [[[out' e'] r'] c'].
  destruct H as [H1 H2]. rewrite Hnf in H1. inversion H1; subst.
  destruct Hf as [HD Hc].
  exists (mkDelimited (d_conn D) r' (d_w D)). split.
  - unfold put_framed. cbn [snd delims with_delims].
    apply list_lookup_insert_eq. eapply lookup_lt_Some; eauto.
  - cbn [d_r]. apply H2. discriminate.
Qed.

Lemma frame_result_frame p :
  frame_result (p ++ [x00]) None =
    if MaxFrameLength <? length p then ([], false, Some (FrameTooLarge (length p)))
    else (p, true, None).
Proof.
  unfold frame_result. rewrite trim_zero_frame.
  rewrite length_app. cbn [length].
  replace (length p + 1 =? 0) with false by (symmetry; apply Nat.eqb_neq; lia).
  reflexivity.
Qed.

(** A frame that arrives whole: the payload [p] and its terminator are
    the next bytes of what is buffered and what the peer sends. *)
Lemma RecvFrame_frame d timeout w D c datas rest p tail :
  framed_on w d D c -> is_closed c = false -> rerr (d_r D) = None ->
  incoming c = datas ++ rest -> all_data datas ->
  rbuf (d_r D) ++ stream datas = p ++ x00 :: tail ->
  Bytes.cut x00 p = None ->
  (RecvFrame d timeout w).1 =
    if MaxFrameLength <? length p then ([], false, Some (FrameTooLarge (length p)))
    else (p, true, None).
Proof.
  intros Hf Hopen Herr Hin Hall Hbytes Hp.
  rewrite (RecvFrame_stream _ _ _ _ _ Hf Hopen Herr).
  pose proof (cut_found x00 p tail Hp) as Hcut. rewrite <- Hbytes in Hcut.
  destruct (Bytes.cut x00 (rbuf (d_r D))) as [[line post]|] eqn:Hb.
  - rewrite (cut_app_Some _ _ _ _ _ Hb) in Hcut. inversion Hcut; subst.
    apply frame_result_frame.
  - rewrite Hin, (next_frame_found _ _ _ _ _ _ _ Hall Hb Hcut).
    apply frame_result_frame.
Qed.

Lemma cut_None_iff delim l : Bytes.cut delim l = None <-> ~ In delim l.
Proof.
  induction l as [|x l IH]; simpl.
  - tauto.
  - destruct (Bytes_eqb_spec x delim) as [->|Hne].
    + split; [discriminate|]. intros H. exfalso. apply H. now left.
    + destruct (Bytes.cut delim l) as [[ln p]|].
      * split; [discriminate|]. intros H. exfalso.
        assert (Hin : ~ In delim l) by (intros Hin; apply H; now right).
        apply IH in Hin. discriminate.
      * split; [|reflexivity]. intros _ [Hx|Hin]; [congruence|].
        now apply (proj1 IH).
Qed.

Lemma next_frame_None_nonempty delim dl evs : forall acc out,
  next_frame delim dl acc evs = (out, None) -> out <> [].
Proof.
  induction evs as [|ev evs IH]; intros acc out H.
  - discriminate.
  - destruct ev as [b bs| |].
    + rewrite next_frame_Data in H.
      destruct (Bytes.cut delim (b :: bs)) as [[line post]|] eqn:E.
      * inversion H; subst. apply cut_Some_split in E. destruct E as (p & -> & _ & _).
        intros Hnil. apply app_eq_nil in Hnil. destruct Hnil as [_ Hnil].
        apply app_eq_nil in Hnil. destruct Hnil as [_ Hnil]. discriminate.
      * eapply IH; eauto.
    + cbn [next_frame] in H. destruct dl; try discriminate. eapply IH; eauto.
    + discriminate.
Qed.

(** Claim C2.  A value whose JSON encoding is longer than 256 bytes is
    not sent: [SendJSON] returns the frame-too-large error with the
    length of the encoding and leaves the world as it was, so that no
    byte reaches the socket or the buffer of the writer.  A frame whose
    payload [p], the bytes before the terminator, is longer than 256
    bytes is not received: when it is the next thing in what the reader
    has buffered and the peer sends, [RecvFrame] returns the
    frame-too-large error with the length of [p]. *)
Theorem frame_over_256_bytes_rejected
  (d : nat) (v : JSON.GoValue) (payload : list byte) (w : World)
  (d' : nat) (timeout : bool) (w' : World) (D : Delimited) (c : Conn)
  (datas rest : list event) (p tail : list byte) :
  JSON.Marshal v = (payload, None) ->
  MaxFrameLength < length payload ->
  framed_on w' d' D c -> is_closed c = false -> rerr (d_r D) = None ->
  incoming c = datas ++ rest -> all_data datas ->
  rbuf (d_r D) ++ stream datas = p ++ x00 :: tail ->
  ~ In x00 p ->
  MaxFrameLength < length p ->
  SendJSON d v w = (Some (FrameTooLarge (length payload)), w)
  /\ (RecvFrame d' timeout w').1 = ([], false, Some (FrameTooLarge (length p))).
Proof.
  intros Hm Hlen Hf Hopen Herr Hin Hall Hbytes Hp Hlenp. split.
  - unfold SendJSON. rewrite Hm.
    apply Nat.ltb_lt in Hlen. rewrite Hlen. reflexivity.
  - apply cut_None_iff in Hp.
    rewrite (RecvFrame_frame _ _ _ _ _ _ _ _ _ Hf Hopen Herr Hin Hall Hbytes Hp).
    apply Nat.ltb_lt in Hlenp. now rewrite Hlenp.
Qed.

Lemma frame_over_256_bytes_rejected_witness :
  SendJSON 0 (encodeAuthenticate (Bytes.to_string (repeat "a"%byte 300))) (one_socket [] [])
    = (Some (FrameTooLarge 319), one_socket [] [])
  /\ (RecvFrame 0 true (one_socket [] [Data "a"%byte (repeat "a"%byte 299 ++ [x00])])).1
     = ([], false, Some (FrameTooLarge 300)).
Proof.
  apply (frame_over_256_bytes_rejected 0
           (encodeAuthenticate (Bytes.to_string (repeat "a"%byte 300)))
           (fst (JSON.Marshal (encodeAuthenticate (Bytes.to_string (repeat "a"%byte 300)))))
           (one_socket [] [])
           0 true (one_socket [] [Data "a"%byte (repeat "a"%byte 299 ++ [x00])])
           (mkDelimited 0 (mkReader [] None) (mkWriter [] None))
           (mkConn [Data "a"%byte (repeat "a"%byte 299 ++ [x00])] [] None NoDeadline NoDeadline 0)
           [Data "a"%byte (repeat "a"%byte 299 ++ [x00])] []
           (repeat "a"%byte 300) []).
  - vm_compute. reflexivity.
  - vm_compute. lia.
  - split; reflexivity.
  - reflexivity.
  - reflexivity.
  - reflexivity.
  - repeat constructor.
  - vm_compute. reflexivity.
  - intros H. apply repeat_spec in H. discriminate.
  - vm_compute. lia.
Defined.

Lemma next_frame_eof delim dl acc datas :
  all_data datas -> ~ In delim (acc ++ stream datas) ->
  next_frame delim dl acc datas = (acc ++ stream datas, Some EOF).
Proof.
  intros Hall Hno. apply cut_None_iff in Hno.
  rewrite <- (app_nil_r datas) at 1.
  rewrite (next_frame_not_found _ _ _ _ _ Hall Hno). reflexivity.
Qed.

Lemma next_frame_stall delim acc datas rest :
  all_data datas -> ~ In delim (acc ++ stream datas) ->
  next_frame delim Armed acc (datas ++ Stall :: rest) = (acc ++ stream datas, Some NetTimeout).
Proof.
  intros Hall Hno. apply cut_None_iff in Hno.
  rewrite (next_frame_not_found _ _ _ _ _ Hall Hno). reflexivity.
Qed.

(** Claim C3.  On an open socket whose reader has nothing buffered and
    whose peer has closed without sending anything, [RecvFrame] returns
    no frame and no error.  When the deadline is set and the peer stalls
    before the terminator of a frame has arrived, whatever part of the
    frame has arrived, [RecvFrame] returns the timed-out error, not the
    result of a clean end. *)
Theorem RecvFrame_clean_end_and_timeout
  (d : nat) (timeout : bool) (w : World) (D : Delimited) (c : Conn) :
  framed_on w d D c -> is_closed c = false -> rerr (d_r D) = None ->
  (rbuf (d_r D) = [] -> incoming c = [] ->
   (RecvFrame d timeout w).1 = ([], false, None))
  /\ (forall datas rest,
        incoming c = datas ++ Stall :: rest -> all_data datas ->
        ~ In x00 (rbuf (d_r D) ++ stream datas) ->
        (RecvFrame d true w).1 = ([], false, Some (TimedOut NetTimeout))).
Proof.
  intros Hf Hopen Herr. split.
  - intros Hbuf Hin. rewrite (RecvFrame_stream _ _ _ _ _ Hf Hopen Herr), Hbuf, Hin.
    reflexivity.
  - intros datas rest Hin Hall Hno.
    rewrite (RecvFrame_stream _ _ _ _ _ Hf Hopen Herr).
    assert (Hb : Bytes.cut x00 (rbuf (d_r D)) = None).
    { apply cut_None_iff. intros H. apply Hno. apply in_or_app. now left. }
    rewrite Hb, Hin. cbn [deadline_of].
    rewrite (next_frame_stall _ _ _ _ Hall Hno). reflexivity.
Qed.

Lemma RecvFrame_clean_end_and_timeout_witness :
  (RecvFrame 0 false (one_socket [] [])).1 = ([], false, None)
  /\ (RecvFrame 0 true (one_socket ["{"%byte] [Data "a"%byte ["b"%byte]; Stall; Data x00 []])).1
     = ([], false, Some (TimedOut NetTimeout)).
Proof.
  split.
  - apply (proj1 (RecvFrame_clean_end_and_timeout 0 false (one_socket [] [])
                    (mkDelimited 0 (mkReader [] None) (mkWriter [] None))
                    (mkConn [] [] None NoDeadline NoDeadline 0)
                    (conj eq_refl eq_refl) eq_refl eq_refl)); reflexivity.
  - apply (proj2 (RecvFrame_clean_end_and_timeout 0 true
                    (one_socket ["{"%byte] [Data "a"%byte ["b"%byte]; Stall; Data x00 []])
                    (mkDelimited 0 (mkReader ["{"%byte] None) (mkWriter [] None))
                    (mkConn [Data "a"%byte ["b"%byte]; Stall; Data x00 []] [] None
                            NoDeadline NoDeadline 0)
                    (conj eq_refl eq_refl) eq_refl eq_refl)
                 [Data "a"%byte ["b"%byte]] [Data x00 []]).
    + reflexivity.
    + repeat constructor.
    + simpl. intros [H|[H|[H|[]]]]; discriminate.
Defined.

(** Claim C10.  When the peer closes after some bytes of a frame but
    before its terminator, [RecvFrame] returns no frame and no error,
    which is the result of a clean end of the stream, and the bytes are
    gone: the buffer of the reader is empty afterwards. *)
Theorem RecvFrame_truncated_frame_is_end_of_stream
  (d : nat) (timeout : bool) (w : World) (D : Delimited) (c : Conn) :
  framed_on w d D c -> is_closed c = false -> rerr (d_r D) = None ->
  all_data (incoming c) ->
  rbuf (d_r D) ++ stream (incoming c) <> [] ->
  ~ In x00 (rbuf (d_r D) ++ stream (incoming c)) ->
  (RecvFrame d timeout w).1 = ([], false, None)
  /\ exists D', delims (RecvFrame d timeout w).2 !! d = Some D' /\ rbuf (d_r D') = [].
Proof.
  intros Hf Hopen Herr Hall Hsome Hno.
  assert (Hb : Bytes.cut x00 (rbuf (d_r D)) = None).
  { apply cut_None_iff. intros H. apply Hno. apply in_or_app. now left. }
  pose proof (next_frame_eof x00 (deadline_of timeout) _ _ Hall Hno) as Hnf.
  split.
  - rewrite (RecvFrame_stream _ _ _ _ _ Hf Hopen Herr), Hb, Hnf. reflexivity.
  - eapply RecvFrame_stream_failed; eauto.
Qed.

Lemma RecvFrame_truncated_frame_is_end_of_stream_witness :
  (RecvFrame 0 false (one_socket [] [Data "{"%byte [x22; "H"%byte]; Data "e"%byte []])).1
    = ([], false, None)
  /\ exists D',
       delims (RecvFrame 0 false
                 (one_socket [] [Data "{"%byte [x22; "H"%byte]; Data "e"%byte []])).2 !! 0
         = Some D'
       /\ rbuf (d_r D') = [].
Proof.
  apply (RecvFrame_truncated_frame_is_end_of_stream 0 false
           (one_socket [] [Data "{"%byte [x22; "H"%byte]; Data "e"%byte []])
           (mkDelimited 0 (mkReader [] None) (mkWriter [] None))
           (mkConn [Data "{"%byte [x22; "H"%byte]; Data "e"%byte []] [] None
                   NoDeadline NoDeadline 0)).
  - split; reflexivity.
  - reflexivity.
  - reflexivity.
  - repeat constructor.
  - discriminate.
  - simpl. intros [H|[H|[H|[H|[]]]]]; discriminate.
Defined.

(** Claim C4, which the code does not meet.  When the next byte of the
    stream is a terminator, a frame of length zero, [RecvFrame] returns
    the empty frame as present and without error: [ReadBytes] returns
    the terminator, whose length is one, so that the test
    [len(frame) == 0] for the empty-frame error is made before the
    terminator is trimmed and does not hold. *)
Theorem RecvFrame_zero_length_frame_is_delivered
  (d : nat) (timeout : bool) (w : World) (D : Delimited) (c : Conn)
  (datas rest : list event) (tail : list byte) :
  framed_on w d D c -> is_closed c = false -> rerr (d_r D) = None ->
  incoming c = datas ++ rest -> all_data datas ->
  rbuf (d_r D) ++ stream datas = x00 :: tail ->
  (RecvFrame d timeout w).1 = ([], true, None).
Proof.
  intros Hf Hopen Herr Hin Hall Hbytes.
  apply (RecvFrame_frame d timeout w D c datas rest [] tail); auto.
Qed.

Lemma RecvFrame_zero_length_frame_is_delivered_witness :
  (RecvFrame 0 true (one_socket [] [Data x00 []])).1 = ([], true, None).
Proof.
  apply (RecvFrame_zero_length_frame_is_delivered 0 true (one_socket [] [Data x00 []])
           (mkDelimited 0 (mkReader [] None) (mkWriter [] None))
           (mkConn [Data x00 []] [] None NoDeadline NoDeadline 0)
           [Data x00 []] [] []).
  - split; reflexivity.
  - reflexivity.
  - reflexivity.
  - reflexivity.
  - repeat constructor.
  - reflexivity.
Defined.

Lemma next_frame_error delim dl evs : forall acc out e,
  next_frame delim dl acc evs = (out, Some e) -> e = EOF \/ e = NetTimeout \/ e = NetReset.
Proof.
  induction evs as [|ev evs IH]; intros acc out e H.
  - inversion H. auto.
  - destruct ev as [b bs| |].
    + rewrite next_frame_Data in H.
      destruct (Bytes.cut delim (b :: bs)) as [[line post]|]; [discriminate|].
      eapply IH; eauto.
    + cbn [next_frame] in H. destruct dl; try (inversion H; auto; fail). eapply IH; eauto.
    + inversion H. auto.
Qed.

(** The test [len(frame) == 0] of [RecvFrame] never holds: no read gives
    the empty-frame error. *)
Lemma RecvFrame_never_EmptyFrame d timeout w D c :
  framed_on w d D c -> is_closed c = false -> rerr (d_r D) = None ->
  (RecvFrame d timeout w).1.2 <> Some EmptyFrame.
Proof.
  intros Hf Hopen Herr. rewrite (RecvFrame_stream _ _ _ _ _ Hf Hopen Herr).
  assert (Hres : forall out e, (e = None -> out <> []) ->
            (forall e', e = Some e' -> e' <> EmptyFrame) ->
            (frame_result out e).2 <> Some EmptyFrame).
  { intros out e Hne Hee. unfold frame_result. destruct e as [e'|].
    - specialize (Hee e' eq_refl).
      destruct (Is_EOF e'); [discriminate|].
      destruct (is_net_timeout e'); cbn [snd]; congruence.
    - specialize (Hne eq_refl). destruct out; [contradiction|].
      cbn [length Nat.eqb]. destruct (MaxFrameLength <? _); discriminate. }
  destruct (Bytes.cut x00 (rbuf (d_r D))) as [[line post]|] eqn:Hb.
  - apply Hres; [|discriminate]. intros _.
    apply cut_Some_split in Hb. destruct Hb as (p & -> & _ & _).
    intros Hnil. apply app_eq_nil in Hnil. destruct Hnil as [_ Hnil]. discriminate.
  - destruct (next_frame _ _ _ _) as [out e] eqn:Hnf. apply Hres.
    + intros ->. eapply next_frame_None_nonempty; eauto.
    + intros e' ->. apply next_frame_error in Hnf.
      destruct Hnf as [->|[->| ->]]; discriminate.
Qed.

(* ================================================================== *)
(** * Properties of the codec *)
(* ================================================================== *)

Lemma dom_fold_insert (ms : list (string * JSON.value)) : forall m : gmap string JSON.value,
  dom (fold_left (fun m kv => <[kv.1 := kv.2]> m) ms m) = list_to_set ms.*1 ∪ dom m.
Proof.
  induction ms as [|[k v] ms IH]; intros m; simpl.
  - apply set_eq. intros x. rewrite elem_of_union, elem_of_empty. tauto.
  - rewrite IH, dom_insert_L. cbn [fst snd].
    apply set_eq. intros x. rewrite !elem_of_union. tauto.
Qed.

Lemma size_object_map ms : size (JSON.object_map ms) = length (remove_dups ms.*1).
Proof.
  unfold JSON.object_map. rewrite <- size_dom, dom_fold_insert, dom_empty_L.
  rewrite <- (size_list_to_set (C := gset string) (remove_dups ms.*1)) by apply NoDup_remove_dups.
  f_equal. apply set_eq. intros x.
  rewrite elem_of_union, !elem_of_list_to_set, elem_of_remove_dups, elem_of_empty. tauto.
Qed.

Lemma object_map_single ms k :
  remove_dups ms.*1 = [k] ->
  exists v : JSON.value, map_to_list (JSON.object_map ms) = [(k, v)].
Proof.
  intros Hk.
  assert (Hsize : size (JSON.object_map ms) = 1) by (rewrite size_object_map, Hk; reflexivity).
  assert (Hdom : k ∈ dom (JSON.object_map ms)).
  { unfold JSON.object_map. rewrite dom_fold_insert, dom_empty_L.
    apply elem_of_union. left. apply elem_of_list_to_set. apply elem_of_remove_dups. rewrite Hk. apply list_elem_of_singleton. reflexivity. }
  apply elem_of_dom in Hdom. destruct Hdom as [v Hv].
  apply elem_of_map_to_list in Hv.
  rewrite <- length_map_to_list in Hsize.
  exists v.
  destruct (map_to_list (JSON.object_map ms)) as [|p [|q l]]; simpl in Hsize; try lia.
  apply list_elem_of_singleton in Hv. now subst.
Qed.



(** Claim C5.  [decodeServerMessage] by the JSON text of its input.
    A string: the heartbeat when it is [Heartbeat], else the
    unexpected-unit-message error with the string.  An object: with no
    key or more than one (distinct) key, the error that a single field
    was expected, with the number of keys; with one key that is none of
    [Hello], [Challenge], [Connection] and [Error], the error of the
    unknown kind, with the key; with one of these keys, the message of
    the kind that goes with the key, or an error of its value, which is
    none of the two before.  The text [null] passes for a string that
    leaves the unit empty; any other text is not a message. *)
Theorem decodeServerMessage_dispatch (data : list byte) :
  match JSON.parse data with
  | Some (JSON.JString s) =>
      decodeServerMessage data =
        if String.eqb s "Heartbeat" then (heartbeat, None)
        else (ServerMessage_zero, Some (UnexpectedUnit s))
  | Some (JSON.JObject ms) =>
      match remove_dups ms.*1 with
      | [k] =>
          if known_key k then
            (exists m, decodeServerMessage data = (m, None) /\
               (String.eqb k "Hello" = true /\ Kind m = ServerHello \/
                String.eqb k "Challenge" = true /\ Kind m = ServerChallenge \/
                String.eqb k "Connection" = true /\ Kind m = ServerConnection \/
                String.eqb k "Error" = true /\ Kind m = ServerError))
            \/ (exists e, decodeServerMessage data = (ServerMessage_zero, Some e) /\
                  forall n k', e <> ExpectedSingleField n /\ e <> UnknownKind k')
          else decodeServerMessage data = (ServerMessage_zero, Some (UnknownKind k))
      | keys =>
          decodeServerMessage data
            = (ServerMessage_zero, Some (ExpectedSingleField (length keys)))
      end
  | Some JSON.JNull =>
      decodeServerMessage data = (ServerMessage_zero, Some (UnexpectedUnit EmptyString))
  | Some _ =>
      decodeServerMessage data = (ServerMessage_zero, Some (InvalidServerMessage JsonType))
  | None =>
      decodeServerMessage data = (ServerMessage_zero, Some (InvalidServerMessage JsonSyntax))
  end.
Proof.
  unfold decodeServerMessage, JSON.Unmarshal_string, JSON.Unmarshal_map.
  destruct (JSON.parse data) as [v|]; [|reflexivity].
  destruct v as [|b|lit|s|elems|ms]; try reflexivity.
  cbn [JSON.decode_string JSON.decode_map].
  rewrite size_object_map.
  destruct (remove_dups ms.*1) as [|k [|k2 keys]] eqn:Hkeys; try reflexivity.
  cbn [length Nat.eqb negb].
  destruct (object_map_single ms k Hkeys) as [v Hv].
  rewrite Hv.
  unfold known_key.
  destruct (String.eqb k "Hello") eqn:E1.
  { cbn [orb]. destruct (JSON.decode_uint16 v 0) as [port [e|]].
    - right. eexists. split; [reflexivity|]. intros n k'. split; discriminate.
    - left. eexists. split; [reflexivity|]. left. auto. }
  destruct (String.eqb k "Challenge") eqn:E2.
  { cbn [orb]. destruct (JSON.decode_string v EmptyString) as [raw [e|]].
    - right. eexists. split; [reflexivity|]. intros n k'. split; discriminate.
    - destruct (uuid.Parse raw) as [id [e|]].
      + right. eexists. split; [reflexivity|]. intros n k'. split; discriminate.
      + left. eexists. split; [reflexivity|]. right. left. auto. }
  destruct (String.eqb k "Connection") eqn:E3.
  { cbn [orb]. destruct (JSON.decode_string v EmptyString) as [raw [e|]].
    - right. eexists. split; [reflexivity|]. intros n k'. split; discriminate.
    - destruct (uuid.Parse raw) as [id [e|]].
      + right. eexists. split; [reflexivity|]. intros n k'. split; discriminate.
      + left. eexists. split; [reflexivity|]. right. right. left. auto. }
  destruct (String.eqb k "Error") eqn:E4.
  { cbn [orb]. destruct (JSON.decode_string v EmptyString) as [msg [e|]].
    - right. eexists. split; [reflexivity|]. intros n k'. split; discriminate.
    - left. eexists. split; [reflexivity|]. right. right. right. auto. }
  reflexivity.
Qed.

(* ================================================================== *)
(** * Properties of the authenticator *)
(* ================================================================== *)

Lemma compress_length h block : length h = 8 -> length (SHA256.compress h block) = 8.
Proof.
  intros Hh. unfold SHA256.compress.
  rewrite length_map, length_combine, Hh.
  destruct (fold_left SHA256.round _ _) as [[[[[[[a b] c] d] e] f] g] i]. reflexivity.
Qed.

Lemma fold_compress_length bl : forall h,
  length h = 8 -> length (fold_left SHA256.compress bl h) = 8.
Proof.
  induction bl as [|b bl IH]; intros h Hh; simpl; [assumption|].
  apply IH. now apply compress_length.
Qed.

Lemma concat_be32_length l : length (concat (List.map SHA256.be32 l)) = 4 * length l.
Proof.
  induction l as [|x l IH]; [reflexivity|].
  cbn [List.map concat]. rewrite length_app, IH. cbn [SHA256.be32 length]. lia.
Qed.

Lemma Sum256_length data : length (SHA256.Sum256 data) = 32.
Proof.
  unfold SHA256.Sum256. rewrite concat_be32_length, fold_compress_length; reflexivity.
Qed.

Lemma hex_digit_pair (b : byte) :
  [Hex.digit (Z.shiftr (Bytes.to_Z b) 4); Hex.digit (Z.land (Bytes.to_Z b) 15)]
  = [nth (Z.to_nat (Bytes.to_Z b / 16)) Spec.hex_digits x00;
     nth (Z.to_nat (Bytes.to_Z b mod 16)) Spec.hex_digits x00].
Proof. destruct b; vm_compute; reflexivity. Qed.

Lemma hex_encode_lower bs : Hex.EncodeToString bs = Spec.lower_hex bs.
Proof.
  unfold Hex.EncodeToString, Spec.lower_hex. f_equal.
  induction bs as [|b bs IH]; [reflexivity|].
  cbn [Hex.encode flat_map]. rewrite <- IH.
  change (Hex.digit (Z.shiftr (Bytes.to_Z b) 4) :: Hex.digit (Z.land (Bytes.to_Z b) 15)
            :: Hex.encode bs)
    with ([Hex.digit (Z.shiftr (Bytes.to_Z b) 4); Hex.digit (Z.land (Bytes.to_Z b) 15)]
            ++ Hex.encode bs).
  now rewrite hex_digit_pair.
Qed.

(** The streaming [hmac] of the library computes the HMAC of RFC 2104. *)
Lemma hmac_streaming key text :
  (HMAC.Sum [] (HMAC.Write text (HMAC.New key))).1 = Spec.hmac_sha256 key text.
Proof.
  unfold HMAC.Sum, HMAC.Write, HMAC.New, Spec.hmac_sha256.
  assert (Hcopy : forall k, length k <= 64 ->
            HMAC.copy_key k = k ++ repeat x00 (64 - length k)).
  { intros k Hk. unfold HMAC.copy_key, SHA256.BlockSize.
    now rewrite firstn_all2 by lia. }
  unfold SHA256.BlockSize.
  destruct (64 <? length key) eqn:Hlong.
  - cbn [HMAC.opad HMAC.ipad HMAC.outer HMAC.inner fst].
    unfold SHA256.Sum, SHA256.Write, SHA256.Reset, SHA256.New. cbn [SHA256.written].
    cbn [length skipn firstn app].
    rewrite Hcopy by (rewrite Sum256_length; lia).
    reflexivity.
  - apply Nat.ltb_ge in Hlong.
    cbn [HMAC.opad HMAC.ipad HMAC.outer HMAC.inner fst].
    unfold SHA256.Sum, SHA256.Write, SHA256.Reset, SHA256.New. cbn [SHA256.written].
    cbn [length skipn firstn app].
    rewrite Hcopy by lia.
    reflexivity.
Qed.

Lemma to_string_length l : String.length (Bytes.to_string l) = length l.
Proof.
  unfold Bytes.to_string, string_of_list_byte.
  induction l as [|b l IH]; [reflexivity|]. cbn. now rewrite IH.
Qed.

Lemma hex_encode_length bs : length (Hex.encode bs) = 2 * length bs.
Proof. induction bs as [|b bs IH]; [reflexivity|]. cbn [Hex.encode length]. lia. Qed.

(** Claim C6.  The answer of an authenticator made from a secret is the
    tag of the wire protocol: the lower-case hex encoding of HMAC-SHA256
    over the bytes of the challenge with the key SHA-256(secret).  It
    has 64 characters, and two authenticators made from the same secret
    give the same answer. *)
Theorem Answer_is_hex_hmac_sha256 (secret : string) (challenge : UUID) :
  Answer (NewAuthenticator secret) challenge = Spec.tag secret challenge
  /\ String.length (Answer (NewAuthenticator secret) challenge) = 64
  /\ (forall a1 a2 : Authenticator,
        a1 = NewAuthenticator secret -> a2 = NewAuthenticator secret ->
        Answer a1 challenge = Answer a2 challenge).
Proof.
  split; [|split].
  - unfold Answer, NewAuthenticator, Spec.tag. cbn [key].
    now rewrite hmac_streaming, hex_encode_lower.
  - unfold Answer. rewrite hmac_streaming.
    unfold Hex.EncodeToString. rewrite to_string_length, hex_encode_length.
    unfold Spec.hmac_sha256. now rewrite Sum256_length.
  - intros a1 a2 -> ->. reflexivity.
Qed.

Example Answer_test_vector :
  Answer (NewAuthenticator "s3cret")
         (uuid.Parse "123e4567-e89b-12d3-a456-426614174000").1
  = "dbbbbbcc5870cf93f4564a4ee4d3c0abe81219f5d990c849ae975609d5d610c0"%string.
Proof. vm_compute. reflexivity. Qed.

Example SHA256_abc :
  Hex.EncodeToString (SHA256.Sum256 (Bytes.of_string "abc"))
  = "ba7816bf8f01cfea414140de5dae2223b00361a396177a9cb410ff61f20015ad"%string.
Proof. vm_compute. reflexivity. Qed.

Example HMAC_rfc4231_case2 :
  Hex.EncodeToString
    (HMAC.Sum [] (HMAC.Write (Bytes.of_string "what do ya want for nothing?")
                    (HMAC.New (Bytes.of_string "Jefe")))).1
  = "5bdcc146bf60754e6a042426089575c75a003f089d2739839dec58b964ec3843"%string.
Proof. vm_compute. reflexivity. Qed.

(* ================================================================== *)
(** * Computations that act on sockets only *)
(* ================================================================== *)

Lemma only_sockets_refl w : only_sockets w w.
Proof. repeat split. Qed.

Lemma only_sockets_trans w1 w2 w3 :
  only_sockets w1 w2 -> only_sockets w2 w3 -> only_sockets w1 w3.
Proof.
  unfold only_sockets. intros (?&?&?&?&?&?&?&?&?) (?&?&?&?&?&?&?&?&?).
  repeat split; congruence.
Qed.

Lemma frames_ret {A} (a : A) : frames (mret a).
Proof. intros w. apply only_sockets_refl. Qed.

Lemma frames_bind {A B} (m : M A) (k : A -> M B) :
  frames m -> (forall a, frames (k a)) -> frames (m ≫= k).
Proof.
  intros Hm Hk w. rewrite bind_run. specialize (Hm w).
  destruct (m w) as [a w1]. eapply only_sockets_trans; [exact Hm|apply Hk].
Qed.

Lemma frames_on_sock {A} fd (bad : A) f : frames (on_sock fd bad f).
Proof.
  intros w. unfold on_sock. destruct (socks w !! fd) as [c|]; [|apply only_sockets_refl].
  destruct (f c) as [a c']. repeat split. cbn. apply length_insert.
Qed.

Lemma frames_on_delim {A} d (bad : A) f : frames (on_delim d bad f).
Proof.
  intros w. unfold on_delim.
  destruct (delims w !! d) as [D|]; [|apply only_sockets_refl].
  destruct (socks w !! d_conn D) as [c|]; [|apply only_sockets_refl].
  destruct (f D c) as [[a D'] c']. repeat split; cbn; apply length_insert.
Qed.

Ltac frames_tac :=
  repeat first
    [ apply frames_ret
    | apply frames_on_delim
    | apply frames_on_sock
    | apply frames_bind; [|intros]
    | match goal with
      | |- frames (match ?x with _ => _ end) => destruct x
      | |- frames (let '(_, _) := ?x in _) => destruct x
      | |- frames (if ?x then _ else _) => destruct x
      end ].

Lemma frames_RecvFrame d timeout : frames (RecvFrame d timeout).
Proof. unfold RecvFrame, d_SetReadDeadline, d_ReadBytes. frames_tac. Qed.

Lemma frames_RecvServer d timeout : frames (RecvServer d timeout).
Proof. unfold RecvServer. apply frames_bind; [apply frames_RecvFrame|]. intros. frames_tac. Qed.

Lemma frames_SendJSON d v : frames (SendJSON d v).
Proof.
  unfold SendJSON, d_SetWriteDeadline, d_Write, d_WriteByte, d_Flush. frames_tac.
Qed.

Lemma frames_ClientHandshake a d : frames (ClientHandshake a d).
Proof.
  unfold ClientHandshake. apply frames_bind; [apply frames_RecvServer|]. intros.
  frames_tac; apply frames_SendJSON.
Qed.

Lemma frames_net_Close fd : frames (net_Close fd).
Proof. apply frames_on_sock. Qed.

(* ================================================================== *)
(** * Properties of Close *)
(* ================================================================== *)

Lemma Close_fired c w C :
  clients w !! c = Some C -> closeOnce C = true -> Close c w = (None, w).
Proof.
  intros HC Hf. unfold Close. rewrite bind_run. unfold read_client. rewrite HC, Hf.
  reflexivity.
Qed.

Lemma Close_times_fired n c w C :
  clients w !! c = Some C -> closeOnce C = true ->
  Close_times n c w = (repeat None n, w).
Proof.
  intros HC Hf. induction n as [|n IH]; [reflexivity|].
  cbn [Close_times]. rewrite bind_run, (Close_fired _ _ _ HC Hf).
  rewrite bind_run, IH. reflexivity.
Qed.

(** The first call of [Close]: the client is marked, the socket gets one
    more [Close]. *)
Lemma Close_first c w C d D s :
  clients w !! c = Some C -> closeOnce C = false -> c_conn C = Some d ->
  framed_on w d D s ->
  Close c w =
    (if is_closed s then Some NetClosed else None,
     put_framed d D (conn_Close s).2
       (with_clients (<[c := set_connected false (set_closeOnce C)]> (clients w)) w)).
Proof.
  intros HC Hf Hconn Hfr. unfold Close.
  rewrite bind_run. unfold read_client at 1. rewrite HC, Hf.
  rewrite bind_run. unfold update_client at 1, modify. rewrite HC.
  rewrite bind_run. unfold update_client, modify. cbn [clients with_clients].
  rewrite list_lookup_insert_eq by (eapply lookup_lt_Some; eauto).
  rewrite list_insert_insert_eq.
  rewrite bind_run. unfold read_client. cbn [clients with_clients].
  rewrite list_lookup_insert_eq by (eapply lookup_lt_Some; eauto).
  cbn [c_conn set_connected set_closeOnce]. rewrite Hconn.
  unfold Delimited_Close, d_Close.
  erewrite on_delim_run.
  2:{ destruct Hfr as [H1 H2]. split; cbn; eauto. }
  2:{ intros a D' c'. unfold conn_Close. now intros [= <- <- <-]. }
  reflexivity.
Qed.

(** Claim C9.  However often [Close] is called on a client that was not
    closed before, [n + 1] times here, the control socket is closed
    once, the client is not connected afterwards, the first call returns
    what closing the socket returned and every later call returns no
    error. *)
Theorem Close_is_idempotent
  (n : nat) (w : World) (c : nat) (C : Client) (d : nat) (D : Delimited) (s : Conn) :
  clients w !! c = Some C -> closeOnce C = false -> c_conn C = Some d ->
  framed_on w d D s ->
  let '(errs, w') := Close_times (S n) c w in
  errs = (if is_closed s then Some NetClosed else None) :: repeat None n
  /\ (exists s', socks w' !! d_conn D = Some s' /\ closes s' = S (closes s))
  /\ (exists C', clients w' !! c = Some C' /\ connected C' = false).
Proof.
  intros HC Hf Hconn Hfr.
  cbn [Close_times]. rewrite bind_run, (Close_first _ _ _ _ _ _ HC Hf Hconn Hfr).
  set (w1 := put_framed _ _ _ _).
  assert (HC1 : clients w1 !! c = Some (set_connected false (set_closeOnce C))).
  { subst w1. cbn. apply list_lookup_insert_eq. eapply lookup_lt_Some; eauto. }
  rewrite bind_run, (Close_times_fired n c w1 _ HC1 eq_refl).
  cbn [mret M_ret ret]. split; [reflexivity|]. split.
  - exists (conn_Close s).2. split; [|reflexivity].
    subst w1. cbn. destruct Hfr as [_ Hs].
    apply list_lookup_insert_eq. eapply lookup_lt_Some; eauto.
  - eexists. split; [exact HC1|reflexivity].
Qed.

(* ================================================================== *)
(** * Properties of Listen *)
(* ================================================================== *)

Lemma Listen_loop_step fuel c w :
  Listen_loop (S fuel) c w =
    match Listen_body c w with
    | (Return err, w') => (Some err, w')
    | (Continue, w') => Listen_loop fuel c w'
    end.
Proof.
  cbn [Listen_loop]. rewrite bind_run.
  destruct (Listen_body c w) as [[|err] w']; reflexivity.
Qed.

(** Claim C7.  One pass of the loop of [Listen] on a client whose
    control connection gave the message [msg], or no message when [ok]
    is false, without error.  A clean end of the stream: the loop
    returns without error.  A heartbeat: the time of the clock is stored
    as the last heartbeat and the loop goes on.  A connection: the
    goroutine of a session for its id is started, and the loop goes on in
    a world in which nothing else has happened.  A hello or a challenge:
    a line is logged and the loop goes on.  An error: the loop returns
    the server error with its text. *)
Theorem Listen_iteration
  (c : nat) (w : World) (C : Client) (d : nat)
  (msg : ServerMessage) (ok : bool) (w1 : World) :
  clients w !! c = Some C -> c_conn C = Some d ->
  RecvServer d false w = ((msg, ok, None), w1) ->
  match ok, Kind msg with
  | false, _ =>
      Listen_body c w = (Return None, w1)
      /\ forall fuel, Listen_loop (S fuel) c w = (Some None, w1)
  | true, ServerHeartbeat =>
      let w2 := with_clients (<[c := set_lastHeartbeat (now w1) C]> (clients w1)) w1 in
      Listen_body c w = (Continue, w2)
      /\ forall fuel, Listen_loop (S fuel) c w = Listen_loop fuel c w2
  | true, ServerConnection =>
      let w2 := with_goroutines (goroutines w1 ++ [GoHandleConnection c (ID msg)]) w1 in
      Listen_body c w = (Continue, w2)
      /\ forall fuel, Listen_loop (S fuel) c w = Listen_loop fuel c w2
  | true, ServerHello | true, ServerChallenge =>
      let w2 := with_logs (logs w1 ++ [LogUnexpectedControl (Kind msg)]) w1 in
      Listen_body c w = (Continue, w2)
      /\ forall fuel, Listen_loop (S fuel) c w = Listen_loop fuel c w2
  | true, ServerError =>
      Listen_body c w = (Return (Some (ServerRejected (ErrorText msg))), w1)
      /\ forall fuel,
           Listen_loop (S fuel) c w = (Some (Some (ServerRejected (ErrorText msg))), w1)
  | true, KindNone =>
      let w2 := with_logs (logs w1 ++ [LogUnknownMessage msg]) w1 in
      Listen_body c w = (Continue, w2)
      /\ forall fuel, Listen_loop (S fuel) c w = Listen_loop fuel c w2
  end.
Proof.
  intros HC Hconn Hrecv.
  assert (Hcl : clients w1 = clients w).
  { pose proof (frames_RecvServer d false w) as H. rewrite Hrecv in H. apply H. }
  assert (Hbody : Listen_body c w =
            (let '(msg, ok, err) := (msg, ok, @None error) in
             match err with
             | Some e => mret (Return (Some e))
             | None =>
                 if negb ok then mret (Return None)
                 else
                   match Kind msg with
                   | ServerHeartbeat =>
                       t ← time_Now;
                       update_client c (set_lastHeartbeat t);;
                       mret Continue
                   | ServerConnection =>
                       go (GoHandleConnection c (ID msg));;
                       mret Continue
                   | ServerHello | ServerChallenge =>
                       log_Printf (LogUnexpectedControl (Kind msg));;
                       mret Continue
                   | ServerError => mret (Return (Some (ServerRejected (ErrorText msg))))
                   | KindNone =>
                       log_Printf (LogUnknownMessage msg);;
                       mret Continue
                   end
             end) w1).
  { unfold Listen_body. rewrite bind_run. unfold read_client. rewrite HC, Hconn.
    rewrite bind_run. unfold deref. cbn [default from_option id].
    rewrite bind_run, Hrecv. reflexivity. }
  cbn beta iota in Hbody.
  destruct ok; cbn [negb] in Hbody.
  - destruct (Kind msg) eqn:HK; cbv zeta.
    all: try (split; [exact Hbody | intros fuel; rewrite Listen_loop_step, Hbody; reflexivity]).
    rewrite Hbody. unfold time_Now, update_client, modify.
    rewrite !bind_run. rewrite Hcl, HC.
    split; [reflexivity|].
    intros fuel. rewrite Listen_loop_step, Hbody.
    unfold time_Now, update_client, modify. rewrite !bind_run. rewrite Hcl, HC. reflexivity.
  - split; [exact Hbody|]. intros fuel. rewrite Listen_loop_step, Hbody. reflexivity.
Qed.

(* ================================================================== *)
(** * Properties of NewClient *)
(* ================================================================== *)

(** What a successful dial does: the new socket is open and has the next
    descriptor; nothing else changes but the network. *)
Lemma connectWithTimeout_ok host port w conn w1 :
  connectWithTimeout host port w = ((conn, None), w1) ->
  conn = length (socks w)
  /\ (exists s, socks w1 = socks w ++ [s] /\ is_closed s = false /\ outgoing s = [])
  /\ delims w1 = delims w /\ clients w1 = clients w /\ logs w1 = logs w
  /\ goroutines w1 = goroutines w /\ now w1 = now w.
Proof.
  unfold connectWithTimeout. rewrite bind_run. unfold DialTimeout.
  destruct (network w !! _) as [[|[e|peer budget] rest]|]; cbn; try discriminate.
  intros [= <- <-]. cbn. repeat split; eauto.
Qed.

Lemma connectWithTimeout_failed host port w conn e w1 :
  connectWithTimeout host port w = ((conn, Some e), w1) ->
  socks w1 = socks w /\ delims w1 = delims w /\ clients w1 = clients w.
Proof.
  unfold connectWithTimeout. rewrite bind_run. unfold DialTimeout.
  destruct (network w !! _) as [[|[e'|peer budget] rest]|]; cbn; try discriminate.
  all: intros [= <- <- <-]; auto.
Qed.

Lemma net_Close_closes fd w :
  fd < length (socks w) ->
  exists s, socks (net_Close fd w).2 !! fd = Some s /\ is_closed s = true
            /\ length (socks (net_Close fd w).2) = length (socks w).
Proof.
  intros Hfd. unfold net_Close, on_sock.
  destruct (lookup_lt_is_Some_2 _ _ Hfd) as [c Hc]. rewrite Hc.
  cbn. eexists. split; [apply list_lookup_insert_eq; exact Hfd|].
  split; [reflexivity|]. apply length_insert.
Qed.

Lemma failure_closes {A} conn (e : error) w wk :
  conn = length (socks w) -> length (socks wk) = S (length (socks w)) ->
  let '((client, err), w') :=
    (net_Close conn ≫= λ _ : option error, mret (@None A, Some e)) wk in
  client = None /\ err = Some e /\ no_socket_left_open w w'.
Proof.
  intros -> Hlen. rewrite bind_run.
  destruct (net_Close_closes (length (socks w)) wk ltac:(lia)) as (s & Hs & Hcl & Hlen').
  destruct (net_Close (length (socks w)) wk) as [x w']. cbn in *.
  repeat split. intros fd s' Hfd Hs'.
  destruct (decide (fd = length (socks w))) as [->|Hne].
  - congruence.
  - apply lookup_lt_Some in Hs'. lia.
Qed.

(** The failure paths of [NewClient] return no client and leave no
    socket open. *)
Lemma NewClient_failure localHost localPort to desiredPort secret w :
  let '((client, err), w') := NewClient localHost localPort to desiredPort secret w in
  err <> None -> client = None /\ no_socket_left_open w w'.
Proof.
  unfold NewClient. rewrite bind_run.
  destruct (connectWithTimeout to ControlPort w) as [[conn [e|]] w1] eqn:Hdial.
  { apply connectWithTimeout_failed in Hdial. destruct Hdial as (Hs & _).
    cbn. intros _. split; [reflexivity|]. intros fd s Hfd Hl.
    rewrite Hs in Hl. apply lookup_lt_Some in Hl. lia. }
  apply connectWithTimeout_ok in Hdial.
  destruct Hdial as (Hconn & (s0 & Hsocks & _) & _).
  assert (Hlen1 : length (socks w1) = S (length (socks w))).
  { rewrite Hsocks, length_app. cbn. lia. }
  rewrite bind_run. unfold NewDelimited at 1.
  set (framed := length (delims w1)).
  set (w1' := with_delims _ w1).
  assert (Hlen1' : length (socks w1') = S (length (socks w))) by exact Hlen1.
  rewrite bind_run.
  assert (Hhs : exists auth herr w2,
            (if negb (secret =? EmptyString)%string
             then ClientHandshake (NewAuthenticator secret) framed
                    ≫= λ err, mret (Some (NewAuthenticator secret), err)
             else mret (None, None)) w1' = ((auth, herr), w2)
            /\ length (socks w2) = S (length (socks w))).
  { destruct (negb (secret =? EmptyString)%string).
    - rewrite bind_run.
      pose proof (frames_ClientHandshake (NewAuthenticator secret) framed w1') as Hf.
      destruct (ClientHandshake _ _ w1') as [herr w2]. cbn.
      do 3 eexists. split; [reflexivity|]. destruct Hf as (_&_&_&_&_&_&_&Hl&_).
      cbn in Hl. lia.
    - do 3 eexists. split; [reflexivity|]. exact Hlen1'. }
  destruct Hhs as (auth & herr & w2 & -> & Hlen2).
  destruct herr as [e|].
  { pose proof (failure_closes (A := nat) conn e w w2 Hconn Hlen2) as H.
    destruct ((net_Close conn ≫= _) w2) as [[client err] w'].
    destruct H as (-> & -> & H). auto. }
  rewrite bind_run.
  pose proof (frames_SendJSON framed (encodeHello desiredPort) w2) as Hf3.
  destruct (SendJSON framed (encodeHello desiredPort) w2) as [serr w3].
  assert (Hlen3 : length (socks w3) = S (length (socks w))).
  { destruct Hf3 as (_&_&_&_&_&_&_&Hl&_). cbn in Hl. lia. }
  destruct serr as [e|].
  { pose proof (failure_closes (A := nat) conn e w w3 Hconn Hlen3) as H.
    destruct ((net_Close conn ≫= _) w3) as [[client err] w'].
    destruct H as (-> & -> & H). auto. }
  rewrite bind_run.
  pose proof (frames_RecvServer framed true w3) as Hf4.
  destruct (RecvServer framed true w3) as [[[msg ok] rerr] w4].
  assert (Hlen4 : length (socks w4) = S (length (socks w))).
  { destruct Hf4 as (_&_&_&_&_&_&_&Hl&_). cbn in Hl. lia. }
  destruct rerr as [e|].
  { pose proof (failure_closes (A := nat) conn e w w4 Hconn Hlen4) as H.
    destruct ((net_Close conn ≫= _) w4) as [[client err] w'].
    destruct H as (-> & -> & H). auto. }
  destruct ok; cbn [negb].
  2:{ pose proof (failure_closes (A := nat) conn ErrUnexpectedEOF w w4 Hconn Hlen4) as H.
      destruct ((net_Close conn ≫= _) w4) as [[client err] w'].
      destruct H as (-> & -> & H). auto. }
  destruct (Kind msg) eqn:HK.
  2:{ (* Hello *)
      rewrite !bind_run. cbn. intros H. contradiction. }
  all: match goal with
       | |- context [mret (None, Some ?e)] =>
           pose proof (failure_closes (A := nat) conn e w w4 Hconn Hlen4) as H
       end.
  all: destruct ((net_Close conn ≫= _) w4) as [[client err] w'].
  all: destruct H as (-> & -> & H); auto.
Qed.

(** What [NewClient] does with the response to its [Hello], once the
    dial, the handshake when a secret is given, and the send went
    through. *)
Lemma NewClient_response localHost localPort to desiredPort secret w
  conn w1 auth w2 w3 msg w4 :
  connectWithTimeout to ControlPort w = ((conn, None), w1) ->
  (if String.eqb secret EmptyString
   then auth = None /\ w2 = (NewDelimited conn w1).2
   else auth = Some (NewAuthenticator secret) /\
        ClientHandshake (NewAuthenticator secret) (length (delims w1))
          (NewDelimited conn w1).2 = (None, w2)) ->
  SendJSON (length (delims w1)) (encodeHello desiredPort) w2 = (None, w3) ->
  RecvServer (length (delims w1)) true w3 = ((msg, true, None), w4) ->
  let '((client, err), w') := NewClient localHost localPort to desiredPort secret w in
  match Kind msg with
  | ServerHello =>
      client = Some (length (clients w4)) /\ err = None
      /\ (RemotePort (length (clients w4)) w').1 = Port msg
      /\ (Connected (length (clients w4)) w').1 = true
      /\ socks w' = socks w4
  | ServerError => client = None /\ err = Some (ServerRejected (ErrorText msg))
  | ServerChallenge => client = None /\ err = Some AuthenticationRequired
  | k => client = None /\ err = Some (UnexpectedInitialMessage k)
  end.
Proof.
  intros Hdial Hhs Hsend Hrecv.
  unfold NewClient. rewrite bind_run, Hdial. cbn iota beta.
  rewrite bind_run. unfold NewDelimited at 1.
  change (with_delims _ w1) with (NewDelimited conn w1).2 .
  rewrite bind_run.
  assert (Hstep : (if negb (secret =? EmptyString)%string
             then ClientHandshake (NewAuthenticator secret) (length (delims w1))
                    ≫= λ err, mret (Some (NewAuthenticator secret), err)
             else mret (None, None)) (NewDelimited conn w1).2 = ((auth, None), w2)).
  { destruct (secret =? EmptyString)%string; cbn [negb].
    - destruct Hhs as [-> ->]. reflexivity.
    - destruct Hhs as [-> Hh]. rewrite bind_run, Hh. reflexivity. }
  rewrite Hstep. cbn iota beta.
  rewrite bind_run, Hsend. rewrite bind_run, Hrecv. cbn [negb].
  destruct (Kind msg) eqn:HK.
  2:{ cbv [mbind M_bind bind get modify update_client log_Printf mret M_ret ret
             RemotePort Connected read_client].
      cbn [clients with_logs with_clients fst snd].
      rewrite !lookup_app_r by lia. rewrite !Nat.sub_diag. cbn [lookup list_lookup].
      cbn [clients with_logs with_clients fst snd].
      rewrite list_lookup_insert_eq by (rewrite length_app; cbn; lia).
      cbn. auto. }
  all: rewrite bind_run; destruct (net_Close conn w4) as [x w']; cbn; auto.
Qed.

(** The outcomes of [NewClient].  Whenever [NewClient] returns an error
    it returns no client, and every socket it has opened is closed.
    When the dial, the handshake if a secret is given, and the send of
    the hello went through and the relay answers with the message [msg]:
    for a hello the client is returned, its remote port is the port of
    the message and it is connected; for an error the server-rejected
    error with the text of the message is returned; for a challenge the
    authentication-required error, since the switch does not look at
    the secret; for any other message the unexpected-initial-message
    error. *)
Theorem NewClient_outcomes
  (localHost : string) (localPort : Z) (to : string) (desiredPort : Z) (secret : string)
  (w : World) :
  let '((client, err), w') := NewClient localHost localPort to desiredPort secret w in
  (err <> None -> client = None /\ no_socket_left_open w w')
  /\ forall conn w1 auth w2 w3 msg w4,
       connectWithTimeout to ControlPort w = ((conn, None), w1) ->
       (if String.eqb secret EmptyString
        then auth = None /\ w2 = (NewDelimited conn w1).2
        else auth = Some (NewAuthenticator secret) /\
             ClientHandshake (NewAuthenticator secret) (length (delims w1))
               (NewDelimited conn w1).2 = (None, w2)) ->
       SendJSON (length (delims w1)) (encodeHello desiredPort) w2 = (None, w3) ->
       RecvServer (length (delims w1)) true w3 = ((msg, true, None), w4) ->
       match Kind msg with
       | ServerHello =>
           client = Some (length (clients w4)) /\ err = None
           /\ (RemotePort (length (clients w4)) w').1 = Port msg
           /\ (Connected (length (clients w4)) w').1 = true
           /\ socks w' = socks w4
       | ServerError => client = None /\ err = Some (ServerRejected (ErrorText msg))
       | ServerChallenge => client = None /\ err = Some AuthenticationRequired
       | k => client = None /\ err = Some (UnexpectedInitialMessage k)
       end.
Proof.
  pose proof (NewClient_failure localHost localPort to desiredPort secret w) as Hfail.
  pose proof (NewClient_response localHost localPort to desiredPort secret w) as Hresp.
  destruct (NewClient localHost localPort to desiredPort secret w) as [[client err] w'].
  split; [exact Hfail|]. intros conn w1 auth w2 w3 msg w4 H1 H2 H3 H4.
  exact (Hresp conn w1 auth w2 w3 msg w4 H1 H2 H3 H4).
Qed.

Lemma NewClient_outcomes_witness :
  (NewClient "localhost" 8000 "relay.example" 0 EmptyString
     (relay_world (segment hello_frame))).1 = (Some 0, None)
  /\ (RemotePort 0 (NewClient "localhost" 8000 "relay.example" 0 EmptyString
                      (relay_world (segment hello_frame))).2).1 = 9000%Z
  /\ (Connected 0 (NewClient "localhost" 8000 "relay.example" 0 EmptyString
                     (relay_world (segment hello_frame))).2).1 = true.
Proof.
  pose proof (NewClient_outcomes "localhost" 8000 "relay.example" 0 EmptyString
                (relay_world (segment hello_frame))) as H.
  destruct (NewClient "localhost" 8000 "relay.example" 0 EmptyString
              (relay_world (segment hello_frame))) as [[client err] w'].
  destruct H as [_ H].
  set (w := relay_world (segment hello_frame)) in H.
  set (w1 := (connectWithTimeout "relay.example" ControlPort w).2) in H.
  set (w2 := (NewDelimited 0 w1).2) in H.
  set (w3 := (SendJSON 0 (encodeHello 0) w2).2) in H.
  specialize (H 0 w1 None w2 w3
                (RecvServer 0 true w3).1.1.1 (RecvServer 0 true w3).2
                ltac:(vm_compute; reflexivity) (conj eq_refl eq_refl)
                ltac:(vm_compute; reflexivity) ltac:(vm_compute; reflexivity)).
  vm_compute in H. destruct H as (-> & -> & H1 & H2 & _).
  cbn [fst snd]. auto.
Defined.

(* ================================================================== *)
(** * Properties of the proxy session *)
(* ================================================================== *)

Lemma stream_rest_of_segment n seg rest :
  firstn n seg ++ stream (rest_of_segment n seg rest) = seg ++ stream rest.
Proof.
  unfold rest_of_segment. pose proof (firstn_skipn n seg) as H.
  destruct (skipn n seg) as [|x xs] eqn:E.
  - rewrite app_nil_r in H. now rewrite H.
  - cbn [stream]. rewrite <- H at 2. now rewrite <- app_assoc.
Qed.

(** A read takes the next bytes of the stream. *)
Lemma read_events_stream dl n evs :
  let '((bs, e), dl', evs') := read_events dl n evs in
  bs ++ stream evs' = stream evs.
Proof.
  induction evs as [|ev evs IH]; [reflexivity|].
  destruct ev as [x xs| |]; cbn [read_events stream].
  - apply (stream_rest_of_segment n (x :: xs) evs).
  - destruct dl; try reflexivity. exact IH.
  - reflexivity.
Qed.

Lemma conn_Read_stream n s :
  let '((bs, e), s') := conn_Read n s in
  bs ++ stream (incoming s') = stream (incoming s) /\ outgoing s' = outgoing s.
Proof.
  unfold conn_Read. destruct (is_closed s); [auto|].
  destruct (n =? 0); [auto|].
  destruct (rdeadline s) eqn:E; try (split; reflexivity).
  - pose proof (read_events_stream NoDeadline n (incoming s)) as H.
    destruct (read_events NoDeadline n (incoming s)) as [[[bs e] dl'] evs']. auto.
  - pose proof (read_events_stream Armed n (incoming s)) as H.
    destruct (read_events Armed n (incoming s)) as [[[bs e] dl'] evs']. auto.
Qed.

Lemma conn_Write_outgoing p s :
  let '((nw, e), s') := conn_Write p s in
  incoming s' = incoming s /\
  match e with
  | None => outgoing s' = outgoing s ++ p
  | Some _ => exists k, outgoing s' = outgoing s ++ firstn k p
  end.
Proof.
  unfold conn_Write. destruct (is_closed s).
  - split; [reflexivity|]. exists 0. now rewrite app_nil_r.
  - destruct (wbudget s) as [k|]; [|auto].
    destruct (length p <=? k); [auto|]. split; [reflexivity|]. now exists k.
Qed.

Lemma on_sock_run {A} fd (bad : A) f w s :
  socks w !! fd = Some s ->
  on_sock fd bad f w = ((f s).1, with_socks (<[fd := (f s).2]> (socks w)) w).
Proof. intros H. unfold on_sock. rewrite H. now destruct (f s). Qed.

Lemma prefix_intro (a k c : list byte) : a ++ k = c -> a `prefix_of` c.
Proof. intros <-. now exists k. Qed.

(** The copy from the tunnel to the local socket keeps the invariant. *)
Lemma copy_to_local_inv L T b S0 st w :
  L <> T -> relay_inv L T b S0 st w ->
  relay_inv L T b S0 (copy_step L T st w).1 (copy_step L T st w).2.
Proof.
  intros Hne (sL & sT & relayed & HL & HT & Hout & Hst).
  destruct st as [|chunk er|err]; cbn [copy_step].
  - (* a read from the tunnel *)
    rewrite bind_run. unfold net_Read. rewrite (on_sock_run _ _ _ _ _ HT).
    pose proof (conn_Read_stream copyBufSize sT) as Hrd.
    destruct (conn_Read copyBufSize sT) as [[bs e] sT']. destruct Hrd as [Hs _].
    cbn [fst snd].
    assert (HL' : socks (with_socks (<[T := sT']> (socks w)) w) !! L = Some sL).
    { cbn. rewrite list_lookup_insert_ne by congruence. exact HL. }
    assert (HT' : socks (with_socks (<[T := sT']> (socks w)) w) !! T = Some sT').
    { cbn. apply list_lookup_insert_eq. eapply lookup_lt_Some; eauto. }
    destruct bs as [|x xs].
    + cbn. exists sL, sT', relayed. repeat split; auto.
      cbn [app] in Hs. rewrite Hs.
      unfold after_read. destruct e as [[]|]; try (eapply prefix_intro; exact Hst).
      exact Hst.
    + cbn. exists sL, sT', relayed. repeat split; auto. now rewrite Hs.
  - (* the write to the local socket *)
    rewrite bind_run. unfold net_Write. rewrite (on_sock_run _ _ _ _ _ HL).
    pose proof (conn_Write_outgoing chunk sL) as Hwr.
    destruct (conn_Write chunk sL) as [[nw ew] sL']. destruct Hwr as [_ Hwr].
    cbn [fst snd].
    assert (HL' : socks (with_socks (<[L := sL']> (socks w)) w) !! L = Some sL').
    { cbn. apply list_lookup_insert_eq. eapply lookup_lt_Some; eauto. }
    assert (HT' : socks (with_socks (<[L := sL']> (socks w)) w) !! T = Some sT).
    { cbn. rewrite list_lookup_insert_ne by congruence. exact HT. }
    destruct ew as [e|].
    + destruct Hwr as [k Hk]. cbn.
      exists sL', sT, (relayed ++ firstn k chunk). repeat split; auto.
      * rewrite Hk, Hout. now rewrite app_assoc.
      * apply (prefix_intro _ (skipn k chunk ++ stream (incoming sT))).
        rewrite <- Hst. rewrite <- app_assoc. f_equal.
        rewrite app_assoc. now rewrite firstn_skipn.
    + assert (Hout' : outgoing sL' = b ++ (relayed ++ chunk)).
      { rewrite Hwr, Hout. now rewrite app_assoc. }
      assert (Hst' : (relayed ++ chunk) ++ stream (incoming sT) = S0).
      { now rewrite <- app_assoc. }
      destruct (negb (nw =? length chunk)); cbn.
      * exists sL', sT, (relayed ++ chunk). repeat split; auto.
        eapply prefix_intro; exact Hst'.
      * exists sL', sT, (relayed ++ chunk). repeat split; auto.
        unfold after_read. destruct er as [[]|]; try (eapply prefix_intro; exact Hst').
        exact Hst'.
  - cbn. exists sL, sT, relayed. auto.
Qed.

(** The copy from the local socket to the tunnel touches neither what the
    local socket has received nor what the tunnel delivers. *)
Lemma copy_to_tunnel_inv L T b S0 st st' w :
  L <> T -> relay_inv L T b S0 st w ->
  relay_inv L T b S0 st (copy_step T L st' w).2.
Proof.
  intros Hne (sL & sT & relayed & HL & HT & Hout & Hst).
  destruct st' as [|chunk er|err]; cbn [copy_step].
  - rewrite bind_run. unfold net_Read. rewrite (on_sock_run _ _ _ _ _ HL).
    pose proof (conn_Read_stream copyBufSize sL) as Hrd.
    destruct (conn_Read copyBufSize sL) as [[bs e] sL']. destruct Hrd as [_ Ho].
    cbn [fst snd].
    assert (Hw : relay_inv L T b S0 st (with_socks (<[L := sL']> (socks w)) w)).
    { exists sL', sT, relayed. cbn. repeat split; auto.
      - apply list_lookup_insert_eq. eapply lookup_lt_Some; eauto.
      - rewrite list_lookup_insert_ne by congruence. exact HT.
      - congruence. }
    destruct bs; cbn; exact Hw.
  - rewrite bind_run. unfold net_Write. rewrite (on_sock_run _ _ _ _ _ HT).
    pose proof (conn_Write_outgoing chunk sT) as Hwr.
    destruct (conn_Write chunk sT) as [[nw ew] sT']. destruct Hwr as [Hi _].
    cbn [fst snd].
    assert (Hw : relay_inv L T b S0 st (with_socks (<[T := sT']> (socks w)) w)).
    { exists sL, sT', relayed. cbn. repeat split; auto.
      - rewrite list_lookup_insert_ne by congruence. exact HL.
      - apply list_lookup_insert_eq. eapply lookup_lt_Some; eauto.
      - rewrite Hi. exact Hst. }
    destruct ew; [cbn; exact Hw|]. destruct (negb _); cbn; exact Hw.
  - cbn. exists sL, sT, relayed. auto.
Qed.

Lemma net_Close_inv L T b S0 st fd w :
  relay_inv L T b S0 st w -> relay_inv L T b S0 st (net_Close fd w).2.
Proof.
  intros (sL & sT & relayed & HL & HT & Hout & Hst).
  unfold net_Close, on_sock.
  destruct (socks w !! fd) as [s|] eqn:Hfd; [|exists sL, sT, relayed; auto].
  cbn.
  destruct (decide (fd = L)) as [EL|HneL]; destruct (decide (fd = T)) as [ET|HneT].
  - subst fd. subst T.
    assert (sL = sT) by congruence. subst sT. assert (s = sL) by congruence. subst s.
    exists (conn_Close sL).2, (conn_Close sL).2, relayed. cbn [socks with_socks conn_Close snd incoming outgoing].
    rewrite list_lookup_insert_eq by (eapply lookup_lt_Some; eauto). auto.
  - subst fd. assert (s = sL) by congruence. subst s.
    exists (conn_Close sL).2, sT, relayed. cbn [socks with_socks conn_Close snd incoming outgoing].
    rewrite list_lookup_insert_eq by (eapply lookup_lt_Some; eauto).
    rewrite list_lookup_insert_ne by congruence. auto.
  - subst fd. assert (s = sT) by congruence. subst s.
    exists sL, (conn_Close sT).2, relayed. cbn [socks with_socks conn_Close snd incoming outgoing].
    rewrite list_lookup_insert_eq by (eapply lookup_lt_Some; eauto).
    rewrite list_lookup_insert_ne by congruence. auto.
  - exists sL, sT, relayed. cbn [socks with_socks conn_Close snd incoming outgoing].
    rewrite !list_lookup_insert_ne by congruence. auto.
Qed.

(** Every step of the goroutines of [proxy] keeps the invariant. *)
Lemma proxy_step_inv L T b S0 t st w :
  L <> T -> relay_inv L T b S0 (copyAB st) w ->
  relay_inv L T b S0 (copyAB (proxy_step L T t st w).1) (proxy_step L T t st w).2.
Proof.
  intros Hne Hinv. destruct t; cbn [proxy_step].
  - destruct (copyAB st) as [|chunk er|e] eqn:Hab.
    + rewrite bind_run.
      pose proof (copy_to_local_inv L T b S0 Reading w Hne Hinv) as H.
      destruct (copy_step L T Reading w) as [cs' w']. exact H.
    + rewrite bind_run.
      pose proof (copy_to_local_inv L T b S0 (Writing chunk er) w Hne Hinv) as H.
      destruct (copy_step L T (Writing chunk er) w) as [cs' w']. exact H.
    + destruct (sentAB st); cbn; rewrite ?Hab; exact Hinv.
  - destruct (copyBA st) as [|chunk er|e] eqn:Hba.
    + rewrite bind_run.
      pose proof (copy_to_tunnel_inv L T b S0 (copyAB st) Reading w Hne Hinv) as H.
      destruct (copy_step T L Reading w) as [cs' w']. exact H.
    + rewrite bind_run.
      pose proof (copy_to_tunnel_inv L T b S0 (copyAB st) (Writing chunk er) w Hne Hinv) as H.
      destruct (copy_step T L (Writing chunk er) w) as [cs' w']. exact H.
    + destruct (sentBA st); cbn; exact Hinv.
  - destruct (caller st) as [|e1|e1|e1|e].
    + destruct (errCh st); cbn; exact Hinv.
    + rewrite bind_run.
      pose proof (net_Close_inv L T b S0 (copyAB st) L w Hinv) as H.
      destruct (net_Close L w) as [x w']. exact H.
    + rewrite bind_run.
      pose proof (net_Close_inv L T b S0 (copyAB st) T w Hinv) as H.
      destruct (net_Close T w) as [x w']. exact H.
    + destruct (errCh st); cbn; exact Hinv.
    + cbn. exact Hinv.
Qed.

Lemma proxy_run_inv L T b S0 sched : forall st w,
  L <> T -> relay_inv L T b S0 (copyAB st) w ->
  relay_inv L T b S0 (copyAB (proxy_run L T sched st w).1.1) (proxy_run L T sched st w).2.
Proof.
  induction sched as [|t sched IH]; intros st w Hne Hinv.
  - cbn [proxy_run]. destruct (caller st); exact Hinv.
  - cbn [proxy_run].
    destruct (caller st) eqn:Hc; try exact Hinv.
    all: rewrite bind_run.
    all: pose proof (proxy_step_inv L T b S0 t st w Hne Hinv) as H.
    all: destruct (proxy_step L T t st w) as [st' w'].
    all: apply IH; assumption.
Qed.

Lemma frames_Delimited_Close d : frames (Delimited_Close d).
Proof. unfold Delimited_Close, d_Close. apply frames_on_delim. Qed.

Lemma prefix_refl_nil (l : list byte) : [] `prefix_of` l.
Proof. now exists l. Qed.

(** [BufferedData] takes all the reader has buffered and leaves its
    buffer empty. *)
Lemma BufferedData_drains d w D c :
  framed_on w d D c -> length (rbuf (d_r D)) <= bufSize ->
  (BufferedData d w).1 = (rbuf (d_r D), None)
  /\ exists D', delims (BufferedData d w).2 !! d = Some D' /\ rbuf (d_r D') = []
                /\ d_conn D' = d_conn D.
Proof.
  intros Hf Hlen. unfold BufferedData.
  rewrite bind_run. unfold d_Buffered.
  erewrite on_delim_run; [|exact Hf|now intros a D' c' [= <- <- <-]].
  cbn iota beta. unfold Reader_Buffered.
  assert (Hf1 : framed_on (put_framed d D c w) d D c) by (eapply framed_on_put; eauto).
  destruct (rbuf (d_r D)) as [|x xs] eqn:Hbuf.
  - cbn. split; [reflexivity|]. exists D. destruct Hf as [HD Hc].
    repeat split; auto. apply list_lookup_insert_eq. eapply lookup_lt_Some; eauto.
  - set (n := length (x :: xs)) in *.
    assert (Hn : (n =? 0) = false) by (apply Nat.eqb_neq; subst n; cbn; lia).
    rewrite Hn. rewrite bind_run. unfold d_Peek.
    assert (Hpeek : Reader_Peek n (d_r D) c = ((x :: xs, None), d_r D, c)).
    { unfold Reader_Peek. cbn [Reader_Peek_loop]. rewrite Hbuf. fold n.
      rewrite Nat.ltb_irrefl. cbn [andb].
      replace (bufSize <? n) with false by (symmetry; apply Nat.ltb_ge; exact Hlen).
      unfold n. now rewrite firstn_all. }
    erewrite on_delim_run; [|exact Hf1|].
    2:{ intros a D' c'. unfold on_reader. rewrite Hpeek. now intros [= <- <- <-]. }
    unfold on_reader. rewrite Hpeek. cbn iota beta.
    rewrite put_framed_twice by reflexivity.
    assert (HDeq : mkDelimited (d_conn D) (d_r D) (d_w D) = D) by (now destruct D).
    rewrite HDeq. rewrite bind_run. unfold d_Discard.
    assert (Hdisc : Reader_Discard n (d_r D) c
                    = ((n, None), mkReader [] (rerr (d_r D)), c)).
    { unfold Reader_Discard. rewrite Hn. unfold n at 1.
      change (length (x :: xs)) with (S (length xs)). cbn [Reader_Discard_loop].
      rewrite Hbuf. cbn iota beta.
      replace (length (rbuf (d_r D))) with n by (rewrite Hbuf; reflexivity).
      rewrite Nat.min_id, Nat.sub_diag. cbn [Nat.eqb Nat.add].
      rewrite Hbuf. unfold n. now rewrite skipn_all. }
    erewrite on_delim_run; [|exact Hf1|].
    2:{ intros a D' c'. unfold on_reader. rewrite Hdisc. now intros [= <- <- <-]. }
    unfold on_reader. rewrite Hdisc. cbn iota beta.
    rewrite put_framed_twice by reflexivity. cbn [fst snd mret M_ret ret].
    split; [reflexivity|]. eexists. split.
    + cbn. destruct Hf as [HD Hc]. apply list_lookup_insert_eq. eapply lookup_lt_Some; eauto.
    + split; reflexivity.
Qed.

(* ================================================================== *)
(** * Worked examples *)
(* ================================================================== *)

Lemma Listen_iteration_witness :
  (Listen_body 0 (listen_world (segment (frame (quoted "Heartbeat"))))).1 = Continue
  /\ lastHeartbeat <$>
       clients (Listen_body 0 (listen_world (segment (frame (quoted "Heartbeat"))))).2 !! 0
     = Some 1000%Z.
Proof.
  set (w := listen_world (segment (frame (quoted "Heartbeat")))).
  pose proof (Listen_iteration 0 w
                (mkClient (Some 0) "relay.example" "localhost" 8000 9000 None true 0 0 false)
                0 (RecvServer 0 false w).1.1.1 true (RecvServer 0 false w).2
                eq_refl eq_refl ltac:(vm_compute; reflexivity)) as H.
  replace (Kind (RecvServer 0 false w).1.1.1) with ServerHeartbeat in H
    by (vm_compute; reflexivity).
  cbv zeta in H. destruct H as [Hb _]. rewrite Hb. split; vm_compute; reflexivity.
Defined.

Example Listen_run :
  let r := Listen 10 0 None
             (listen_world
                (segment (frame (quoted "Heartbeat"))
                 ++ segment (frame (object1 "Connection"
                                      (quoted "07070707-0707-0707-0707-070707070707")))
                 ++ segment (frame (object1 "Hello" (Bytes.of_string "9000")))
                 ++ segment (frame (object1 "Error" (quoted "boom")))
                 ++ segment (frame (quoted "Heartbeat")))) in
  r.1 = Some (Some (ServerRejected "boom"))
  /\ goroutines r.2 = [GoCloseWhenDone 0 0; GoHandleConnection 0 session_id]
  /\ logs r.2 = [LogUnexpectedControl ServerHello]
  /\ (LastHeartbeat 0 r.2).1 = (1000%Z, true)
  /\ (Connected 0 r.2).1 = false
  /\ contexts r.2 = [true].
Proof. vm_compute. repeat split; reflexivity. Qed.

Example Listen_clean_end :
  (Listen 10 0 None (listen_world [])).1 = Some None
  /\ (Connected 0 (Listen 10 0 None (listen_world [])).2).1 = false.
Proof. vm_compute. split; reflexivity. Qed.

Lemma Close_is_idempotent_witness :
  let '(errs, w') := Close_times 3 0 (listen_world []) in
  errs = [None; None; None]
  /\ (exists s', socks w' !! 0 = Some s' /\ closes s' = 1)
  /\ (exists C', clients w' !! 0 = Some C' /\ connected C' = false).
Proof.
  apply (Close_is_idempotent 2 (listen_world []) 0
           (mkClient (Some 0) "relay.example" "localhost" 8000 9000 None true 0 0 false)
           0 (mkDelimited 0 (mkReader [] None) (mkWriter [] None))
           (mkConn [] [] None NoDeadline NoDeadline 0)).
  - reflexivity.
  - reflexivity.
  - reflexivity.
  - split; reflexivity.
Defined.

Example session_run :
  let r := handleConnection 0 session_id session_world in
  r.1 = Some None
  /\ (Bytes.to_string ∘ outgoing) <$> socks r.2 !! 1 = Some "GET / HTTP/1.1"%string
  /\ (ActiveProxies 0 r.2).1 = 0%Z.
Proof. vm_compute. repeat split; reflexivity. Qed.

Example decode_examples :
  decodeServerMessage (quoted "Heartbeat") = (heartbeat, None)
  /\ decodeServerMessage (quoted "Ping") = (ServerMessage_zero, Some (UnexpectedUnit "Ping"))
  /\ decodeServerMessage (Bytes.of_string "{}")
     = (ServerMessage_zero, Some (ExpectedSingleField 0))
  /\ decodeServerMessage
       ("{"%byte :: quoted "Hello" ++ Bytes.of_string ":1," ++ quoted "Error" ++ ":"%byte
          :: quoted "x" ++ ["}"%byte])
     = (ServerMessage_zero, Some (ExpectedSingleField 2))
  /\ decodeServerMessage (object1 "Goodbye" (Bytes.of_string "1"))
     = (ServerMessage_zero, Some (UnknownKind "Goodbye"))
  /\ decodeServerMessage (object1 "Hello" (Bytes.of_string "9000"))
     = (mkServerMessage ServerHello 9000 uuid_Nil EmptyString, None)
  /\ decodeServerMessage (object1 "Error" (quoted "port in use"))
     = (mkServerMessage ServerError 0 uuid_Nil "port in use", None)
  /\ decodeServerMessage (Bytes.of_string "null")
     = (ServerMessage_zero, Some (UnexpectedUnit EmptyString))
  /\ decodeServerMessage (Bytes.of_string "[1]")
     = (ServerMessage_zero, Some (InvalidServerMessage JsonType)).
Proof. vm_compute. repeat split; reflexivity. Qed.

(* ================================================================== *)
(** * Further properties of the framing layer *)
(* ================================================================== *)

Lemma reads_only_refl c : reads_only c c.
Proof. repeat split. Qed.

Lemma reads_only_trans c1 c2 c3 : reads_only c1 c2 -> reads_only c2 c3 -> reads_only c1 c3.
Proof. unfold reads_only. intros (?&?&?&?) (?&?&?&?). repeat split; congruence. Qed.

Lemma all_data_rest_of_segment n seg rest :
  all_data rest -> all_data (rest_of_segment n seg rest).
Proof.
  intros H. unfold rest_of_segment. destruct (skipn n seg); [exact H|].
  constructor; [reflexivity|exact H].
Qed.

Lemma read_events_all_data dl n evs :
  all_data evs ->
  let '((bs, e), dl', evs') := read_events dl n evs in
  all_data evs' /\ dl' = dl.
Proof.
  intros H. destruct evs as [|ev evs]; [cbn; split; [constructor|reflexivity]|].
  inversion H as [|? ? Hev Hall]; subst.
  destruct ev as [b bs| |]; try discriminate.
  cbn [read_events]. split; [|reflexivity]. now apply all_data_rest_of_segment.
Qed.

Lemma read_events_error dl n evs :
  let '((bs, e), dl', evs') := read_events dl n evs in e <> None -> bs = [].
Proof.
  induction evs as [|ev evs IH]; [cbn; auto|].
  destruct ev as [b bs| |]; cbn [read_events].
  - intros H. congruence.
  - destruct dl; auto.
  - auto.
Qed.

(** A read from a socket takes the next bytes of its stream and changes
    nothing else. *)
Lemma conn_Read_conserves n c :
  let '((bs, e), c') := conn_Read n c in
  bs ++ stream (incoming c') = stream (incoming c)
  /\ reads_only c c'
  /\ (all_data (incoming c) -> all_data (incoming c') /\ rdeadline c' = rdeadline c)
  /\ (e <> None -> bs = []).
Proof.
  unfold conn_Read. destruct (is_closed c).
  { repeat split; auto. }
  destruct (n =? 0).
  { repeat split; auto. }
  destruct (rdeadline c) eqn:E.
  3:{ repeat split; auto. }
  all: pose proof (read_events_stream (rdeadline c) n (incoming c)) as H1.
  all: pose proof (read_events_all_data (rdeadline c) n (incoming c)) as H2.
  all: pose proof (read_events_error (rdeadline c) n (incoming c)) as H3.
  all: rewrite E in H1, H2, H3.
  all: destruct (read_events _ n (incoming c)) as [[[bs e] dl'] evs'].
  all: cbn [incoming set_rdeadline set_incoming rdeadline].
  all: repeat split; auto.
  all: try (intros Hall; now apply H2).
  all: try (apply H2; assumption).
Qed.

Lemma fill_conserves r c :
  let '(r', c') := Reader_fill r c in
  rbuf r' ++ stream (incoming c') = rbuf r ++ stream (incoming c)
  /\ reads_only c c'
  /\ (all_data (incoming c) -> all_data (incoming c') /\ rdeadline c' = rdeadline c)
  /\ (rerr r' <> None -> rbuf r' = rbuf r).
Proof.
  unfold Reader_fill.
  pose proof (conn_Read_conserves (bufSize - length (rbuf r)) c) as H.
  destruct (conn_Read _ c) as [[bs e] c']. destruct H as (H1 & H2 & H3 & H4).
  destruct e as [err|].
  - rewrite (H4 ltac:(discriminate)) in *. cbn [rbuf rerr]. rewrite app_nil_r.
    cbn [app] in H1. rewrite H1. auto.
  - destruct bs as [|x xs]; cbn [rbuf rerr].
    + cbn [app] in H1. rewrite H1. auto.
    + rewrite <- app_assoc, H1. split_and!; auto. intros Hn. congruence.
Qed.

(** [ReadSlice] hands out the next bytes of what is buffered and what
    the peer sends; none is lost and none is read twice. *)
Lemma ReadSlice_conserves delim fuel : forall r c,
  let '((frag, e), r', c') := Reader_ReadSlice fuel delim r c in
  frag ++ rbuf r' ++ stream (incoming c') = rbuf r ++ stream (incoming c)
  /\ reads_only c c'
  /\ (all_data (incoming c) -> all_data (incoming c') /\ rdeadline c' = rdeadline c)
  /\ (rerr r = None -> e = None -> rerr r' = None)
  /\ (e <> None -> r' = mkReader [] None).
Proof.
  induction fuel as [|fuel IH]; intros r c; rewrite ReadSlice_eq.
  all: destruct (Bytes.cut delim (rbuf r)) as [[line rest]|] eqn:Hcut.
  all: try (apply cut_Some_split in Hcut; destruct Hcut as (p & -> & Hb & _);
            cbn [rbuf rerr]; rewrite Hb, <- !app_assoc;
            split_and!; auto using reads_only_refl; intros Hn; congruence).
  all: destruct (rerr r) as [e0|] eqn:Herr.
  all: try (cbn [rbuf rerr app]; split_and!; auto using reads_only_refl; discriminate).
  all: destruct (bufSize <=? length (rbuf r)).
  all: try (cbn [rbuf rerr app]; split_and!; auto using reads_only_refl; discriminate).
  pose proof (fill_conserves r c) as Hf.
  destruct (Reader_fill r c) as [r1 c1]. destruct Hf as (F1 & F2 & F3 & F4).
  specialize (IH r1 c1).
  destruct (rerr r1) as [e1|] eqn:Herr1.
  - rewrite ReadSlice_eq in IH |- *.
    rewrite (F4 ltac:(discriminate)) in *. rewrite Hcut, Herr1 in *.
    cbn [rbuf rerr app] in *. split_and!; auto; try discriminate; tauto.
  - destruct (Reader_ReadSlice fuel delim r1 c1) as [[[frag e] r'] c'].
    destruct IH as (I1 & I2 & I3 & I4 & I5).
    split; [congruence|]. split; [eapply reads_only_trans; eauto|].
    split; [|split; auto].
    intros Hall. destruct (F3 Hall) as [Ha Hd]. destruct (I3 Ha) as [Ha' Hd'].
    split; [exact Ha'|congruence].
Qed.

Lemma collect_conserves delim fuel : forall acc r c,
  let '((out, e), r', c') := Reader_collect fuel delim acc r c in
  out ++ rbuf r' ++ stream (incoming c') = acc ++ rbuf r ++ stream (incoming c)
  /\ reads_only c c'
  /\ (all_data (incoming c) -> all_data (incoming c') /\ rdeadline c' = rdeadline c)
  /\ (rerr r = None -> e = None -> rerr r' = None).
Proof.
  induction fuel as [|fuel IH]; intros acc r c; rewrite collect_eq.
  all: match goal with
       | |- context [Reader_ReadSlice ?f ?d ?r0 ?c0] =>
           pose proof (ReadSlice_conserves d f r0 c0) as Hs;
           destruct (Reader_ReadSlice f d r0 c0) as [[[frag e] r1] c1]
       end.
  all: destruct Hs as (S1 & S2 & S3 & S4 & S5).
  all: destruct e as [err|];
       [|rewrite <- app_assoc, S1; split_and!; auto].
  all: assert (Hdone : forall err' : error, 
         (acc ++ frag) ++ rbuf r1 ++ stream (incoming c1) = acc ++ rbuf r ++ stream (incoming c)
         /\ reads_only c c1
         /\ (all_data (incoming c) -> all_data (incoming c1) /\ rdeadline c1 = rdeadline c)
         /\ (rerr r = None -> Some err' = @None error -> rerr r1 = None))
       by (intros err'; rewrite <- app_assoc, S1; split_and!; auto; discriminate).
  all: destruct err; try apply Hdone.
  specialize (IH (acc ++ frag) r1 c1).
  destruct (Reader_collect fuel delim (acc ++ frag) r1 c1) as [[[out e] r'] c'].
  destruct IH as (I1 & I2 & I3 & I4).
  rewrite (S5 ltac:(discriminate)) in *. cbn [rbuf rerr app] in *.
  split; [rewrite I1, <- app_assoc; f_equal; exact S1|].
  split; [eapply reads_only_trans; eauto|].
  split; [|intros _; apply I4; reflexivity].
  intros Hall. destruct (S3 Hall) as [Ha Hd]. destruct (I3 Ha) as [Ha' Hd'].
  split; [exact Ha'|congruence].
Qed.

Lemma ReadBytes_conserves delim r c :
  let '((out, e), r', c') := Reader_ReadBytes delim r c in
  out ++ rbuf r' ++ stream (incoming c') = rbuf r ++ stream (incoming c)
  /\ reads_only c c'
  /\ (all_data (incoming c) -> all_data (incoming c') /\ rdeadline c' = rdeadline c)
  /\ (rerr r = None -> e = None -> rerr r' = None).
Proof. apply (collect_conserves delim (read_fuel r c) [] r c). Qed.

(** When the next bytes are a payload without the delimiter and then the
    delimiter, [ReadBytes] returns them and leaves what follows, in the
    buffer or with the peer. *)
Lemma ReadBytes_takes_frame delim r c p tail :
  rerr r = None -> is_closed c = false -> rdeadline c <> Expired ->
  all_data (incoming c) ->
  rbuf r ++ stream (incoming c) = p ++ delim :: tail ->
  Bytes.cut delim p = None ->
  exists r' c',
    Reader_ReadBytes delim r c = ((p ++ [delim], None), r', c')
    /\ rbuf r' ++ stream (incoming c') = tail
    /\ rerr r' = None /\ all_data (incoming c') /\ reads_only c c'
    /\ rdeadline c' = rdeadline c.
Proof.
  intros Herr Hopen Hdl Hall Hbytes Hp.
  pose proof (cut_found delim p tail Hp) as Hcut. rewrite <- Hbytes in Hcut.
  pose proof (ReadBytes_conserves delim r c) as Hcons.
  assert (Hres : (Reader_ReadBytes delim r c).1.1 = (p ++ [delim], None)).
  { destruct (Bytes.cut delim (rbuf r)) as [[line post]|] eqn:Hb.
    - rewrite (ReadBytes_buffered _ _ _ _ _ Hb). cbn [fst].
      rewrite (cut_app_Some _ _ _ _ _ Hb) in Hcut. now inversion Hcut.
    - pose proof (ReadBytes_next_frame delim r c Herr Hopen Hdl Hb) as H.
      destruct (Reader_ReadBytes delim r c) as [[[out e] r'] c']. cbn [fst].
      destruct H as [-> _].
      rewrite <- (app_nil_r (incoming c)).
      apply (next_frame_found _ _ _ _ _ _ tail Hall Hb Hcut). }
  destruct (Reader_ReadBytes delim r c) as [[[out e] r'] c']. cbn [fst] in Hres.
  inversion Hres; subst out e.
  destruct Hcons as (H1 & H2 & H3 & H4).
  exists r', c'. split; [reflexivity|].
  destruct (H3 Hall) as [Ha Hd].
  split_and!; auto.
  rewrite Hbytes in H1. rewrite <- app_assoc in H1. cbn [app] in H1.
  apply app_inv_head in H1. now inversion H1.
Qed.

(** [RecvFrame] on a stream whose next frame has the payload [p]: the
    frame is taken, what follows it stays. *)
Lemma RecvFrame_takes_frame d timeout w D c p tail :
  framed_on w d D c -> is_closed c = false -> rerr (d_r D) = None ->
  all_data (incoming c) ->
  rbuf (d_r D) ++ stream (incoming c) = p ++ x00 :: tail ->
  ~ In x00 p ->
  exists r' c',
    RecvFrame d timeout w =
      (received p, put_framed d (mkDelimited (d_conn D) r' (d_w D)) c' w)
    /\ rbuf r' ++ stream (incoming c') = tail
    /\ rerr r' = None /\ all_data (incoming c') /\ is_closed c' = false
    /\ reads_only c c'.
Proof.
  intros Hf Hopen Herr Hall Hbytes Hp. apply cut_None_iff in Hp.
  rewrite (RecvFrame_run _ _ _ _ _ Hf Hopen).
  destruct (ReadBytes_takes_frame x00 (d_r D) (set_rdeadline (deadline_of timeout) c) p tail
              Herr Hopen ltac:(destruct timeout; discriminate) Hall Hbytes Hp)
    as (r' & c' & Hrb & Htail & Herr' & Hall' & Hro & _).
  exists r', c'. rewrite Hrb. split; [|split_and!; auto].
  - f_equal. apply frame_result_frame.
  - destruct Hro as (_ & _ & _ & Hc). unfold is_closed in *. now rewrite Hc.
Qed.

(** Property X1.
    Frames are delivered in the order of the stream, each once: when the
    bytes the reader has buffered and the peer sends are the frames of
    the payloads [ps], none of which holds a zero byte, followed by
    [tail], then [length ps] calls of [RecvFrame] return the payloads in
    order, or for a payload over 256 bytes the frame-too-large error,
    after which the next call gets the next frame; [tail] is what is left
    to read. *)
Theorem RecvFrame_delivers_frames_in_order
  (d : nat) (timeout : bool) (ps : list (list byte)) (tail : list byte) :
  forall (w : World) (D : Delimited) (c : Conn),
  framed_on w d D c -> is_closed c = false -> rerr (d_r D) = None ->
  all_data (incoming c) ->
  rbuf (d_r D) ++ stream (incoming c) = concat (List.map frame ps) ++ tail ->
  Forall (fun p => ~ In x00 p) ps ->
  let '(rs, w') := RecvFrame_times (length ps) d timeout w in
  rs = List.map received ps
  /\ exists D' c', framed_on w' d D' c' /\ rbuf (d_r D') ++ stream (incoming c') = tail.
Proof.
  induction ps as [|p ps IH]; intros w D c Hf Hopen Herr Hall Hbytes Hps.
  - cbn. split; [reflexivity|]. exists D, c. auto.
  - inversion Hps as [|? ? Hp Hps']; subst.
    cbn [length RecvFrame_times]. rewrite bind_run.
    cbn [List.map concat] in Hbytes. unfold frame at 1 in Hbytes.
    rewrite <- !app_assoc in Hbytes. cbn [app] in Hbytes.
    destruct (RecvFrame_takes_frame d timeout w D c p _ Hf Hopen Herr Hall Hbytes Hp)
      as (r' & c' & -> & Htail & Herr' & Hall' & Hopen' & _).
    assert (Hf' : framed_on (put_framed d (mkDelimited (d_conn D) r' (d_w D)) c' w) d
                    (mkDelimited (d_conn D) r' (d_w D)) c')
      by (eapply framed_on_put; eauto).
    specialize (IH _ _ _ Hf' Hopen' Herr' Hall' Htail Hps').
    rewrite bind_run.
    destruct (RecvFrame_times (length ps) d timeout _) as [rs w'].
    destruct IH as [-> IH]. cbn. split; [reflexivity|exact IH].
Qed.

Lemma RecvFrame_delivers_frames_in_order_witness :
  (RecvFrame_times 2 0 true
     (one_socket (Bytes.of_string "{") (segment (Bytes.of_string "}") ++
        segment (x00 :: quoted "Heartbeat" ++ [x00; "x"%byte])))).1
  = [(Bytes.of_string "{}", true, None); (quoted "Heartbeat", true, None)].
Proof.
  pose proof (RecvFrame_delivers_frames_in_order 0 true
                [Bytes.of_string "{}"; quoted "Heartbeat"] ["x"%byte]
                (one_socket (Bytes.of_string "{") (segment (Bytes.of_string "}") ++
                   segment (x00 :: quoted "Heartbeat" ++ [x00; "x"%byte])))
                _ _ (conj eq_refl eq_refl) eq_refl eq_refl
                ltac:(repeat constructor) eq_refl
                ltac:(repeat constructor; vm_compute; intuition discriminate)) as H.
  cbn [length] in H.
  destruct (RecvFrame_times 2 0 true _) as [rs w'].
  destruct H as [-> _]. reflexivity.
Defined.

(** [SendJSON] on an open connection whose writer is empty: the
    encoding and its terminator are buffered and go to the socket in one
    write, at the flush. *)
Lemma SendJSON_run d v w D c payload :
  framed_on w d D c -> is_closed c = false ->
  wbuf (d_w D) = [] -> werr (d_w D) = None ->
  JSON.Marshal v = (payload, None) -> length payload <= MaxFrameLength ->
  SendJSON d v w =
    let '((n, e), c') := conn_Write (payload ++ [x00]) (set_wdeadline Armed c) in
    match e with
    | None =>
        (None, put_framed d (mkDelimited (d_conn D) (d_r D) (mkWriter [] None)) c' w)
    | Some err =>
        (Some err,
         put_framed d (mkDelimited (d_conn D) (d_r D)
                         (mkWriter (skipn n (payload ++ [x00])) (Some err))) c' w)
    end.
Proof.
  intros Hf Hopen Hbuf Hwerr Hm Hlen. unfold SendJSON. rewrite Hm.
  replace (MaxFrameLength <? length payload) with false
    by (symmetry; apply Nat.ltb_ge; exact Hlen).
  unfold MaxFrameLength in Hlen.
  (* the deadline *)
  rewrite bind_run. unfold d_SetWriteDeadline.
  rewrite (on_delim_run _ _ _ _ _ _ Hf).
  2:{ intros a D' c'. unfold conn_SetWriteDeadline. rewrite Hopen. now intros [= <- <- <-]. }
  unfold conn_SetWriteDeadline. rewrite Hopen. cbn iota beta. cbn [deadline_of].
  set (c1 := set_wdeadline Armed c).
  assert (Hf1 : framed_on (put_framed d D c1 w) d D c1) by (eapply framed_on_put; eauto).
  (* the write into the buffer *)
  rewrite bind_run. unfold d_Write.
  assert (Hwrite : Writer_Write payload (d_w D) c1
                   = ((length payload, None), mkWriter payload None, c1)).
  { unfold Writer_Write. cbn [Writer_Write_loop]. rewrite Hbuf, Hwerr. cbn [length app].
    replace (bufSize - 0 <? length payload) with false
      by (symmetry; apply Nat.ltb_ge; unfold bufSize; lia).
    reflexivity. }
  erewrite on_delim_run; [|exact Hf1|].
  2:{ intros a D' c'. unfold on_writer. rewrite Hwrite. now intros [= <- <- <-]. }
  unfold on_writer. rewrite Hwrite. cbn iota beta.
  rewrite put_framed_twice by reflexivity.
  set (D2 := mkDelimited (d_conn D) (d_r D) (mkWriter payload None)).
  assert (Hf2 : framed_on (put_framed d D2 c1 w) d D2 c1) by (eapply framed_on_put; eauto).
  (* the terminator *)
  rewrite bind_run. unfold d_WriteByte.
  assert (Hbyte : Writer_WriteByte x00 (d_w D2) c1
                  = (None, mkWriter (payload ++ [x00]) None, c1)).
  { unfold Writer_WriteByte. cbn [d_w D2 werr wbuf].
    replace (bufSize <=? length payload) with false
      by (symmetry; apply Nat.leb_gt; unfold bufSize; lia).
    reflexivity. }
  erewrite on_delim_run; [|exact Hf2|].
  2:{ intros a D' c'. unfold on_writer. rewrite Hbyte. now intros [= <- <- <-]. }
  unfold on_writer. rewrite Hbyte. cbn iota beta.
  rewrite put_framed_twice by reflexivity. cbn [d_conn d_r D2].
  set (D3 := mkDelimited (d_conn D) (d_r D) (mkWriter (payload ++ [x00]) None)).
  assert (Hf3 : framed_on (put_framed d D3 c1 w) d D3 c1) by (eapply framed_on_put; eauto).
  (* the flush *)
  unfold d_Flush.
  assert (Hflush : Writer_Flush (d_w D3) c1 =
            let '((n, e), c') := conn_Write (payload ++ [x00]) c1 in
            match e with
            | None => (None, mkWriter [] None, c')
            | Some err => (Some err, mkWriter (skipn n (payload ++ [x00])) (Some err), c')
            end).
  { unfold Writer_Flush. cbn [d_w D3 werr wbuf].
    destruct (payload ++ [x00]) as [|x xs] eqn:E; [now destruct payload|].
    unfold conn_Write. destruct (is_closed c1); [reflexivity|].
    destruct (wbudget c1) as [k|].
    - destruct (length (x :: xs) <=? k); [|reflexivity].
      now rewrite Nat.ltb_irrefl.
    - now rewrite Nat.ltb_irrefl. }
  erewrite on_delim_run; [|exact Hf3|].
  2:{ intros a D' c'. unfold on_writer. rewrite Hflush.
      destruct (conn_Write _ c1) as [[n [e|]] c'']; now intros [= <- <- <-]. }
  unfold on_writer. rewrite Hflush.
  destruct (conn_Write _ c1) as [[n [e|]] c'']; cbn iota beta.
  all: now rewrite put_framed_twice by reflexivity.
Qed.

(** ** The encoding holds no zero byte *)
Lemma decimal_digit_not_zero (n : Z) : Bytes.of_Z (48 + n mod 10) <> x00.
Proof.
  pose proof (Z.mod_pos_bound n 10 ltac:(lia)) as H.
  assert (Hc : (n mod 10 = 0 \/ n mod 10 = 1 \/ n mod 10 = 2 \/ n mod 10 = 3 \/ n mod 10 = 4
                \/ n mod 10 = 5 \/ n mod 10 = 6 \/ n mod 10 = 7 \/ n mod 10 = 8
                \/ n mod 10 = 9)%Z) by lia.
  repeat (destruct Hc as [->|Hc]; [vm_compute; discriminate|]).
  rewrite Hc. vm_compute. discriminate.
Qed.

Lemma digits_fuel_no_zero fuel : forall n acc,
  ~ In x00 acc -> ~ In x00 (Decimal.digits_fuel fuel n acc).
Proof.
  induction fuel as [|fuel IH]; intros n acc Hacc; cbn [Decimal.digits_fuel]; [exact Hacc|].
  assert (H : ~ In x00 (Bytes.of_Z (48 + n mod 10) :: acc)).
  { intros [E|E]; [|contradiction]. now apply (decimal_digit_not_zero n). }
  destruct (n <? 10)%Z; [exact H|]. now apply IH.
Qed.

Lemma DecodeRune_no_zero b rest r size :
  (Bytes.to_Z b <? 128)%Z = false ->
  UTF8.DecodeRune (b :: rest) = (r, size) ->
  ~ In x00 (firstn size (b :: rest)).
Proof.
  intros Hz Hd.
  assert (Hb : b <> x00) by (intros ->; vm_compute in Hz; discriminate).
  assert (Hin : forall lo hi x, UTF8.in_range lo hi x = true -> (0 <? lo)%Z = true ->
                  x = x00 -> False).
  { intros lo hi x Hr Hlo ->. unfold UTF8.in_range in Hr.
    apply andb_true_iff in Hr. destruct Hr as [Hr _].
    change (Bytes.to_Z x00) with 0%Z in Hr. apply Z.ltb_lt in Hlo. apply Z.leb_le in Hr. lia. }
  assert (H1 : ~ In x00 (firstn 1 (b :: rest))).
  { cbn. intros [E|[]]. congruence. }
  unfold UTF8.DecodeRune in Hd. rewrite Hz in Hd.
  destruct (UTF8.in_range 194 223 b).
  { destruct rest as [|b1 rest]; [inversion Hd; subst; exact H1|].
    destruct (UTF8.in_range 128 191 b1) eqn:E1; inversion Hd; subst; [|exact H1].
    cbn. intros [E|[E|[]]]; [congruence|].
    apply (Hin _ _ _ E1 eq_refl). congruence. }
  destruct (UTF8.in_range 224 239 b).
  { destruct rest as [|b1 [|b2 rest]]; try (inversion Hd; subst; exact H1).
    cbv zeta in Hd.
    destruct (UTF8.in_range _ _ b1 && UTF8.in_range 128 191 b2) eqn:E;
      inversion Hd; subst; [|exact H1].
    apply andb_true_iff in E. destruct E as [E1 E2].
    cbn. intros [E|[E|[E|[]]]]; [congruence| |].
    - revert E1. destruct (_ =? 224)%Z; intros E1; apply (Hin _ _ _ E1 eq_refl); congruence.
    - apply (Hin _ _ _ E2 eq_refl). congruence. }
  destruct (UTF8.in_range 240 244 b).
  { destruct rest as [|b1 [|b2 [|b3 rest]]]; try (inversion Hd; subst; exact H1).
    cbv zeta in Hd.
    destruct (UTF8.in_range _ _ b1 && UTF8.in_range 128 191 b2 && UTF8.in_range 128 191 b3)
      eqn:E; inversion Hd; subst; [|exact H1].
    apply andb_true_iff in E. destruct E as [E E3].
    apply andb_true_iff in E. destruct E as [E1 E2].
    cbn. intros [E|[E|[E|[E|[]]]]]; [congruence| | |].
    - revert E1. destruct (_ =? 240)%Z; intros E1; apply (Hin _ _ _ E1 eq_refl); congruence.
    - apply (Hin _ _ _ E2 eq_refl). congruence.
    - apply (Hin _ _ _ E3 eq_refl). congruence. }
  inversion Hd; subst; exact H1.
Qed.

Lemma not_in_app (x : byte) l1 l2 : ~ In x l1 -> ~ In x l2 -> ~ In x (l1 ++ l2).
Proof. intros H1 H2 H. apply in_app_or in H. tauto. Qed.

Lemma hex_digit_not_zero z : Hex.digit (Z.land z 15) <> x00.
Proof.
  assert (H : (0 <= Z.land z 15 < 16)%Z).
  { change 15%Z with (Z.ones 4). rewrite Z.land_ones by lia. apply Z.mod_pos_bound. lia. }
  set (k := Z.land z 15) in *.
  assert (Hc : (k = 0 \/ k = 1 \/ k = 2 \/ k = 3 \/ k = 4 \/ k = 5 \/ k = 6 \/ k = 7 \/ k = 8
                \/ k = 9 \/ k = 10 \/ k = 11 \/ k = 12 \/ k = 13 \/ k = 14 \/ k = 15)%Z) by lia.
  repeat (destruct Hc as [->|Hc]; [vm_compute; discriminate|]).
  rewrite Hc. vm_compute. discriminate.
Qed.

Lemma hex4_no_zero z : ~ In x00 (JSON.hex4 z).
Proof.
  unfold JSON.hex4. cbn [In].
  intros [E|[E|[E|[E|[]]]]]; exact (hex_digit_not_zero _ E).
Qed.

Lemma quote_body_no_zero fuel : forall l, ~ In x00 (JSON.quote_body fuel l).
Proof.
  induction fuel as [|fuel IH]; intros l; [cbn; tauto|].
  destruct l as [|b rest]; [cbn; tauto|].
  cbn [JSON.quote_body].
  assert (Hesc : forall c tl, c <> x00 -> ~ In x00 tl ->
            ~ In x00 (x5c :: c :: tl)).
  { intros c tl Hc Htl [E|[E|E]]; [discriminate|congruence|contradiction]. }
  destruct (Bytes.to_Z b <? 128)%Z eqn:Hz.
  - assert (Hplain : b <> x00 -> ~ In x00 (b :: JSON.quote_body fuel rest)).
    { intros Hb [E|E]; [congruence|]. now apply (IH rest). }
    assert (Hu : ~ In x00 (x5c :: "u"%byte :: JSON.hex4 (Bytes.to_Z b)
                             ++ JSON.quote_body fuel rest)).
    { apply Hesc; [discriminate|]. apply not_in_app; [apply hex4_no_zero|apply IH]. }
    destruct b; try (vm_compute in Hz; discriminate Hz).
    all: try (apply Hesc; [discriminate|apply IH]).
    all: try (apply Hplain; discriminate).
    all: exact Hu.
  - destruct (UTF8.DecodeRune (b :: rest)) as [r size] eqn:Hd.
    destruct ((r =? UTF8.RuneError)%Z && (size =? 1)).
    { apply Hesc; [discriminate|]. apply not_in_app; [apply hex4_no_zero|apply IH]. }
    destruct ((r =? 8232)%Z || (r =? 8233)%Z).
    { apply Hesc; [discriminate|]. apply not_in_app; [apply hex4_no_zero|apply IH]. }
    apply not_in_app; [|apply IH].
    eapply DecodeRune_no_zero; eauto.
Qed.

Lemma quote_no_zero l : ~ In x00 (JSON.quote l).
Proof.
  unfold JSON.quote. intros [E|E]; [discriminate|].
  apply in_app_or in E. destruct E as [E|[E|[]]]; [|discriminate].
  now apply (quote_body_no_zero (length l) l).
Qed.

Lemma no_zero_object (q body : list byte) :
  ~ In x00 q -> ~ In x00 body -> ~ In x00 ("{"%byte :: q ++ ":"%byte :: body ++ ["}"%byte]).
Proof.
  intros Hq Hb [E|E]; [discriminate|].
  apply in_app_or in E. destruct E as [E|[E|E]]; [contradiction|discriminate|].
  apply in_app_or in E. destruct E as [E|[E|[]]]; [contradiction|discriminate].
Qed.

(** [json.Marshal] writes no zero byte: a frame cannot end early. *)
Lemma Marshal_no_zero v : forall payload,
  JSON.Marshal v = (payload, None) -> ~ In x00 payload.
Proof.
  induction v as [n|s|t|k v IH]; intros payload; cbn [JSON.Marshal].
  - intros [= <-]. unfold Decimal.Itoa. apply digits_fuel_no_zero. tauto.
  - intros [= <-]. apply quote_no_zero.
  - intros [= <-]. apply quote_no_zero.
  - destruct (JSON.Marshal v) as [body [e|]]; [discriminate|].
    intros [= <-].
    exact (no_zero_object (JSON.quote (Bytes.of_string k)) body
             (quote_no_zero _) (IH _ eq_refl)).
Qed.

Lemma put_framed_sock d D c w :
  d_conn D < length (socks w) -> socks (put_framed d D c w) !! d_conn D = Some c.
Proof. intros H. unfold put_framed. cbn. now apply list_lookup_insert_eq. Qed.

(** Property X2.
    What [SendJSON] writes, [RecvFrame] reads back.  For a value whose
    encoding [payload] has at most 256 bytes, sent on an open connection
    with an empty writer to a peer that takes the bytes: the send
    succeeds and the socket gets [payload] and one zero byte; a receiver
    for which these bytes are the next of its stream gets [payload] as
    its next frame. *)
Theorem SendJSON_frame_is_received
  (v : JSON.GoValue) (payload : list byte)
  (ds : nat) (ws : World) (Ds : Delimited) (cs : Conn)
  (dr : nat) (timeout : bool) (wr : World) (Dr : Delimited) (cr : Conn) (tail : list byte) :
  framed_on ws ds Ds cs -> is_closed cs = false ->
  wbuf (d_w Ds) = [] -> werr (d_w Ds) = None -> wbudget cs = None ->
  JSON.Marshal v = (payload, None) -> length payload <= MaxFrameLength ->
  framed_on wr dr Dr cr -> is_closed cr = false -> rerr (d_r Dr) = None ->
  all_data (incoming cr) ->
  rbuf (d_r Dr) ++ stream (incoming cr) = frame payload ++ tail ->
  let '(err, ws') := SendJSON ds v ws in
  err = None
  /\ (exists cs', socks ws' !! d_conn Ds = Some cs'
                  /\ outgoing cs' = outgoing cs ++ frame payload)
  /\ (RecvFrame dr timeout wr).1 = (payload, true, None).
Proof.
  intros Hfs Hopen Hbuf Hwerr Hbudget Hm Hlen Hfr Hopenr Herr Hall Hbytes.
  rewrite (SendJSON_run _ _ _ _ _ _ Hfs Hopen Hbuf Hwerr Hm Hlen).
  unfold conn_Write.
  change (is_closed (set_wdeadline Armed cs)) with (is_closed cs).
  change (wbudget (set_wdeadline Armed cs)) with (wbudget cs).
  rewrite Hopen, Hbudget.
  split; [reflexivity|]. split.
  - eexists. split.
    + apply (put_framed_sock ds (mkDelimited (d_conn Ds) (d_r Ds) (mkWriter [] None))).
      destruct Hfs as [_ Hc]. eapply lookup_lt_Some; eauto.
    + reflexivity.
  - unfold frame in Hbytes. rewrite <- app_assoc in Hbytes. cbn [app] in Hbytes.
    destruct (RecvFrame_takes_frame dr timeout wr Dr cr payload tail Hfr Hopenr Herr Hall
                Hbytes (Marshal_no_zero v payload Hm)) as (r' & c' & -> & _).
    cbn [fst]. unfold received.
    replace (MaxFrameLength <? length payload) with false
      by (symmetry; apply Nat.ltb_ge; exact Hlen).
    reflexivity.
Qed.

Lemma SendJSON_frame_is_received_witness :
  (SendJSON 0 (encodeAccept session_id) (one_socket [] [])).1 = None
  /\ (RecvFrame 0 true
        (one_socket [] (segment (frame (JSON.Marshal (encodeAccept session_id)).1)))).1
     = ((JSON.Marshal (encodeAccept session_id)).1, true, None).
Proof.
  pose proof (SendJSON_frame_is_received (encodeAccept session_id)
                (JSON.Marshal (encodeAccept session_id)).1
                0 (one_socket [] []) _ _
                0 true
                (one_socket [] (segment (frame (JSON.Marshal (encodeAccept session_id)).1)))
                _ _ []
                (conj eq_refl eq_refl) eq_refl eq_refl eq_refl eq_refl
                ltac:(vm_compute; reflexivity) ltac:(vm_compute; lia)
                (conj eq_refl eq_refl) eq_refl eq_refl
                ltac:(repeat constructor) ltac:(vm_compute; reflexivity)) as H.
  destruct (SendJSON 0 (encodeAccept session_id) (one_socket [] [])) as [err ws'].
  destruct H as (-> & _ & H). split; [reflexivity|exact H].
Defined.

(** Property X3.
    A send the peer does not take whole.  When the peer accepts only
    [k] bytes, fewer than the frame has, [SendJSON] returns the error of
    the write after the first [k] bytes of the frame have gone out; the
    writer keeps that error, so that every later [SendJSON] on the
    connection returns it again and writes nothing. *)
Theorem SendJSON_failure_is_sticky
  (d : nat) (w : World) (D : Delimited) (c : Conn) (k : nat)
  (v : JSON.GoValue) (payload : list byte) (v' : JSON.GoValue) (payload' : list byte) :
  framed_on w d D c -> is_closed c = false ->
  wbuf (d_w D) = [] -> werr (d_w D) = None ->
  wbudget c = Some k -> k < length (frame payload) ->
  JSON.Marshal v = (payload, None) -> length payload <= MaxFrameLength ->
  JSON.Marshal v' = (payload', None) -> length payload' <= MaxFrameLength ->
  let '(err, w1) := SendJSON d v w in
  let '(err', w2) := SendJSON d v' w1 in
  err = Some NetReset /\ err' = Some NetReset
  /\ exists c1 c2, socks w1 !! d_conn D = Some c1 /\ socks w2 !! d_conn D = Some c2
       /\ outgoing c1 = outgoing c ++ firstn k (frame payload)
       /\ outgoing c2 = outgoing c1.
Proof.
  intros Hf Hopen Hbuf Hwerr Hbudget Hk Hm Hlen Hm' Hlen'.
  rewrite (SendJSON_run _ _ _ _ _ _ Hf Hopen Hbuf Hwerr Hm Hlen).
  unfold conn_Write.
  change (is_closed (set_wdeadline Armed c)) with (is_closed c).
  change (wbudget (set_wdeadline Armed c)) with (wbudget c).
  rewrite Hopen, Hbudget.
  fold (frame payload).
  replace (length (frame payload) <=? k) with false by (symmetry; apply Nat.leb_gt; exact Hk).
  cbn [incoming outgoing rdeadline wdeadline].
  set (c1 := mkConn _ _ _ _ _ _).
  set (D1 := mkDelimited _ _ _).
  assert (Hlt : d_conn D < length (socks w)) by (destruct Hf as [_ Hc]; eapply lookup_lt_Some; eauto).
  assert (Hf1 : framed_on (put_framed d D1 c1 w) d D1 c1) by (eapply framed_on_put; eauto).
  (* the second send *)
  unfold SendJSON. rewrite Hm'.
  replace (MaxFrameLength <? length payload') with false
    by (symmetry; apply Nat.ltb_ge; exact Hlen').
  rewrite bind_run. unfold d_SetWriteDeadline.
  rewrite (on_delim_run _ _ _ _ _ _ Hf1).
  2:{ intros a D' c'. unfold conn_SetWriteDeadline.
      change (is_closed c1) with (is_closed c). rewrite Hopen. now intros [= <- <- <-]. }
  unfold conn_SetWriteDeadline. change (is_closed c1) with (is_closed c). rewrite Hopen.
  cbn iota beta. rewrite put_framed_twice by reflexivity.
  set (c2 := set_wdeadline _ c1).
  assert (Hf2 : framed_on (put_framed d D1 c2 w) d D1 c2) by (eapply framed_on_put; eauto).
  rewrite bind_run. unfold d_Write.
  assert (Hwrite : Writer_Write payload' (d_w D1) c2 = ((0, Some NetReset), d_w D1, c2)).
  { unfold Writer_Write. cbn [Writer_Write_loop]. cbn [d_w D1 werr wbuf].
    rewrite andb_false_r. reflexivity. }
  erewrite on_delim_run; [|exact Hf2|].
  2:{ intros a D' c'. unfold on_writer. rewrite Hwrite. now intros [= <- <- <-]. }
  unfold on_writer. rewrite Hwrite. cbn iota beta.
  rewrite put_framed_twice by reflexivity. cbn [mret M_ret ret].
  split; [reflexivity|]. split; [reflexivity|].
  exists c1, c2. split_and!.
  - now apply (put_framed_sock d D1).
  - now apply (put_framed_sock d (mkDelimited (d_conn D1) (d_r D1) (d_w D1))).
  - reflexivity.
  - reflexivity.
Qed.

Lemma SendJSON_failure_is_sticky_witness :
  (SendJSON 0 (encodeHello 9000)
     (mkWorld [mkConn [] [] (Some 5) NoDeadline NoDeadline 0]
        [mkDelimited 0 (mkReader [] None) (mkWriter [] None)] [] ∅ 0 [] [] [] [])).1
  = Some NetReset.
Proof.
  pose proof (SendJSON_failure_is_sticky 0
                (mkWorld [mkConn [] [] (Some 5) NoDeadline NoDeadline 0]
                   [mkDelimited 0 (mkReader [] None) (mkWriter [] None)] [] ∅ 0 [] [] [] [])
                _ _ 5 (encodeHello 9000) (JSON.Marshal (encodeHello 9000)).1
                (encodeHello 0) (JSON.Marshal (encodeHello 0)).1
                (conj eq_refl eq_refl) eq_refl eq_refl eq_refl eq_refl
                ltac:(vm_compute; lia) ltac:(vm_compute; reflexivity) ltac:(vm_compute; lia)
                ltac:(vm_compute; reflexivity) ltac:(vm_compute; lia)) as H.
  destruct (SendJSON 0 (encodeHello 9000) _) as [err w1].
  destruct (SendJSON 0 (encodeHello 0) w1) as [err' w2].
  destruct H as (-> & _). reflexivity.
Defined.

(** ** The buffer of the reader stays within its size *)
Lemma read_events_length dl n evs : length (read_events dl n evs).1.1.1 <= n.
Proof.
  induction evs as [|ev evs IH]; [cbn; lia|].
  destruct ev as [b bs| |]; cbn [read_events].
  - cbn [fst]. rewrite length_firstn. lia.
  - destruct dl; try (cbn; lia); exact IH.
  - cbn; lia.
Qed.

Lemma conn_Read_length n c : length (conn_Read n c).1.1 <= n.
Proof.
  unfold conn_Read. destruct (is_closed c); [cbn; lia|].
  destruct (n =? 0); [cbn; lia|].
  destruct (rdeadline c) eqn:E; try (cbn; lia).
  all: pose proof (read_events_length (rdeadline c) n (incoming c)) as H; rewrite E in H.
  all: now destruct (read_events _ n (incoming c)) as [[[bs e] dl'] evs'].
Qed.

Lemma fill_bound r c :
  length (rbuf r) <= bufSize -> length (rbuf (Reader_fill r c).1) <= bufSize.
Proof.
  intros H. unfold Reader_fill.
  pose proof (conn_Read_length (bufSize - length (rbuf r)) c) as Hl.
  destruct (conn_Read _ c) as [[bs e] c']. cbn [fst] in Hl.
  destruct e; [|destruct bs]; cbn [fst rbuf]; rewrite ?length_app; cbn [length] in *; lia.
Qed.

Lemma ReadSlice_bound delim fuel : forall r c,
  length (rbuf r) <= bufSize ->
  length (rbuf (Reader_ReadSlice fuel delim r c).1.2) <= bufSize.
Proof.
  induction fuel as [|fuel IH]; intros r c H; rewrite ReadSlice_eq.
  all: destruct (Bytes.cut delim (rbuf r)) as [[line rest]|] eqn:Hcut.
  all: try (apply cut_Some_split in Hcut; destruct Hcut as (p & _ & Hb & _);
            cbn [fst snd rbuf]; rewrite Hb, length_app in H; lia).
  all: destruct (rerr r); [cbn; lia|].
  all: destruct (bufSize <=? length (rbuf r)); [cbn; lia|].
  - cbn; lia.
  - pose proof (fill_bound r c H) as Hf.
    destruct (Reader_fill r c) as [r1 c1]. now apply IH.
Qed.

Lemma collect_bound delim fuel : forall acc r c,
  length (rbuf r) <= bufSize ->
  length (rbuf (Reader_collect fuel delim acc r c).1.2) <= bufSize.
Proof.
  induction fuel as [|fuel IH]; intros acc r c H; rewrite collect_eq.
  all: match goal with
       | |- context [Reader_ReadSlice ?f ?d ?r0 ?c0] =>
           pose proof (ReadSlice_bound d f r0 c0 H) as Hs;
           destruct (Reader_ReadSlice f d r0 c0) as [[[frag e] r1] c1]
       end.
  all: cbn [fst snd] in Hs.
  all: destruct e as [[]|]; try exact Hs.
  now apply IH.
Qed.

Lemma ReadBytes_bound delim r c :
  length (rbuf r) <= bufSize ->
  length (rbuf (Reader_ReadBytes delim r c).1.2) <= bufSize.
Proof. apply collect_bound. Qed.

(** [BufferedData] on a reader that holds [rbuf] takes it all and leaves
    the socket alone. *)
Lemma BufferedData_run d w D c :
  framed_on w d D c -> length (rbuf (d_r D)) <= bufSize ->
  BufferedData d w =
    ((rbuf (d_r D), None),
     put_framed d (mkDelimited (d_conn D) (mkReader [] (rerr (d_r D))) (d_w D)) c w).
Proof.
  intros Hf Hlen. unfold BufferedData.
  rewrite bind_run. unfold d_Buffered.
  erewrite on_delim_run; [|exact Hf|now intros a D' c' [= <- <- <-]].
  cbn iota beta. unfold Reader_Buffered.
  assert (Hf1 : framed_on (put_framed d D c w) d D c) by (eapply framed_on_put; eauto).
  destruct (rbuf (d_r D)) as [|x xs] eqn:Hbuf.
  - cbn. f_equal. f_equal. destruct D as [fd [rb re] wr]. cbn in *. now subst.
  - set (n := length (x :: xs)) in *.
    assert (Hn : (n =? 0) = false) by (apply Nat.eqb_neq; subst n; cbn; lia).
    rewrite Hn. rewrite bind_run. unfold d_Peek.
    assert (Hpeek : Reader_Peek n (d_r D) c = ((x :: xs, None), d_r D, c)).
    { unfold Reader_Peek. cbn [Reader_Peek_loop]. rewrite Hbuf. fold n.
      rewrite Nat.ltb_irrefl. cbn [andb].
      replace (bufSize <? n) with false by (symmetry; apply Nat.ltb_ge; exact Hlen).
      unfold n. now rewrite firstn_all. }
    erewrite on_delim_run; [|exact Hf1|].
    2:{ intros a D' c'. unfold on_reader. rewrite Hpeek. now intros [= <- <- <-]. }
    unfold on_reader. rewrite Hpeek. cbn iota beta.
    rewrite put_framed_twice by reflexivity.
    assert (HDeq : mkDelimited (d_conn D) (d_r D) (d_w D) = D) by (now destruct D).
    rewrite HDeq. rewrite bind_run. unfold d_Discard.
    assert (Hdisc : Reader_Discard n (d_r D) c
                    = ((n, None), mkReader [] (rerr (d_r D)), c)).
    { unfold Reader_Discard. rewrite Hn. unfold n at 1.
      change (length (x :: xs)) with (S (length xs)). cbn [Reader_Discard_loop].
      rewrite Hbuf. cbn iota beta.
      replace (length (rbuf (d_r D))) with n by (rewrite Hbuf; reflexivity).
      rewrite Nat.min_id, Nat.sub_diag. cbn [Nat.eqb Nat.add].
      rewrite Hbuf. unfold n. now rewrite skipn_all. }
    erewrite on_delim_run; [|exact Hf1|].
    2:{ intros a D' c'. unfold on_reader. rewrite Hdisc. now intros [= <- <- <-]. }
    unfold on_reader. rewrite Hdisc. cbn iota beta.
    rewrite put_framed_twice by reflexivity. reflexivity.
Qed.

(** Property X4.
    The bytes behind a frame are not lost.  When a frame with the
    payload [p] is followed by [tail] in what the reader has buffered and
    the peer sends, then after [RecvFrame] has taken the frame,
    [BufferedData] returns the part of [tail] the reader had read ahead
    and empties the reader; that part and what the socket still delivers
    are [tail], so that reading the socket directly goes on where the
    frame ended. *)
Theorem BufferedData_hands_over_what_follows_the_frame
  (d : nat) (timeout : bool) (w : World) (D : Delimited) (c : Conn)
  (p tail : list byte) :
  framed_on w d D c -> is_closed c = false -> rerr (d_r D) = None ->
  length (rbuf (d_r D)) <= bufSize -> all_data (incoming c) ->
  rbuf (d_r D) ++ stream (incoming c) = frame p ++ tail ->
  ~ In x00 p ->
  let '(res, w1) := RecvFrame d timeout w in
  let '((buffered, err), w2) := BufferedData d w1 in
  res = received p /\ err = None
  /\ exists D2 c2, framed_on w2 d D2 c2 /\ rbuf (d_r D2) = []
       /\ buffered ++ stream (incoming c2) = tail.
Proof.
  intros Hf Hopen Herr Hlen Hall Hbytes Hp.
  unfold frame in Hbytes. rewrite <- app_assoc in Hbytes. cbn [app] in Hbytes.
  pose proof (RecvFrame_run d timeout w D c Hf Hopen) as Hrun.
  destruct (RecvFrame_takes_frame d timeout w D c p tail Hf Hopen Herr Hall Hbytes Hp)
    as (r' & c' & Hrecv & Htail & Herr' & Hall' & Hopen' & _).
  pose proof (ReadBytes_bound x00 (d_r D) (set_rdeadline (deadline_of timeout) c) Hlen) as Hb.
  rewrite Hrecv in Hrun.
  destruct (Reader_ReadBytes x00 (d_r D) _) as [[[out e] r''] c''].
  cbn [fst snd] in Hb.
  assert (Hw : put_framed d (mkDelimited (d_conn D) r' (d_w D)) c' w
               = put_framed d (mkDelimited (d_conn D) r'' (d_w D)) c'' w) by congruence.
  assert (Hr : r' = r'').
  { apply (f_equal (fun x => delims x !! d)) in Hw. unfold put_framed in Hw. cbn in Hw.
    destruct Hf as [HD _]. apply lookup_lt_Some in HD.
    rewrite !list_lookup_insert_eq in Hw by exact HD. congruence. }
  subst r''. rewrite Hrecv.
  set (D1 := mkDelimited (d_conn D) r' (d_w D)).
  assert (Hf1 : framed_on (put_framed d D1 c' w) d D1 c') by (eapply framed_on_put; eauto).
  rewrite (BufferedData_run d _ D1 c' Hf1 Hb).
  split; [reflexivity|]. split; [reflexivity|].
  eexists _, c'. split; [eapply framed_on_put; eauto|]. split; [reflexivity|exact Htail].
Qed.

Lemma BufferedData_hands_over_what_follows_the_frame_witness :
  let '(res, w1) :=
    RecvFrame 0 true (one_socket [] (segment (challenge_frame ++ Bytes.of_string "GET /"))) in
  let '((buffered, err), w2) := BufferedData 0 w1 in
  res = received (object1 "Challenge" (quoted "123e4567-e89b-12d3-a456-426614174000"))
  /\ err = None
  /\ exists D2 c2, framed_on w2 0 D2 c2 /\ rbuf (d_r D2) = []
       /\ buffered ++ stream (incoming c2) = Bytes.of_string "GET /".
Proof.
  apply (BufferedData_hands_over_what_follows_the_frame 0 true
           (one_socket [] (segment (challenge_frame ++ Bytes.of_string "GET /")))
           _ _ (object1 "Challenge" (quoted "123e4567-e89b-12d3-a456-426614174000"))
           (Bytes.of_string "GET /")
           (conj eq_refl eq_refl) eq_refl eq_refl ltac:(vm_compute; lia)
           ltac:(repeat constructor) eq_refl
           ltac:(vm_compute; intuition discriminate)).
Defined.

(* ================================================================== *)
(** * Further properties of the message codec *)
(* ================================================================== *)

Lemma string_body_plain_step fuel b rest acc :
  plain b = true ->
  JSON.string_body (S fuel) (b :: rest) acc = JSON.string_body fuel rest (acc ++ [b]).
Proof. destruct b; intros H; try discriminate H; reflexivity. Qed.

Lemma string_body_plain t : forall fuel rest acc,
  forallb plain t = true -> length t < fuel ->
  JSON.string_body fuel (t ++ x22 :: rest) acc = Some (acc ++ t, rest).
Proof.
  induction t as [|b t IH]; intros fuel rest acc Hp Hf.
  - destruct fuel; [cbn in Hf; lia|]. cbn. now rewrite app_nil_r.
  - destruct fuel; [cbn in Hf; lia|]. cbn [forallb] in Hp.
    apply andb_true_iff in Hp. destruct Hp as [Hb Hp].
    change ((b :: t) ++ x22 :: rest) with (b :: (t ++ x22 :: rest)).
    rewrite (string_body_plain_step _ _ _ _ Hb), IH by (auto; cbn in Hf; lia).
    now rewrite <- app_assoc.
Qed.

Lemma quote_body_plain_step fuel b rest :
  plain b = true ->
  JSON.quote_body (S fuel) (b :: rest) = b :: JSON.quote_body fuel rest.
Proof. destruct b; intros H; try discriminate H; reflexivity. Qed.

Lemma quote_body_plain t : forall fuel,
  forallb plain t = true -> length t <= fuel -> JSON.quote_body fuel t = t.
Proof.
  induction t as [|b t IH]; intros fuel Hp Hf.
  - destruct fuel; reflexivity.
  - destruct fuel; [cbn in Hf; lia|]. cbn [forallb] in Hp.
    apply andb_true_iff in Hp. destruct Hp as [Hb Hp].
    rewrite (quote_body_plain_step _ _ _ Hb), IH by (auto; cbn in Hf; lia). reflexivity.
Qed.

Lemma quote_plain t : forallb plain t = true -> JSON.quote t = x22 :: t ++ [x22].
Proof. intros H. unfold JSON.quote. now rewrite quote_body_plain. Qed.

(** A string of plain characters is parsed as itself. *)
Lemma parse_value_string fuel t rest :
  forallb plain t = true ->
  JSON.parse_value (S fuel) (x22 :: t ++ x22 :: rest)
  = Some (JSON.JString (Bytes.to_string t), rest).
Proof.
  intros Hp. cbn [JSON.parse_value JSON.skip_space JSON.is_space].
  rewrite string_body_plain by (auto; rewrite length_app; cbn; lia).
  reflexivity.
Qed.

Lemma span_digits_app ds rest :
  forallb Decimal.is_digit ds = true ->
  match rest with b :: _ => Decimal.is_digit b = false | [] => True end ->
  JSON.span_digits (ds ++ rest) = (ds, rest).
Proof.
  intros Hd Hr. induction ds as [|d ds IH].
  - destruct rest as [|b rest]; [reflexivity|]. cbn. now rewrite Hr.
  - cbn [forallb] in Hd. apply andb_true_iff in Hd. destruct Hd as [H1 H2].
    cbn. rewrite H1, IH by assumption. reflexivity.
Qed.

Lemma number_canonical ds rest :
  canonical_uint ds = true ->
  JSON.number (ds ++ "}"%byte :: rest) = Some (ds, "}"%byte :: rest).
Proof.
  destruct ds as [|h t]; [discriminate|]. unfold canonical_uint.
  intros H. apply andb_true_iff in H. destruct H as [Hd Hz].
  pose proof (span_digits_app (h :: t) ("}"%byte :: rest) Hd eq_refl) as Hspan.
  cbn [forallb] in Hd. apply andb_true_iff in Hd. destruct Hd as [Hh Ht].
  change ((h :: t) ++ "}"%byte :: rest) with (h :: (t ++ "}"%byte :: rest)) in *.
  destruct (Bytes_eqb_spec h "0"%byte) as [->|Hne].
  - cbn [negb orb] in Hz. apply Nat.eqb_eq in Hz. destruct t; [|discriminate]. reflexivity.
  - unfold JSON.number.
    destruct h; try discriminate Hh; try contradiction.
    all: rewrite Hspan; cbn; now rewrite !app_nil_r.
Qed.

Lemma parse_value_number fuel ds rest :
  canonical_uint ds = true ->
  JSON.parse_value (S fuel) (ds ++ "}"%byte :: rest)
  = Some (JSON.JNumber ds, "}"%byte :: rest).
Proof.
  intros Hc. pose proof (number_canonical ds rest Hc) as Hn.
  destruct ds as [|h t]; [discriminate|].
  unfold canonical_uint in Hc. apply andb_true_iff in Hc. destruct Hc as [Hd _].
  cbn [forallb] in Hd. apply andb_true_iff in Hd. destruct Hd as [Hh _].
  change ((h :: t) ++ "}"%byte :: rest) with (h :: (t ++ "}"%byte :: rest)) in *.
  destruct h; try discriminate Hh.
  all: cbn [JSON.parse_value JSON.skip_space JSON.is_space]; now rewrite Hn.
Qed.

(** An object with one member whose key is made of plain characters. *)
Lemma parse_value_object1 fuel kb vtext val rest :
  forallb plain kb = true ->
  (forall fuel rest, JSON.parse_value (S fuel) (vtext ++ "}"%byte :: rest)
                     = Some (val, "}"%byte :: rest)) ->
  JSON.parse_value (S (S fuel))
    ("{"%byte :: x22 :: kb ++ x22 :: ":"%byte :: vtext ++ "}"%byte :: rest)
  = Some (JSON.JObject [(Bytes.to_string kb, val)], rest).
Proof.
  intros Hk Hv. remember (S fuel) as f' eqn:Ef.
  cbn [JSON.parse_value JSON.skip_space JSON.is_space].
  rewrite string_body_plain by (auto; rewrite length_app; cbn; lia).
  cbn [JSON.skip_space JSON.is_space].
  subst f'. rewrite Hv. reflexivity.
Qed.

Lemma parse_object1 k vtext val :
  forallb plain (Bytes.of_string k) = true ->
  (forall fuel rest, JSON.parse_value (S fuel) (vtext ++ "}"%byte :: rest)
                     = Some (val, "}"%byte :: rest)) ->
  JSON.parse (object1 k vtext) = Some (JSON.JObject [(k, val)]).
Proof.
  intros Hk Hv. unfold JSON.parse, object1, quoted.
  cbn [app length]. rewrite <- app_assoc. cbn [app].
  rewrite (parse_value_object1 _ _ _ val []) by assumption.
  unfold Bytes.to_string, Bytes.of_string. rewrite string_of_list_byte_of_string.
  reflexivity.
Qed.

(** ** Decimal numbers *)
Lemma decimal_digit k :
  (0 <= k < 10)%Z ->
  Decimal.is_digit (Bytes.of_Z (48 + k)) = true
  /\ (Bytes.to_Z (Bytes.of_Z (48 + k)) - 48 = k)%Z
  /\ (Bytes.eqb (Bytes.of_Z (48 + k)) "0"%byte = Z.eqb k 0).
Proof.
  intros H.
  assert (Hc : (k = 0 \/ k = 1 \/ k = 2 \/ k = 3 \/ k = 4 \/ k = 5 \/ k = 6 \/ k = 7
                \/ k = 8 \/ k = 9)%Z) by lia.
  repeat (destruct Hc as [->|Hc]; [vm_compute; auto|]).
  rewrite Hc. vm_compute. auto.
Qed.

Lemma value_from_app l1 : forall a l2,
  Decimal.value_from a (l1 ++ l2) =
    match Decimal.value_from a l1 with
    | Some a' => Decimal.value_from a' l2
    | None => None
    end.
Proof.
  induction l1 as [|b l1 IH]; intros a l2; [reflexivity|].
  cbn [app Decimal.value_from]. destruct (Decimal.is_digit b); [apply IH|reflexivity].
Qed.

Lemma digits_fuel_eq fuel n acc :
  Decimal.digits_fuel (S fuel) n acc =
    if (n <? 10)%Z then Bytes.of_Z (48 + n mod 10) :: acc
    else Decimal.digits_fuel fuel (n / 10) (Bytes.of_Z (48 + n mod 10) :: acc).
Proof. reflexivity. Qed.

(** The digits [strconv.Itoa] writes: what it adds in front of [acc]. *)
Lemma digits_fuel_spec fuel : forall n acc,
  (0 <= n < 10 ^ Z.of_nat (S fuel))%Z ->
  exists ds,
    Decimal.digits_fuel (S fuel) n acc = ds ++ acc
    /\ canonical_uint ds = true
    /\ (forall a, Decimal.value_from a ds = Some (a * 10 ^ Z.of_nat (length ds) + n)%Z)
    /\ length ds <= S fuel.
Proof.
  induction fuel as [|fuel IH]; intros n acc Hn.
  all: rewrite digits_fuel_eq.
  all: destruct (Z.ltb_spec n 10) as [Hlt|Hge].
  all: try (exists [Bytes.of_Z (48 + n mod 10)];
            rewrite (Z.mod_small n 10) by lia;
            destruct (decimal_digit n ltac:(lia)) as (H1 & H2 & H3);
            split; [reflexivity|]; split;
            [cbn; rewrite H1; destruct (Bytes.eqb _ _); reflexivity|];
            split; [|cbn; lia];
            intros a; cbn [Decimal.value_from length]; rewrite H1, H2;
            f_equal; change (10 ^ Z.of_nat 1)%Z with 10%Z; lia).
  assert (Hq : (0 <= n / 10 < 10 ^ Z.of_nat (S fuel))%Z).
    { split; [apply Z.div_pos; lia|].
      apply Z.div_lt_upper_bound; [lia|].
      replace (Z.of_nat (S (S fuel))) with (Z.succ (Z.of_nat (S fuel))) in Hn by lia.
      rewrite Z.pow_succ_r in Hn by lia. lia. }
    destruct (IH (n / 10)%Z (Bytes.of_Z (48 + n mod 10) :: acc) Hq)
      as (ds & Heq & Hcan & Hval & Hlen).
    pose proof (Z.mod_pos_bound n 10 ltac:(lia)) as Hm.
    destruct (decimal_digit (n mod 10)%Z Hm) as (H1 & H2 & H3).
    exists (ds ++ [Bytes.of_Z (48 + n mod 10)]).
    split; [rewrite Heq, <- app_assoc; reflexivity|].
    split; [|split].
    + destruct ds as [|h t]; [discriminate|].
      unfold canonical_uint in *. cbn [app].
      apply andb_true_iff in Hcan. destruct Hcan as [Hd Hz].
      apply andb_true_iff. split.
      * change (h :: t ++ [Bytes.of_Z (48 + n mod 10)])
          with ((h :: t) ++ [Bytes.of_Z (48 + n mod 10)]).
        rewrite forallb_app, Hd. cbn. now rewrite H1.
      * destruct (Bytes_eqb_spec h "0"%byte) as [->|Hne]; [|reflexivity].
        exfalso. cbn [negb orb] in Hz. apply Nat.eqb_eq in Hz.
        destruct t; [|discriminate].
        specialize (Hval 0%Z). cbn in Hval. inversion Hval as [Hv].
        assert (n / 10 > 0)%Z by (apply Z.lt_gt, Z.div_str_pos; lia). lia.
    + intros a. rewrite value_from_app, Hval. cbn [Decimal.value_from]. rewrite H1, H2.
      f_equal. rewrite length_app. cbn [length].
      replace (Z.of_nat (length ds + 1)) with (Z.succ (Z.of_nat (length ds))) by lia.
      rewrite Z.pow_succ_r by lia.
      pose proof (Z.div_mod n 10 ltac:(lia)). lia.
    + rewrite length_app. cbn [length]. lia.
Qed.

Lemma Itoa_spec n :
  (0 <= n)%Z ->
  canonical_uint (Decimal.Itoa n) = true
  /\ Decimal.value (Decimal.Itoa n) = Some n
  /\ length (Decimal.Itoa n) <= S (Z.to_nat (Z.log2 n)).
Proof.
  intros Hn. unfold Decimal.Itoa.
  assert (Hb : (0 <= n < 10 ^ Z.of_nat (S (Z.to_nat (Z.log2 n))))%Z).
  { split; [exact Hn|].
    destruct (Z.eq_dec n 0%Z) as [->|Hne]; [reflexivity|].
    pose proof (Z.log2_spec n ltac:(lia)) as [_ Hl].
    pose proof (Z.log2_nonneg n) as Hl0.
    replace (Z.of_nat (S (Z.to_nat (Z.log2 n)))) with (Z.succ (Z.log2 n)) by lia.
    eapply Z.lt_le_trans; [exact Hl|].
    apply Z.pow_le_mono_l. lia. }
  destruct (digits_fuel_spec _ n [] Hb) as (ds & Heq & Hcan & Hval & Hlen).
  rewrite Heq, app_nil_r. split; [exact Hcan|]. split; [|exact Hlen].
  unfold Decimal.value. destruct ds as [|h t]; [discriminate|].
  rewrite Hval. f_equal; lia.
Qed.

(** ** The message of a parsed object with one member *)
Lemma decode_object1 data k v :
  JSON.parse data = Some (JSON.JObject [(k, v)]) ->
  decodeServerMessage data =
    if String.eqb k "Hello" then
      let '(port, err) := JSON.decode_uint16 v 0 in
      match err with
      | Some e => (ServerMessage_zero, Some (InvalidHello e))
      | None => (mkServerMessage ServerHello port uuid_Nil EmptyString, None)
      end
    else if String.eqb k "Challenge" then
      let '(raw, err) := JSON.decode_string v EmptyString in
      match err with
      | Some e => (ServerMessage_zero, Some (InvalidChallenge e))
      | None =>
          let '(id, err) := uuid.Parse raw in
          match err with
          | Some e => (ServerMessage_zero, Some (InvalidChallengeUUID e))
          | None => (mkServerMessage ServerChallenge 0 id EmptyString, None)
          end
      end
    else if String.eqb k "Connection" then
      let '(raw, err) := JSON.decode_string v EmptyString in
      match err with
      | Some e => (ServerMessage_zero, Some (InvalidConnection e))
      | None =>
          let '(id, err) := uuid.Parse raw in
          match err with
          | Some e => (ServerMessage_zero, Some (InvalidConnectionUUID e))
          | None => (mkServerMessage ServerConnection 0 id EmptyString, None)
          end
      end
    else if String.eqb k "Error" then
      let '(msg, err) := JSON.decode_string v EmptyString in
      match err with
      | Some e => (ServerMessage_zero, Some (InvalidErrorMessage e))
      | None => (mkServerMessage ServerError 0 uuid_Nil msg, None)
      end
    else (ServerMessage_zero, Some (UnknownKind k)).
Proof.
  intros Hp. unfold decodeServerMessage, JSON.Unmarshal_string, JSON.Unmarshal_map.
  rewrite Hp. cbn [JSON.decode_string JSON.decode_map].
  unfold JSON.object_map. cbn [fold_left fst snd].
  rewrite insert_empty, map_size_singleton. cbn [Nat.eqb negb].
  rewrite map_to_list_singleton. reflexivity.
Qed.

(** ** The messages on the wire *)
Lemma Marshal_object k body v :
  forallb plain (Bytes.of_string k) = true ->
  JSON.Marshal v = (body, None) ->
  JSON.Marshal (JSON.VMap1 k v) = (object1 k body, None).
Proof.
  intros Hk Hv. cbn [JSON.Marshal]. rewrite Hv, (quote_plain _ Hk). reflexivity.
Qed.

(** Property X5.
    A [Hello] is read back as it was written: the relay answers the
    [Hello] of the client with a message of the same form, and for every
    port [decodeServerMessage] gives the port [encodeHello] was given. *)
Theorem decodeServerMessage_reads_back_Hello (port : Z) :
  (0 <= port <= 65535)%Z ->
  decodeServerMessage (JSON.Marshal (encodeHello port)).1
  = (mkServerMessage ServerHello port uuid_Nil EmptyString, None).
Proof.
  intros Hp. destruct (Itoa_spec port ltac:(lia)) as (Hcan & Hval & _).
  unfold encodeHello.
  rewrite (Marshal_object "Hello" (Decimal.Itoa port) (JSON.VUint16 port) eq_refl eq_refl).
  cbn [fst].
  rewrite (decode_object1 _ "Hello" (JSON.JNumber (Decimal.Itoa port))).
  2:{ apply parse_object1; [reflexivity|]. intros fuel rest.
      now apply parse_value_number. }
  cbn [String.eqb Ascii.eqb Bool.eqb JSON.decode_uint16]. rewrite Hval.
  replace (port <=? 65535)%Z with true by (symmetry; apply Z.leb_le; lia).
  reflexivity.
Qed.

Lemma decodeServerMessage_reads_back_Hello_witness :
  decodeServerMessage (JSON.Marshal (encodeHello 9000)).1
  = (mkServerMessage ServerHello 9000 uuid_Nil EmptyString, None).
Proof. apply (decodeServerMessage_reads_back_Hello 9000). lia. Defined.

(** ** Ids *)
Lemma xtob_digit (b : byte) :
  Hex.xtob (Hex.digit (Z.shiftr (Bytes.to_Z b) 4)) (Hex.digit (Z.land (Bytes.to_Z b) 15))
  = Some b.
Proof. destruct b; vm_compute; reflexivity. Qed.

Lemma hex_digits_plain (b : byte) :
  plain (Hex.digit (Z.shiftr (Bytes.to_Z b) 4)) = true
  /\ plain (Hex.digit (Z.land (Bytes.to_Z b) 15)) = true.
Proof. destruct b; vm_compute; auto. Qed.

Lemma hex_encode_plain bs : forallb plain (Hex.encode bs) = true.
Proof.
  induction bs as [|b bs IH]; [reflexivity|].
  cbn [Hex.encode forallb]. destruct (hex_digits_plain b) as [-> ->]. exact IH.
Qed.

Lemma uuid_String_plain id : forallb plain (uuid.String id) = true.
Proof.
  unfold uuid.String.
  repeat (rewrite forallb_app || rewrite hex_encode_plain || cbn [forallb andb]).
  reflexivity.
Qed.

Lemma uuid_String_length id : length id = 16 -> length (uuid.String id) = 36.
Proof.
  intros H. unfold uuid.String.
  repeat (rewrite length_app || rewrite hex_encode_length || rewrite length_firstn
          || rewrite length_skipn || cbn [length]).
  lia.
Qed.

(** [uuid.Parse] reads the canonical text [String] writes. *)
Lemma uuid_Parse_String id :
  length id = 16 -> uuid.Parse (Bytes.to_string (uuid.String id)) = (id, None).
Proof.
  intros H.
  do 17 (destruct id as [|? id]; try discriminate H). clear H.
  unfold uuid.Parse, Bytes.to_string, Bytes.of_string.
  rewrite list_byte_of_string_of_list_byte.
  cbn -[Hex.digit Hex.xtob Z.shiftr Z.land Bytes.to_Z].
  rewrite !xtob_digit. reflexivity.
Qed.

Lemma parse_object1_string k t :
  forallb plain (Bytes.of_string k) = true -> forallb plain t = true ->
  JSON.parse (object1 k (x22 :: t ++ [x22]))
  = Some (JSON.JObject [(k, JSON.JString (Bytes.to_string t))]).
Proof.
  intros Hk Ht. apply parse_object1; [exact Hk|]. intros fuel rest.
  cbn [app]. rewrite <- app_assoc. cbn [app]. now apply parse_value_string.
Qed.

(** Property X6.
    The id of a [Connection] or [Challenge] message that is written in
    the canonical form, the form [uuid.String] writes and [encodeAccept]
    sends, is read as it is: for every id of 16 bytes the message decodes
    to the kind of its key with that id. *)
Theorem decodeServerMessage_reads_canonical_ids (id : UUID) :
  length id = 16 ->
  decodeServerMessage (object1 "Connection" (x22 :: uuid.String id ++ [x22]))
  = (mkServerMessage ServerConnection 0 id EmptyString, None)
  /\ decodeServerMessage (object1 "Challenge" (x22 :: uuid.String id ++ [x22]))
     = (mkServerMessage ServerChallenge 0 id EmptyString, None).
Proof.
  intros Hlen. pose proof (uuid_String_plain id) as Hpl.
  split.
  - rewrite (decode_object1 _ _ _ (parse_object1_string "Connection" _ eq_refl Hpl)).
    cbn [String.eqb Ascii.eqb Bool.eqb JSON.decode_string].
    now rewrite (uuid_Parse_String id Hlen).
  - rewrite (decode_object1 _ _ _ (parse_object1_string "Challenge" _ eq_refl Hpl)).
    cbn [String.eqb Ascii.eqb Bool.eqb JSON.decode_string].
    now rewrite (uuid_Parse_String id Hlen).
Qed.

Lemma decodeServerMessage_reads_canonical_ids_witness :
  decodeServerMessage (object1 "Connection" (x22 :: uuid.String session_id ++ [x22]))
  = (mkServerMessage ServerConnection 0 session_id EmptyString, None)
  /\ decodeServerMessage (object1 "Challenge" (x22 :: uuid.String session_id ++ [x22]))
     = (mkServerMessage ServerChallenge 0 session_id EmptyString, None).
Proof. apply (decodeServerMessage_reads_canonical_ids session_id). reflexivity. Defined.

Lemma Answer_digits a challenge :
  exists mac, length mac = 32 /\ Answer a challenge = Bytes.to_string (Hex.encode mac).
Proof.
  unfold Answer, Hex.EncodeToString. rewrite hmac_streaming.
  eexists. split; [|reflexivity]. unfold Spec.hmac_sha256. apply Sum256_length.
Qed.

Lemma Marshal_encodeHello port :
  (0 <= port <= 65535)%Z ->
  JSON.Marshal (encodeHello port) = (object1 "Hello" (Decimal.Itoa port), None)
  /\ length (object1 "Hello" (Decimal.Itoa port)) <= MaxFrameLength.
Proof.
  intros Hp.
  split; [apply (Marshal_object "Hello" _ (JSON.VUint16 port)); reflexivity|].
  destruct (Itoa_spec port ltac:(lia)) as (_ & _ & Hl).
  assert (Z.log2 port <= 16)%Z.
  { destruct (Z.eq_dec port 0%Z) as [->|Hne]; [cbn; lia|].
    apply Z.lt_succ_r, Z.log2_lt_pow2; [lia|]. cbn. lia. }
  unfold object1, quoted, MaxFrameLength.
  repeat first [rewrite length_app | progress cbn [length]].
  change (length (Bytes.of_string "Hello")) with 5. lia.
Qed.

Lemma Marshal_encodeAuthenticate a challenge :
  JSON.Marshal (encodeAuthenticate (Answer a challenge))
  = (object1 "Authenticate" (quoted (Answer a challenge)), None)
  /\ length (object1 "Authenticate" (quoted (Answer a challenge))) = 83.
Proof.
  destruct (Answer_digits a challenge) as (mac & Hmac & ->).
  assert (Hq : JSON.quote (Hex.encode mac) = x22 :: Hex.encode mac ++ [x22])
    by (apply quote_plain, hex_encode_plain).
  split.
  - apply (Marshal_object "Authenticate" _ (JSON.VString _)); [reflexivity|].
    cbn [JSON.Marshal]. unfold quoted, Bytes.to_string, Bytes.of_string.
    rewrite list_byte_of_string_of_list_byte. now rewrite Hq.
  - unfold object1, quoted, Bytes.to_string, Bytes.of_string.
    rewrite list_byte_of_string_of_list_byte.
    repeat first [rewrite length_app | progress cbn [length]].
    rewrite hex_encode_length, Hmac.
    change (length (list_byte_of_string "Authenticate")) with 12. reflexivity.
Qed.

Lemma Marshal_encodeAccept id :
  length id = 16 ->
  JSON.Marshal (encodeAccept id)
  = (object1 "Accept" (x22 :: uuid.String id ++ [x22]), None)
  /\ length (object1 "Accept" (x22 :: uuid.String id ++ [x22])) = 49.
Proof.
  intros Hid.
  assert (Hq : JSON.quote (uuid.String id) = x22 :: uuid.String id ++ [x22])
    by (apply quote_plain, uuid_String_plain).
  split.
  - apply (Marshal_object "Accept" _ (JSON.VText _)); [reflexivity|].
    cbn [JSON.Marshal]. now rewrite Hq.
  - unfold object1, quoted.
    repeat first [rewrite length_app | progress cbn [length]].
    rewrite (uuid_String_length id Hid).
    change (length (Bytes.of_string "Accept")) with 6. reflexivity.
Qed.

(** Property X7.
    The messages of the client on the wire.  For every port of 16 bits,
    every key and challenge and every id of 16 bytes: the [Hello] is
    the object with the key [Hello] and the port in decimal, the
    [Authenticate] the object with the answer in quotes, 83 bytes, and the
    [Accept] the object with the canonical text of the id in quotes, 49
    bytes; none is longer than a frame may be, so that [SendJSON] does
    not refuse any of them for its length. *)
Theorem client_messages_fit_a_frame
  (port : Z) (a : Authenticator) (challenge : UUID) (id : UUID) :
  (0 <= port <= 65535)%Z -> length id = 16 ->
  (JSON.Marshal (encodeHello port) = (object1 "Hello" (Decimal.Itoa port), None)
   /\ length (object1 "Hello" (Decimal.Itoa port)) <= MaxFrameLength)
  /\ (JSON.Marshal (encodeAuthenticate (Answer a challenge))
      = (object1 "Authenticate" (quoted (Answer a challenge)), None)
      /\ length (object1 "Authenticate" (quoted (Answer a challenge))) = 83)
  /\ (JSON.Marshal (encodeAccept id)
      = (object1 "Accept" (x22 :: uuid.String id ++ [x22]), None)
      /\ length (object1 "Accept" (x22 :: uuid.String id ++ [x22])) = 49).
Proof.
  intros Hp Hid. split; [|split].
  - now apply Marshal_encodeHello.
  - apply Marshal_encodeAuthenticate.
  - now apply Marshal_encodeAccept.
Qed.

Lemma client_messages_fit_a_frame_witness :
  (JSON.Marshal (encodeHello 9000) = (object1 "Hello" (Decimal.Itoa 9000), None)
   /\ length (object1 "Hello" (Decimal.Itoa 9000)) <= MaxFrameLength)
  /\ (JSON.Marshal (encodeAuthenticate (Answer (NewAuthenticator "s3cret") session_id))
      = (object1 "Authenticate" (quoted (Answer (NewAuthenticator "s3cret") session_id)), None)
      /\ length (object1 "Authenticate"
                   (quoted (Answer (NewAuthenticator "s3cret") session_id))) = 83)
  /\ (JSON.Marshal (encodeAccept session_id)
      = (object1 "Accept" (x22 :: uuid.String session_id ++ [x22]), None)
      /\ length (object1 "Accept" (x22 :: uuid.String session_id ++ [x22])) = 49).
Proof.
  apply (client_messages_fit_a_frame 9000 (NewAuthenticator "s3cret") session_id session_id);
    [lia|reflexivity].
Defined.

(** ** What a decoded message looks like *)
Lemma value_from_nonneg l : forall a n,
  (0 <= a)%Z -> Decimal.value_from a l = Some n -> (0 <= n)%Z.
Proof.
  induction l as [|b l IH]; intros a n Ha; cbn [Decimal.value_from].
  - now intros [= <-].
  - destruct (Decimal.is_digit b) eqn:Hd; [|discriminate].
    apply IH. unfold Decimal.is_digit in Hd. apply andb_true_iff in Hd.
    destruct Hd as [Hd _]. apply Z.leb_le in Hd. lia.
Qed.

Lemma decode_uint16_range v port :
  JSON.decode_uint16 v 0 = (port, None) -> (0 <= port <= 65535)%Z.
Proof.
  destruct v as [|b|lit|s|elems|ms]; cbn [JSON.decode_uint16]; try discriminate.
  - intros [= <-]. lia.
  - destruct (Decimal.value lit) as [n|] eqn:Hv; [|discriminate].
    destruct (Z.leb_spec n 65535); [|discriminate]. intros [= <-].
    split; [|assumption]. unfold Decimal.value in Hv.
    destruct lit; [discriminate|]. eapply value_from_nonneg; [|exact Hv]. lia.
Qed.

Lemma bytes_at_length s xs : forall l, uuid.bytes_at s xs = Some l -> length l = length xs.
Proof.
  induction xs as [|x xs IH]; intros l; cbn [uuid.bytes_at].
  - now intros [= <-].
  - destruct (s !! x), (s !! S x); try discriminate.
    destruct (Hex.xtob _ _); [|discriminate].
    destruct (uuid.bytes_at s xs) as [vs|]; [|discriminate].
    intros [= <-]. cbn. now rewrite (IH vs eq_refl).
Qed.

Lemma uuid_Parse_length str id : uuid.Parse str = (id, None) -> length id = 16.
Proof.
  assert (Hp : forall o, uuid.parsed o = (id, None) ->
                 (forall l, o = Some l -> length l = 16) -> length id = 16).
  { intros [l|]; cbn; [|discriminate]. intros [= <-] H. now apply H. }
  assert (Hc : forall s l, uuid.canonical s = Some l -> length l = 16).
  { intros s l. unfold uuid.canonical.
    match goal with |- (if ?c then _ else _) = _ -> _ => destruct c end; [|discriminate].
    intros H. now apply bytes_at_length in H. }
  unfold uuid.Parse.
  destruct (_ =? 36); [intros H; eapply Hp; eauto|].
  destruct (_ =? 45).
  { destruct (Bytes.list_eqb _ _); [intros H; eapply Hp; eauto|discriminate]. }
  destruct (_ =? 38); [intros H; eapply Hp; eauto|].
  destruct (_ =? 32); [|discriminate].
  intros H. eapply Hp; [exact H|]. intros l Hl. now apply bytes_at_length in Hl.
Qed.

(** Property X8.
    A decoded message is whole or empty.  With an error
    [decodeServerMessage] returns the zero message.  Without one the
    message has one of the five kinds and only the field of its kind is
    set: a hello has a port of 16 bits, a challenge and a connection an id
    of 16 bytes, an error its text. *)
Theorem decodeServerMessage_result_is_well_formed (data : list byte) :
  let '(m, err) := decodeServerMessage data in
  match err with
  | Some _ => m = ServerMessage_zero
  | None =>
      match Kind m with
      | ServerHeartbeat => m = heartbeat
      | ServerHello =>
          (0 <= Port m <= 65535)%Z /\ ID m = uuid_Nil /\ ErrorText m = EmptyString
      | ServerChallenge | ServerConnection =>
          length (ID m) = 16 /\ Port m = 0%Z /\ ErrorText m = EmptyString
      | ServerError => Port m = 0%Z /\ ID m = uuid_Nil
      | KindNone => False
      end
  end.
Proof.
  unfold decodeServerMessage.
  destruct (JSON.Unmarshal_string data EmptyString) as [unit [e|]].
  2:{ destruct (String.eqb unit "Heartbeat"); reflexivity. }
  destruct (JSON.Unmarshal_map data) as [obj [e'|]]; [reflexivity|].
  destruct (negb (size obj =? 1)); [reflexivity|].
  destruct (map_to_list obj) as [|[k v] rest]; [reflexivity|].
  destruct (String.eqb k "Hello").
  { destruct (JSON.decode_uint16 v 0) as [port [e1|]] eqn:Hd; [reflexivity|].
    cbn. split; [|auto]. now apply (decode_uint16_range v). }
  destruct (String.eqb k "Challenge").
  { destruct (JSON.decode_string v EmptyString) as [raw [e1|]]; [reflexivity|].
    destruct (uuid.Parse raw) as [id [e2|]] eqn:Hu; [reflexivity|].
    cbn. split; [|auto]. now apply (uuid_Parse_length raw). }
  destruct (String.eqb k "Connection").
  { destruct (JSON.decode_string v EmptyString) as [raw [e1|]]; [reflexivity|].
    destruct (uuid.Parse raw) as [id [e2|]] eqn:Hu; [reflexivity|].
    cbn. split; [|auto]. now apply (uuid_Parse_length raw). }
  destruct (String.eqb k "Error").
  { destruct (JSON.decode_string v EmptyString) as [msg [e1|]]; [reflexivity|]. cbn. auto. }
  reflexivity.
Qed.

(* ================================================================== *)
(** * The handshake *)
(* ================================================================== *)

Lemma reads_only_set_rdeadline dl c c' :
  reads_only (set_rdeadline dl c) c' -> reads_only c c'.
Proof. exact (fun H => H). Qed.

Lemma all_data_stream_nil evs : all_data evs -> stream evs = [] -> evs = [].
Proof.
  intros Hall Hs. destruct evs as [|ev evs]; [reflexivity|].
  inversion Hall as [|? ? Hev _]; subst. destruct ev; discriminate.
Qed.

(** [RecvFrame] at the clean end of a stream. *)
Lemma RecvFrame_at_end d timeout w D c :
  framed_on w d D c -> is_closed c = false -> rerr (d_r D) = None ->
  rbuf (d_r D) = [] -> incoming c = [] ->
  exists r' c',
    RecvFrame d timeout w =
      (([], false, None), put_framed d (mkDelimited (d_conn D) r' (d_w D)) c' w)
    /\ is_closed c' = false /\ reads_only c c'.
Proof.
  intros Hf Hopen Herr Hbuf Hin.
  rewrite (RecvFrame_run _ _ _ _ _ Hf Hopen).
  pose proof (ReadBytes_next_frame x00 (d_r D) (set_rdeadline (deadline_of timeout) c)
                Herr Hopen ltac:(destruct timeout; discriminate)
                ltac:(rewrite Hbuf; reflexivity)) as Hnf.
  pose proof (ReadBytes_conserves x00 (d_r D) (set_rdeadline (deadline_of timeout) c)) as Hc.
  destruct (Reader_ReadBytes x00 (d_r D) _) as [[[out e] r'] c'].
  destruct Hnf as [Hnf _]. cbn [incoming set_rdeadline rdeadline] in Hnf.
  rewrite Hbuf, Hin in Hnf. cbn in Hnf. inversion Hnf; subst out e.
  destruct Hc as (_ & Hro & _).
  exists r', c'. split; [reflexivity|]. split; [|exact Hro].
  destruct Hro as (_ & _ & _ & Hcl). unfold is_closed in *. now rewrite Hcl.
Qed.

(** [RecvServer] on a stream whose next frame has the payload [p], of
    at most 256 bytes: the message is what [decodeServerMessage] makes of
    [p]. *)
Lemma RecvServer_takes_frame d timeout w D c p tail :
  framed_on w d D c -> is_closed c = false -> rerr (d_r D) = None ->
  all_data (incoming c) ->
  rbuf (d_r D) ++ stream (incoming c) = p ++ x00 :: tail ->
  ~ In x00 p -> length p <= MaxFrameLength ->
  exists r' c',
    RecvServer d timeout w =
      (((decodeServerMessage p).1, true, (decodeServerMessage p).2),
       put_framed d (mkDelimited (d_conn D) r' (d_w D)) c' w)
    /\ rbuf r' ++ stream (incoming c') = tail
    /\ rerr r' = None /\ all_data (incoming c') /\ is_closed c' = false
    /\ reads_only c c'.
Proof.
  intros Hf Hopen Herr Hall Hbytes Hp Hlen.
  destruct (RecvFrame_takes_frame d timeout w D c p tail Hf Hopen Herr Hall Hbytes Hp)
    as (r' & c' & Hrecv & Hrest).
  exists r', c'. split; [|exact Hrest].
  unfold RecvServer. rewrite bind_run, Hrecv. unfold received.
  replace (MaxFrameLength <? length p) with false by (symmetry; apply Nat.ltb_ge; exact Hlen).
  cbn [not_nil negb orb]. now destruct (decodeServerMessage p).
Qed.

Lemma RecvServer_at_end d timeout w D c :
  framed_on w d D c -> is_closed c = false -> rerr (d_r D) = None ->
  rbuf (d_r D) = [] -> incoming c = [] ->
  exists r' c',
    RecvServer d timeout w =
      ((ServerMessage_zero, false, None),
       put_framed d (mkDelimited (d_conn D) r' (d_w D)) c' w)
    /\ is_closed c' = false /\ reads_only c c'.
Proof.
  intros Hf Hopen Herr Hbuf Hin.
  destruct (RecvFrame_at_end d timeout w D c Hf Hopen Herr Hbuf Hin)
    as (r' & c' & Hrecv & Hrest).
  exists r', c'. split; [|exact Hrest].
  unfold RecvServer. now rewrite bind_run, Hrecv.
Qed.

(** Property X9.
    The handshake answers a challenge and nothing else.  On an open
    connection with an empty writer whose peer takes what is written:
    when the relay has closed the stream, the handshake fails with the
    unexpected-EOF error; when the next frame is not a message, with the
    error of the decoder; when it is a message other than a challenge,
    with the unexpected-handshake error; in these cases not a byte is
    written.  When it is a challenge, the handshake succeeds and the
    socket gets one frame, the [Authenticate] with the answer to the id
    of the challenge. *)
Theorem ClientHandshake_answers_only_a_challenge
  (a : Authenticator) (d : nat) (w : World) (D : Delimited) (c : Conn)
  (next : option (list byte)) (tail : list byte) :
  framed_on w d D c -> is_closed c = false -> rerr (d_r D) = None ->
  all_data (incoming c) ->
  wbuf (d_w D) = [] -> werr (d_w D) = None -> wbudget c = None ->
  match next with
  | Some p =>
      rbuf (d_r D) ++ stream (incoming c) = frame p ++ tail
      /\ ~ In x00 p /\ length p <= MaxFrameLength
  | None => rbuf (d_r D) = [] /\ incoming c = []
  end ->
  let '(err, w') := ClientHandshake a d w in
  exists c', socks w' !! d_conn D = Some c' /\
    match next with
    | None => err = Some ErrUnexpectedEOF /\ outgoing c' = outgoing c
    | Some p =>
        let '(msg, derr) := decodeServerMessage p in
        match derr with
        | Some e => err = Some e /\ outgoing c' = outgoing c
        | None =>
            match Kind msg with
            | ServerChallenge =>
                err = None
                /\ outgoing c' =
                     outgoing c
                     ++ frame (object1 "Authenticate" (quoted (Answer a (ID msg))))
            | _ => err = Some ErrUnexpectedHandshake /\ outgoing c' = outgoing c
            end
        end
    end.
Proof.
  intros Hf Hopen Herr Hall Hwbuf Hwerr Hbudget Hnext.
  assert (Hlt : d_conn D < length (socks w))
    by (destruct Hf as [_ Hc]; eapply lookup_lt_Some; eauto).
  unfold ClientHandshake. rewrite bind_run.
  destruct next as [p|].
  - destruct Hnext as (Hbytes & Hp & Hlen).
    unfold frame in Hbytes. rewrite <- app_assoc in Hbytes. cbn [app] in Hbytes.
    destruct (RecvServer_takes_frame d true w D c p tail Hf Hopen Herr Hall Hbytes Hp Hlen)
      as (r' & c' & -> & _ & _ & _ & Hopen' & Hro).
    set (D1 := mkDelimited (d_conn D) r' (d_w D)).
    assert (Hs1 : socks (put_framed d D1 c' w) !! d_conn D = Some c')
      by (apply (put_framed_sock d D1); exact Hlt).
    destruct Hro as (Hout & Hbud & _ & _).
    destruct (decodeServerMessage p) as [msg [e|]]; cbn [fst snd negb].
    { exists c'. auto. }
    assert (Hother : forall k, Kind msg = k -> k <> ServerChallenge ->
              exists c'0, socks (put_framed d D1 c' w) !! d_conn D = Some c'0 /\
                Some ErrUnexpectedHandshake = Some ErrUnexpectedHandshake
                /\ outgoing c'0 = outgoing c) by (intros; exists c'; auto).
    destruct (Kind msg) eqn:HK; cbn [mret M_ret ret].
    all: try (exists c'; auto; fail).
    destruct (Marshal_encodeAuthenticate a (ID msg)) as [Hm Hl].
    assert (Hf1 : framed_on (put_framed d D1 c' w) d D1 c') by (eapply framed_on_put; eauto).
    rewrite (SendJSON_run d _ _ D1 c' _ Hf1 Hopen' Hwbuf Hwerr Hm
               ltac:(rewrite Hl; unfold MaxFrameLength; lia)).
    unfold conn_Write.
    change (is_closed (set_wdeadline Armed c')) with (is_closed c').
    change (wbudget (set_wdeadline Armed c')) with (wbudget c').
    rewrite Hopen', Hbud, Hbudget.
    eexists. split.
    + rewrite put_framed_twice by reflexivity.
      apply (put_framed_sock d (mkDelimited (d_conn D1) (d_r D1) (mkWriter [] None))).
      exact Hlt.
    + split; [reflexivity|]. cbn [outgoing set_wdeadline]. now rewrite Hout.
  - destruct Hnext as [Hbuf Hin].
    destruct (RecvServer_at_end d true w D c Hf Hopen Herr Hbuf Hin)
      as (r' & c' & -> & _ & (Hout & _)).
    cbn [negb mret M_ret ret]. exists c'. split; [|auto].
    apply (put_framed_sock d (mkDelimited (d_conn D) r' (d_w D))). exact Hlt.
Qed.

Lemma ClientHandshake_answers_only_a_challenge_witness :
  (ClientHandshake (NewAuthenticator "s3cret") 0
     (one_socket [] (segment challenge_frame))).1 = None.
Proof.
  set (W := one_socket [] (segment challenge_frame)).
  set (D := mkDelimited 0 (mkReader [] None) (mkWriter [] None)).
  set (c := mkConn (segment challenge_frame) [] None NoDeadline NoDeadline 0).
  set (p := object1 "Challenge" (quoted "123e4567-e89b-12d3-a456-426614174000")).
  assert (H1 : framed_on W 0 D c) by (split; reflexivity).
  assert (H2 : all_data (incoming c)) by (repeat constructor).
  assert (H3 : rbuf (d_r D) ++ stream (incoming c) = frame p ++ []
               /\ ~ In x00 p /\ length p <= MaxFrameLength).
  { split; [vm_compute; reflexivity|]. split; [vm_compute; intuition discriminate|].
    vm_compute; lia. }
  pose proof (ClientHandshake_answers_only_a_challenge (NewAuthenticator "s3cret") 0
                W D c (Some p) [] H1 eq_refl eq_refl H2 eq_refl eq_refl eq_refl H3) as H.
  destruct (ClientHandshake (NewAuthenticator "s3cret") 0 W) as [err w'].
  destruct H as (c' & _ & H).
  destruct (decodeServerMessage _) as [msg derr] eqn:Hd.
  vm_compute in Hd. injection Hd as <- <-. cbn [Kind] in H. exact (proj1 H).
Defined.

(* ================================================================== *)
(** * The proxy under every schedule *)
(* ================================================================== *)

Lemma closed_on_sock {A} fd fd' (bad : A) f w :
  (forall c, is_closed c = true -> is_closed (f c).2 = true) ->
  closed fd w -> closed fd (on_sock fd' bad f w).2.
Proof.
  intros Hf (s & Hs & Hc). unfold on_sock.
  destruct (socks w !! fd') as [c|] eqn:E; [|exists s; auto].
  destruct (f c) as [x c'] eqn:Efc. unfold closed. cbn [snd socks with_socks].
  destruct (decide (fd' = fd)) as [->|Hne].
  - exists c'. split; [apply list_lookup_insert_eq; eapply lookup_lt_Some; eauto|].
    assert (c = s) by congruence. subst c.
    specialize (Hf s Hc). now rewrite Efc in Hf.
  - exists s. split; [|exact Hc]. now rewrite list_lookup_insert_ne.
Qed.

Lemma conn_Read_closed n c : is_closed c = true -> is_closed (conn_Read n c).2 = true.
Proof. intros H. unfold conn_Read. now rewrite H. Qed.

Lemma conn_Write_closed p c : is_closed c = true -> is_closed (conn_Write p c).2 = true.
Proof. intros H. unfold conn_Write. now rewrite H. Qed.

Lemma conn_Close_closed c : is_closed (conn_Close c).2 = true.
Proof. reflexivity. Qed.

Lemma closed_copy_step fd dst src st w :
  closed fd w -> closed fd (copy_step dst src st w).2.
Proof.
  intros H. destruct st as [|chunk er|e]; cbn [copy_step].
  - rewrite bind_run. unfold net_Read.
    pose proof (closed_on_sock fd src ([], Some NetClosed) (conn_Read copyBufSize) w
                  (conn_Read_closed _) H) as H'.
    destruct (on_sock src _ _ w) as [[chunk er] w']. now destruct chunk.
  - rewrite bind_run. unfold net_Write.
    pose proof (closed_on_sock fd dst (0, Some NetClosed) (conn_Write chunk) w
                  (conn_Write_closed _) H) as H'.
    destruct (on_sock dst _ _ w) as [[nw [e|]] w']; [exact H'|].
    now destruct (negb _).
  - exact H.
Qed.

Lemma closed_net_Close fd fd' w : closed fd w -> closed fd (net_Close fd' w).2.
Proof. apply closed_on_sock. intros c _. apply conn_Close_closed. Qed.

Lemma net_Close_closed fd w : fd < length (socks w) -> closed fd (net_Close fd w).2.
Proof.
  intros H. destruct (net_Close_closes fd w H) as (s & Hs & Hc & _). now exists s.
Qed.

Lemma length_socks_on_sock {A} fd (bad : A) f w :
  length (socks (on_sock fd bad f w).2) = length (socks w).
Proof. apply (frames_on_sock fd bad f w). Qed.

Lemma length_socks_copy_step dst src st w :
  length (socks (copy_step dst src st w).2) = length (socks w).
Proof.
  destruct st as [|chunk er|e]; cbn [copy_step]; [| |reflexivity].
  - rewrite bind_run. unfold net_Read.
    pose proof (length_socks_on_sock src ([], Some NetClosed) (conn_Read copyBufSize) w) as H.
    destruct (on_sock src _ _ w) as [[chunk er] w']. now destruct chunk.
  - rewrite bind_run. unfold net_Write.
    pose proof (length_socks_on_sock dst (0, Some NetClosed) (conn_Write chunk) w) as H.
    destruct (on_sock dst _ _ w) as [[nw [e|]] w']; [exact H|]. now destruct (negb _).
Qed.

Lemma length_socks_proxy_step a b t st w :
  length (socks (proxy_step a b t st w).2) = length (socks w).
Proof.
  destruct t; cbn [proxy_step].
  - destruct (copyAB st) eqn:E; try (destruct (sentAB st); reflexivity).
    all: rewrite bind_run; pose proof (length_socks_copy_step a b (copyAB st) w) as H;
      rewrite E in H; now destruct (copy_step a b _ w).
  - destruct (copyBA st) eqn:E; try (destruct (sentBA st); reflexivity).
    all: rewrite bind_run; pose proof (length_socks_copy_step b a (copyBA st) w) as H;
      rewrite E in H; now destruct (copy_step b a _ w).
  - destruct (caller st); try (destruct (errCh st); reflexivity); try reflexivity.
    all: rewrite bind_run.
    + pose proof (length_socks_on_sock a (Some NetClosed) conn_Close w) as H.
      unfold net_Close. now destruct (on_sock a _ _ w).
    + pose proof (length_socks_on_sock b (Some NetClosed) conn_Close w) as H.
      unfold net_Close. now destruct (on_sock b _ _ w).
Qed.

Lemma copy_step_not_sent dst src st w :
  (forall e, st <> Finished e) \/ (copy_step dst src st w).1 = st.
Proof. destruct st; [left|left|right]; try discriminate; reflexivity. Qed.

(** Every step of the goroutines of [proxy] keeps the bookkeeping. *)
Lemma proxy_step_bookkeeping a b t st w :
  a < length (socks w) -> b < length (socks w) ->
  proxy_inv a b st w ->
  proxy_inv a b (proxy_step a b t st w).1 (proxy_step a b t st w).2.
Proof.
  intros Ha Hb Hself. pose proof Hself as (HAB & HBA & (got & Hgot & Hperm) & Hcl).
  assert (Hkeep : forall m : M CopyState,
            (forall fd w0, closed fd w0 -> closed fd (m w0).2) ->
            match caller st with
            | AwaitFirst | CloseA _ => True
            | CloseB _ => closed a (m w).2
            | AwaitSecond _ | Returned _ => closed a (m w).2 /\ closed b (m w).2
            end).
  { intros m Hm. destruct (caller st); auto; destruct Hcl; auto. }
  destruct t; cbn [proxy_step].
  - (* io.Copy(a, b) *)
    destruct (copyAB st) as [|chunk er|e] eqn:E.
    3:{ destruct (sentAB st) eqn:Es; cbn [mret M_ret ret fst snd]; [exact Hself|].
        unfold proxy_inv. cbn [copyAB sentAB copyBA sentBA errCh caller].
        split; [intros _; eauto|]. split; [exact HBA|]. split; [|exact Hcl].
        exists got. split; [exact Hgot|].
        unfold sent_results in *. cbn [copyAB sentAB copyBA sentBA]. rewrite Es in Hperm.
        rewrite ?E in *. cbn [copy_result app] in *.
        rewrite app_assoc. eapply Permutation_trans; [apply Permutation_app_comm|].
        cbn [app]. now apply perm_skip. }
    all: rewrite bind_run.
    all: specialize (Hkeep (copy_step a b (copyAB st))
                       (fun fd w0 => closed_copy_step fd a b (copyAB st) w0)).
    all: rewrite E in Hkeep.
    all: destruct (copy_step a b _ w) as [cs' w'] eqn:Est; cbn [mret M_ret ret fst snd] in *.
    all: assert (Hs : sentAB st = false)
           by (destruct (sentAB st); [destruct (HAB eq_refl); congruence|reflexivity]).
    all: unfold proxy_inv; cbn [copyAB sentAB copyBA sentBA errCh caller].
    all: split; [rewrite Hs; discriminate|]; split; [exact HBA|]; split; [|exact Hkeep].
    all: exists got; split; [exact Hgot|].
    all: unfold sent_results in *; cbn [copyAB sentAB copyBA sentBA]; rewrite Hs in *.
    all: exact Hperm.
  - (* io.Copy(b, a) *)
    destruct (copyBA st) as [|chunk er|e] eqn:E.
    3:{ destruct (sentBA st) eqn:Es; cbn [mret M_ret ret fst snd]; [exact Hself|].
        unfold proxy_inv. cbn [copyAB sentAB copyBA sentBA errCh caller].
        split; [exact HAB|]. split; [intros _; eauto|]. split; [|exact Hcl].
        exists got. split; [exact Hgot|].
        unfold sent_results in *. cbn [copyAB sentAB copyBA sentBA]. rewrite Es in Hperm.
        rewrite ?E in *. cbn [copy_result] in *. rewrite app_nil_r in Hperm.
        rewrite app_assoc. now apply Permutation_app_tail. }
    all: rewrite bind_run.
    all: specialize (Hkeep (copy_step b a (copyBA st))
                       (fun fd w0 => closed_copy_step fd b a (copyBA st) w0)).
    all: rewrite E in Hkeep.
    all: destruct (copy_step b a _ w) as [cs' w'] eqn:Est; cbn [mret M_ret ret fst snd] in *.
    all: assert (Hs : sentBA st = false)
           by (destruct (sentBA st); [destruct (HBA eq_refl); congruence|reflexivity]).
    all: unfold proxy_inv; cbn [copyAB sentAB copyBA sentBA errCh caller].
    all: split; [exact HAB|]; split; [rewrite Hs; discriminate|]; split; [|exact Hkeep].
    all: exists got; split; [exact Hgot|].
    all: unfold sent_results in *; cbn [copyAB sentAB copyBA sentBA]; rewrite Hs in *.
    all: exact Hperm.
  - (* the caller *)
    destruct (caller st) as [|e1|e1|e1|e] eqn:Ec.
    + destruct (errCh st) as [|err1 ch] eqn:Ech; cbn [mret M_ret ret fst snd];
        [exact Hself|].
      unfold proxy_inv. cbn [copyAB sentAB copyBA sentBA errCh caller].
      split; [exact HAB|]. split; [exact HBA|]. split; [|exact I].
      exists [err1]. split; [reflexivity|].
      cbn in Hgot. subst got. exact Hperm.
    + rewrite bind_run. pose proof (net_Close_closed a w Ha) as Hc.
      destruct (net_Close a w) as [x w']. cbn [mret M_ret ret fst snd] in *.
      unfold proxy_inv. cbn [copyAB sentAB copyBA sentBA errCh caller].
      split; [exact HAB|]. split; [exact HBA|]. split; [|exact Hc].
      exists got. auto.
    + rewrite bind_run. pose proof (net_Close_closed b w Hb) as Hc.
      pose proof (closed_net_Close a b w Hcl) as Hc'.
      destruct (net_Close b w) as [x w']. cbn [mret M_ret ret fst snd] in *.
      unfold proxy_inv. cbn [copyAB sentAB copyBA sentBA errCh caller].
      split; [exact HAB|]. split; [exact HBA|]. split; [|split; [exact Hc'|exact Hc]].
      exists got. auto.
    + destruct (errCh st) as [|err2 ch] eqn:Ech; cbn [mret M_ret ret fst snd];
        [exact Hself|].
      unfold proxy_inv. cbn [copyAB sentAB copyBA sentBA errCh caller].
      split; [exact HAB|]. split; [exact HBA|]. split; [|exact Hcl].
      exists [e1; err2]. split; [exists e1, err2; auto|].
      cbn in Hgot. subst got. exact Hperm.
    + cbn [mret M_ret ret fst snd]. exact Hself.
Qed.

Lemma proxy_run_eq a b sched st w :
  proxy_run a b sched st w =
    match caller st with
    | Returned _ => ((st, sched), w)
    | _ =>
        match sched with
        | [] => ((st, []), w)
        | t :: sched' =>
            let '(st', w') := proxy_step a b t st w in proxy_run a b sched' st' w'
        end
    end.
Proof. destruct sched; cbn [proxy_run]; destruct (caller st); reflexivity. Qed.

Lemma proxy_run_bookkeeping a b sched : forall st w,
  a < length (socks w) -> b < length (socks w) ->
  proxy_inv a b st w ->
  proxy_inv a b (proxy_run a b sched st w).1.1 (proxy_run a b sched st w).2
  /\ length (socks (proxy_run a b sched st w).2) = length (socks w).
Proof.
  induction sched as [|t sched IH]; intros st w Ha Hb Hinv; rewrite proxy_run_eq.
  - destruct (caller st); auto.
  - destruct (caller st) eqn:Ec; auto.
    all: pose proof (proxy_step_bookkeeping a b t st w Ha Hb Hinv) as Hstep.
    all: pose proof (length_socks_proxy_step a b t st w) as Hlen.
    all: destruct (proxy_step a b t st w) as [st' w']; cbn [fst snd] in *.
    all: destruct (IH st' w' ltac:(lia) ltac:(lia) Hstep) as [H1 H2].
    all: split; [exact H1|lia].
Qed.

Lemma proxy_start_inv a b w : proxy_inv a b proxy_start w.
Proof.
  unfold proxy_inv, proxy_start. cbn. split; [discriminate|]. split; [discriminate|].
  split; [|exact I]. exists []. split; [reflexivity|]. constructor.
Qed.

Lemma proxy_eq a b w :
  proxy a b w =
    let '((st, sched'), w') := proxy_run a b (schedule w) proxy_start w in
    (match caller st with Returned e => Some e | _ => None end, with_schedule sched' w').
Proof.
  unfold proxy. rewrite bind_run. unfold get. cbn iota beta. rewrite bind_run.
  fold proxy_start. destruct (proxy_run a b (schedule w) proxy_start w) as [[st sched'] w'].
  rewrite bind_run. unfold modify. cbn iota beta. now destruct (caller st).
Qed.

(** Property X10.
    When [proxy] returns, nothing of it is left: both copies have ended,
    both sockets are closed, and the error returned is the one
    [proxy_result] picks from the errors of the copies, taken in the
    order in which the copies ended.  This holds for every schedule of
    the goroutines; [proxy] returns the error of the caller once the
    caller has returned. *)
Theorem proxy_returns_after_copies_ended_and_sockets_closed
  (a b : nat) (w : World) :
  a < length (socks w) -> b < length (socks w) ->
  let '((st, sched'), w') := proxy_run a b (schedule w) proxy_start w in
  proxy a b w = (match caller st with Returned e => Some e | _ => None end,
                 with_schedule sched' w')
  /\ forall e, caller st = Returned e ->
       (exists eAB eBA,
          copyAB st = Finished eAB /\ copyBA st = Finished eBA
          /\ (e = proxy_result eAB eBA \/ e = proxy_result eBA eAB))
       /\ closed a w' /\ closed b w'.
Proof.
  intros Ha Hb. pose proof (proxy_eq a b w) as Heq.
  pose proof (proxy_run_bookkeeping a b (schedule w) proxy_start w Ha Hb
                (proxy_start_inv a b w)) as [Hinv _].
  destruct (proxy_run a b (schedule w) proxy_start w) as [[st sched'] w'].
  cbn [fst snd] in Hinv. split; [exact Heq|].
  intros e He. destruct Hinv as (HAB & HBA & (got & Hgot & Hperm) & Hcl).
  rewrite He in Hgot, Hcl. destruct Hgot as (e1 & e2 & -> & ->).
  split; [|exact Hcl].
  unfold sent_results in Hperm.
  assert (Hlen := Permutation_length Hperm). rewrite !length_app in Hlen. cbn [length] in Hlen.
  destruct (sentAB st) eqn:EA; destruct (sentBA st) eqn:EB.
  2-4: exfalso; repeat match goal with
         | H : context [copy_result ?x] |- _ => destruct x; cbn [copy_result length] in H
         end; cbn [length] in Hlen; lia.
  destruct (HAB eq_refl) as [eAB HeAB]. destruct (HBA eq_refl) as [eBA HeBA].
  rewrite HeAB, HeBA in *. cbn [copy_result app length] in *.
  exists eAB, eBA. split; [reflexivity|]. split; [reflexivity|].
  destruct (errCh st); [|cbn in Hlen; lia]. cbn [app] in Hperm.
  apply Permutation_length_2 in Hperm. destruct Hperm as [[-> ->]|[-> ->]]; auto.
Qed.

Lemma proxy_returns_after_copies_ended_and_sockets_closed_witness :
  let w := mkWorld [mkConn [] [] None NoDeadline NoDeadline 0;
                    mkConn [] [] None NoDeadline NoDeadline 0]
             [] [] ∅ 0 [] [] [CopyAB; CopyAB; Caller; Caller; Caller; CopyBA; CopyBA; Caller] [] in
  let '((st, sched'), w') := proxy_run 0 1 (schedule w) proxy_start w in
  proxy 0 1 w = (match caller st with Returned e => Some e | _ => None end,
                 with_schedule sched' w')
  /\ forall e, caller st = Returned e ->
       (exists eAB eBA,
          copyAB st = Finished eAB /\ copyBA st = Finished eBA
          /\ (e = proxy_result eAB eBA \/ e = proxy_result eBA eAB))
       /\ closed 0 w' /\ closed 1 w'.
Proof.
  cbv zeta.
  apply (proxy_returns_after_copies_ended_and_sockets_closed 0 1
           (mkWorld [mkConn [] [] None NoDeadline NoDeadline 0;
                     mkConn [] [] None NoDeadline NoDeadline 0]
              [] [] ∅ 0 [] []
              [CopyAB; CopyAB; Caller; Caller; Caller; CopyBA; CopyBA; Caller] [])
           ltac:(cbn; lia) ltac:(cbn; lia)).
Defined.

(** A run of this proxy on two peers that have closed: the copy that
    ends first does so at the end of its stream; the other finds its
    socket closed by the caller, and that is the error [proxy] returns. *)
Example proxy_run_closed_peers :
  (proxy 0 1
     (mkWorld [mkConn [] [] None NoDeadline NoDeadline 0;
               mkConn [] [] None NoDeadline NoDeadline 0]
        [] [] ∅ 0 [] []
        [CopyAB; CopyAB; Caller; Caller; Caller; CopyBA; CopyBA; Caller] [])).1
  = Some (Some NetClosed).
Proof. reflexivity. Qed.

(** The invariant of the copy from [a] to [b], for a proxy of the
    sockets [a] and [b]. *)
Lemma proxy_step_inv_back a b pre S0 t st w :
  a <> b -> relay_inv b a pre S0 (copyBA st) w ->
  relay_inv b a pre S0 (copyBA (proxy_step a b t st w).1) (proxy_step a b t st w).2.
Proof.
  intros Hne Hinv. assert (Hne' : b <> a) by congruence.
  destruct t; cbn [proxy_step].
  - destruct (copyAB st) as [|chunk er|e] eqn:Hab.
    + rewrite bind_run.
      pose proof (copy_to_tunnel_inv b a pre S0 (copyBA st) Reading w Hne' Hinv) as H.
      destruct (copy_step a b Reading w) as [cs' w']. exact H.
    + rewrite bind_run.
      pose proof (copy_to_tunnel_inv b a pre S0 (copyBA st) (Writing chunk er) w Hne' Hinv)
        as H.
      destruct (copy_step a b (Writing chunk er) w) as [cs' w']. exact H.
    + destruct (sentAB st); cbn; exact Hinv.
  - destruct (copyBA st) as [|chunk er|e] eqn:Hba.
    + rewrite bind_run.
      pose proof (copy_to_local_inv b a pre S0 Reading w Hne' Hinv) as H.
      destruct (copy_step b a Reading w) as [cs' w']. exact H.
    + rewrite bind_run.
      pose proof (copy_to_local_inv b a pre S0 (Writing chunk er) w Hne' Hinv) as H.
      destruct (copy_step b a (Writing chunk er) w) as [cs' w']. exact H.
    + destruct (sentBA st); cbn; rewrite ?Hba; exact Hinv.
  - destruct (caller st) as [|e1|e1|e1|e].
    + destruct (errCh st); cbn; exact Hinv.
    + rewrite bind_run.
      pose proof (net_Close_inv b a pre S0 (copyBA st) a w Hinv) as H.
      destruct (net_Close a w) as [x w']. exact H.
    + rewrite bind_run.
      pose proof (net_Close_inv b a pre S0 (copyBA st) b w Hinv) as H.
      destruct (net_Close b w) as [x w']. exact H.
    + destruct (errCh st); cbn; exact Hinv.
    + cbn. exact Hinv.
Qed.

Lemma proxy_run_inv_back a b pre S0 sched : forall st w,
  a <> b -> relay_inv b a pre S0 (copyBA st) w ->
  relay_inv b a pre S0 (copyBA (proxy_run a b sched st w).1.1) (proxy_run a b sched st w).2.
Proof.
  induction sched as [|t sched IH]; intros st w Hne Hinv; rewrite proxy_run_eq.
  - destruct (caller st); exact Hinv.
  - destruct (caller st) eqn:Hc; try exact Hinv.
    all: pose proof (proxy_step_inv_back a b pre S0 t st w Hne Hinv) as H.
    all: destruct (proxy_step a b t st w) as [st' w'].
    all: apply IH; assumption.
Qed.

Lemma relay_inv_prefix L T pre S0 st w :
  relay_inv L T pre S0 st w ->
  exists sL relayed, socks w !! L = Some sL /\ outgoing sL = pre ++ relayed
                     /\ relayed `prefix_of` S0.
Proof.
  intros (sL & sT & relayed & HL & HT & Hout & Hst).
  exists sL, relayed. split; [exact HL|]. split; [exact Hout|].
  destruct st.
  - eapply prefix_intro; exact Hst.
  - apply (prefix_intro _ (chunk ++ stream (incoming sT))). exact Hst.
  - exact Hst.
Qed.

(** Property X11.
    [proxy] relays in order, both ways.  For two distinct sockets and
    every schedule of the goroutines, whether [proxy] has returned or
    is still running: what each socket has been sent since [proxy]
    began is a prefix of what the other socket had to deliver then, so
    that no byte is made up, repeated, reordered or sent back to its
    origin. *)
Theorem proxy_relays_in_order_both_ways
  (a b : nat) (w : World) (sa sb : Conn) :
  a <> b -> socks w !! a = Some sa -> socks w !! b = Some sb ->
  let '(r, w') := proxy a b w in
  exists sa' sb' to_a to_b,
    socks w' !! a = Some sa' /\ socks w' !! b = Some sb'
    /\ outgoing sa' = outgoing sa ++ to_a /\ to_a `prefix_of` stream (incoming sb)
    /\ outgoing sb' = outgoing sb ++ to_b /\ to_b `prefix_of` stream (incoming sa).
Proof.
  intros Hne Ha Hb. rewrite proxy_eq.
  pose proof (proxy_run_inv a b (outgoing sa) (stream (incoming sb)) (schedule w)
                proxy_start w Hne) as H1.
  pose proof (proxy_run_inv_back a b (outgoing sb) (stream (incoming sa)) (schedule w)
                proxy_start w Hne) as H2.
  cbn [proxy_start copyAB copyBA] in H1, H2.
  specialize (H1 ltac:(exists sa, sb, []; rewrite app_nil_r; repeat split; auto)).
  specialize (H2 ltac:(exists sb, sa, []; rewrite app_nil_r; repeat split; auto)).
  destruct (proxy_run a b (schedule w) proxy_start w) as [[st sched'] w'].
  cbn [fst snd] in H1, H2.
  apply relay_inv_prefix in H1. apply relay_inv_prefix in H2.
  destruct H1 as (sa' & to_a & Ha' & Hoa & Hpa).
  destruct H2 as (sb' & to_b & Hb' & Hob & Hpb).
  exists sa', sb', to_a, to_b. cbn [socks with_schedule]. auto 10.
Qed.

Lemma proxy_relays_in_order_both_ways_witness :
  let w := mkWorld [mkConn (segment (Bytes.of_string "ping")) [] None NoDeadline NoDeadline 0;
                    mkConn (segment (Bytes.of_string "pong")) [] None NoDeadline NoDeadline 0]
             [] [] ∅ 0 [] [] [CopyAB; CopyBA; CopyAB; CopyBA; CopyAB] [] in
  let '(r, w') := proxy 0 1 w in
  exists sa' sb' to_a to_b,
    socks w' !! 0 = Some sa' /\ socks w' !! 1 = Some sb'
    /\ outgoing sa' = [] ++ to_a /\ to_a `prefix_of` Bytes.of_string "pong"
    /\ outgoing sb' = [] ++ to_b /\ to_b `prefix_of` Bytes.of_string "ping".
Proof.
  cbv zeta.
  apply (proxy_relays_in_order_both_ways 0 1
           (mkWorld [mkConn (segment (Bytes.of_string "ping")) [] None NoDeadline NoDeadline 0;
                     mkConn (segment (Bytes.of_string "pong")) [] None NoDeadline NoDeadline 0]
              [] [] ∅ 0 [] [] [CopyAB; CopyBA; CopyAB; CopyBA; CopyAB] [])
           _ _ ltac:(lia) eq_refl eq_refl).
Defined.

Lemma frames_copy_step dst src st : frames (copy_step dst src st).
Proof. destruct st; cbn [copy_step]; unfold net_Read, net_Write; frames_tac. Qed.

Lemma frames_proxy_step a b t st : frames (proxy_step a b t st).
Proof.
  destruct t; cbn [proxy_step].
  - destruct (copyAB st) eqn:E; try (destruct (sentAB st); apply frames_ret).
    all: apply frames_bind; [apply frames_copy_step|intros; apply frames_ret].
  - destruct (copyBA st) eqn:E; try (destruct (sentBA st); apply frames_ret).
    all: apply frames_bind; [apply frames_copy_step|intros; apply frames_ret].
  - destruct (caller st); try (destruct (errCh st); apply frames_ret);
      try apply frames_ret.
    all: apply frames_bind; [apply frames_net_Close|intros; apply frames_ret].
Qed.

Lemma frames_proxy_run a b sched : forall st, frames (proxy_run a b sched st).
Proof.
  induction sched as [|t sched IH]; intros st w; rewrite proxy_run_eq.
  - destruct (caller st); apply only_sockets_refl.
  - destruct (caller st); try apply only_sockets_refl.
    all: pose proof (frames_proxy_step a b t st w) as H.
    all: destruct (proxy_step a b t st w) as [st' w']; cbn [snd] in H.
    all: eapply only_sockets_trans; [exact H|apply IH].
Qed.

(** What [proxy] has done when it returns, for the session. *)
Lemma proxy_closes a b w :
  a < length (socks w) -> b < length (socks w) ->
  let '(r, w') := proxy a b w in
  length (socks w') = length (socks w)
  /\ clients w' = clients w
  /\ (r <> None -> closed a w' /\ closed b w').
Proof.
  intros Ha Hb. rewrite proxy_eq.
  pose proof (proxy_run_bookkeeping a b (schedule w) proxy_start w Ha Hb
                (proxy_start_inv a b w)) as [Hinv Hlen].
  pose proof (frames_proxy_run a b (schedule w) proxy_start w) as Hfr.
  destruct (proxy_run a b (schedule w) proxy_start w) as [[st sched'] w'] eqn:Hrun.
  cbn [fst snd] in *. split; [exact Hlen|]. split; [apply Hfr|].
  intros Hr. destruct Hinv as (_ & _ & _ & Hcl).
  destruct (caller st); try (now contradiction Hr). exact Hcl.
Qed.

Lemma proxy_clients a b w : clients (proxy a b w).2 = clients w.
Proof.
  rewrite proxy_eq.
  pose proof (frames_proxy_run a b (schedule w) proxy_start w) as Hfr.
  destruct (proxy_run a b (schedule w) proxy_start w) as [[st sched'] w'].
  apply Hfr.
Qed.

(* ================================================================== *)
(** * Sessions and the control loop *)
(* ================================================================== *)

Lemma keeps_ret {A B} (f : World -> B) (a : A) : keeps f (mret a).
Proof. intros w. reflexivity. Qed.

Lemma keeps_bind {A A' B} (f : World -> B) (m : M A) (k : A -> M A') :
  keeps f m -> (forall a, keeps f (k a)) -> keeps f (m ≫= k).
Proof.
  intros Hm Hk w. rewrite bind_run. specialize (Hm w).
  destruct (m w) as [a w1]. cbn [snd] in Hm. rewrite <- Hm. apply Hk.
Qed.

Lemma frames_keeps_clients {A} (m : M A) : frames m -> keeps clients m.
Proof. intros H w. apply (H w). Qed.

Lemma keeps_conns_ret {A} (a : A) : keeps_conns (mret a).
Proof. intros w d D H. exists D. auto. Qed.

Lemma keeps_conns_bind {A B} (m : M A) (k : A -> M B) :
  keeps_conns m -> (forall a, keeps_conns (k a)) -> keeps_conns (m ≫= k).
Proof.
  intros Hm Hk w d D HD. rewrite bind_run. destruct (Hm w d D HD) as (D1 & H1 & E1).
  destruct (m w) as [a w1]. cbn [snd] in H1.
  destruct (Hk a w1 d D1 H1) as (D2 & H2 & E2). exists D2. split; [exact H2|congruence].
Qed.

Lemma keeps_conns_on_sock {A} fd (bad : A) f : keeps_conns (on_sock fd bad f).
Proof.
  intros w d D HD. unfold on_sock. destruct (socks w !! fd) as [c|]; [|exists D; auto].
  destruct (f c) as [a c']. exists D. auto.
Qed.

Lemma keeps_conns_on_delim {A} d0 (bad : A) f :
  (forall D c, d_conn (f D c).1.2 = d_conn D) -> keeps_conns (on_delim d0 bad f).
Proof.
  intros Hf w d D HD. unfold on_delim.
  destruct (delims w !! d0) as [D0|] eqn:E0; [|exists D; auto].
  destruct (socks w !! d_conn D0) as [c|]; [|exists D; auto].
  specialize (Hf D0 c). destruct (f D0 c) as [[a D'] c']. cbn [fst snd] in *.
  cbn [delims with_delims with_socks].
  destruct (decide (d0 = d)) as [->|Hne].
  - exists D'. split; [apply list_lookup_insert_eq; eapply lookup_lt_Some; eauto|congruence].
  - exists D. split; [now rewrite list_lookup_insert_ne|reflexivity].
Qed.

Lemma on_reader_conn {A} (f : Reader -> Conn -> A * Reader * Conn) D c :
  d_conn (on_reader f D c).1.2 = d_conn D.
Proof. unfold on_reader. now destruct (f (d_r D) c) as [[a r'] c']. Qed.

Lemma on_writer_conn {A} (f : Writer -> Conn -> A * Writer * Conn) D c :
  d_conn (on_writer f D c).1.2 = d_conn D.
Proof. unfold on_writer. now destruct (f (d_w D) c) as [[a w'] c']. Qed.

Ltac keeps_conns_tac :=
  repeat first
    [ apply keeps_conns_ret
    | apply keeps_conns_on_sock
    | apply keeps_conns_on_delim;
      first [ intros; apply on_reader_conn
            | intros; apply on_writer_conn
            | intros ? ?; match goal with
                          | |- context [let '(_, _) := ?x in _] => now destruct x
                          end
            | intros; reflexivity ]
    | apply keeps_conns_bind; [|intros]
    | match goal with
      | |- keeps_conns (match ?x with _ => _ end) => destruct x
      | |- keeps_conns (let '(_, _) := ?x in _) => destruct x
      | |- keeps_conns (if ?x then _ else _) => destruct x
      end ].

Lemma keeps_conns_RecvFrame d timeout : keeps_conns (RecvFrame d timeout).
Proof. unfold RecvFrame, d_SetReadDeadline, d_ReadBytes. keeps_conns_tac. Qed.

Lemma keeps_conns_RecvServer d timeout : keeps_conns (RecvServer d timeout).
Proof.
  unfold RecvServer. apply keeps_conns_bind; [apply keeps_conns_RecvFrame|].
  intros. keeps_conns_tac.
Qed.

Lemma keeps_conns_SendJSON d v : keeps_conns (SendJSON d v).
Proof.
  unfold SendJSON, d_SetWriteDeadline, d_Write, d_WriteByte, d_Flush. keeps_conns_tac.
Qed.

Lemma keeps_conns_ClientHandshake a d : keeps_conns (ClientHandshake a d).
Proof.
  unfold ClientHandshake. apply keeps_conns_bind; [apply keeps_conns_RecvServer|]. intros.
  keeps_conns_tac; apply keeps_conns_SendJSON.
Qed.

Lemma keeps_conns_BufferedData d : keeps_conns (BufferedData d).
Proof. unfold BufferedData, d_Buffered, d_Peek, d_Discard. keeps_conns_tac. Qed.

Lemma frames_BufferedData d : frames (BufferedData d).
Proof. unfold BufferedData, d_Buffered, d_Peek, d_Discard. frames_tac. Qed.

Lemma tunnel_at_step {A} (m : M A) n framed w :
  frames m -> keeps_conns m -> tunnel_at n framed w -> tunnel_at n framed (m w).2.
Proof.
  intros Hf Hk [Hlen (D & HD & Hn)]. split.
  - destruct (Hf w) as (_&_&_&_&_&_&_&Hl&_). congruence.
  - destruct (Hk w framed D HD) as (D' & HD' & E). exists D'. split; [exact HD'|congruence].
Qed.

Lemma keeps_read_client {A B} (f : World -> B) c (bad : A) g : keeps f (read_client c bad g).
Proof. intros w. reflexivity. Qed.

Lemma keeps_clients_connectWithTimeout host port : keeps clients (connectWithTimeout host port).
Proof.
  intros w. unfold connectWithTimeout. rewrite bind_run. unfold DialTimeout.
  destruct (network w !! _) as [[|[e|peer budget] rest]|]; reflexivity.
Qed.

Lemma keeps_clients_NewDelimited conn : keeps clients (NewDelimited conn).
Proof. intros w. reflexivity. Qed.

Lemma keeps_clients_proxy a b : keeps clients (proxy a b).
Proof. intros w. apply proxy_clients. Qed.

Lemma keeps_clients_RawConn d : keeps clients (RawConn d).
Proof. intros w. reflexivity. Qed.

Ltac keeps_clients_tac :=
  repeat first
    [ apply keeps_ret
    | apply keeps_read_client
    | apply keeps_clients_connectWithTimeout
    | apply keeps_clients_NewDelimited
    | apply keeps_clients_proxy
    | apply keeps_clients_RawConn
    | apply frames_keeps_clients;
      first [ apply frames_ClientHandshake | apply frames_SendJSON | apply frames_BufferedData
            | apply frames_Delimited_Close | apply frames_net_Close | apply frames_on_sock
            | apply frames_RecvServer ]
    | apply keeps_bind; [|intros]
    | match goal with
      | |- keeps _ (match ?x with _ => _ end) => destruct x
      | |- keeps _ (let '(_, _) := ?x in _) => destruct x
      | |- keeps _ (if ?x then _ else _) => destruct x
      end ].

Lemma keeps_clients_tunnel c id : keeps clients (handleConnection_tunnel c id).
Proof. unfold handleConnection_tunnel, net_SetDeadline. keeps_clients_tac. Qed.

Lemma keeps_clients_local c framed buffered :
  keeps clients (handleConnection_local c framed buffered).
Proof. unfold handleConnection_local, net_Write. keeps_clients_tac. Qed.

Lemma add_activeProxies_back C : add_activeProxies (-1) (add_activeProxies 1 C) = C.
Proof.
  destruct C. unfold add_activeProxies. cbn. f_equal. lia.
Qed.

(** Property X12.
    The count of active proxies.  A session adds one to the count of
    its client when it begins; when it has returned, on whatever path,
    the clients are as they were before it began, the count included;
    while it runs, the count is one higher. *)
Theorem handleConnection_restores_activeProxies (c : nat) (id : UUID) (w : World) :
  let '(r, w') := handleConnection c id w in
  match r with
  | Some _ => clients w' = clients w
  | None => clients w' = clients (update_client c (add_activeProxies 1) w).2
  end.
Proof.
  unfold handleConnection. rewrite bind_run.
  destruct (update_client c (add_activeProxies 1) w) as [[] w0] eqn:Hup.
  rewrite bind_run.
  pose proof (keeps_clients_tunnel c id w0) as Ht.
  destruct (handleConnection_tunnel c id w0) as [[[framed buffered] err] w1].
  cbn [snd] in Ht. rewrite bind_run.
  assert (Hr : exists r w2,
            (match err with
             | Some e => mret (Some (Some e))
             | None => handleConnection_local c framed buffered
             end) w1 = (r, w2) /\ clients w2 = clients w0).
  { destruct err as [e|].
    - eexists _, _. split; [reflexivity|exact Ht].
    - pose proof (keeps_clients_local c framed buffered w1) as Hl.
      destruct (handleConnection_local c framed buffered w1) as [r w2].
      exists r, w2. split; [reflexivity|]. cbn [snd] in Hl. congruence. }
  destruct Hr as (r & w2 & -> & Hr).
  destruct r as [e|]; [|exact Hr].
  rewrite bind_run. unfold update_client, modify in *. cbn [mret M_ret ret snd].
  inversion Hup as [Hw0]. clear Hup. rewrite Hr.
  destruct (clients w !! c) as [C|] eqn:HC.
  - subst w0. cbn [clients with_clients].
    rewrite list_lookup_insert_eq by (eapply lookup_lt_Some; eauto).
    cbn [clients with_clients].
    rewrite list_insert_insert_eq, add_activeProxies_back. now apply list_insert_id.
  - subst w0. now rewrite HC.
Qed.

Lemma Delimited_Close_closes d w D :
  delims w !! d = Some D -> d_conn D < length (socks w) ->
  closed (d_conn D) (Delimited_Close d w).2.
Proof.
  intros HD Hlt. destruct (lookup_lt_is_Some_2 _ _ Hlt) as [s Hs].
  unfold Delimited_Close, d_Close.
  rewrite (on_delim_run d _ _ w D s (conj HD Hs)).
  2:{ intros a D' c'. unfold conn_Close. now intros [= <- <- <-]. }
  cbn. exists (conn_Close s).2. split; [|reflexivity].
  now apply list_lookup_insert_eq.
Qed.

Lemma closed_Delimited_Close fd d w : closed fd w -> closed fd (Delimited_Close d w).2.
Proof.
  intros (s & Hs & Hc). unfold Delimited_Close, d_Close, on_delim.
  destruct (delims w !! d) as [D|]; [|exists s; auto].
  destruct (socks w !! d_conn D) as [c|] eqn:E; [|exists s; auto].
  unfold closed. cbn [snd socks with_socks with_delims conn_Close].
  destruct (decide (d_conn D = fd)) as [Ef|Hne].
  - eexists. split; [rewrite Ef; apply list_lookup_insert_eq; eapply lookup_lt_Some; eauto|].
    reflexivity.
  - exists s. split; [now rewrite list_lookup_insert_ne|exact Hc].
Qed.

Lemma length_socks_frames {A} (m : M A) w :
  frames m -> length (socks (m w).2) = length (socks w).
Proof. intros H. apply (H w). Qed.

(** Closing the tunnel closes the one socket a session has opened. *)
Lemma close_tunnel n framed wk w :
  length (socks w) = n -> tunnel_at n framed wk ->
  no_socket_left_open w (Delimited_Close framed wk).2.
Proof.
  intros Hn [Hlen (D & HD & HDn)].
  pose proof (Delimited_Close_closes framed wk D HD ltac:(lia)) as (s & Hs & Hc).
  pose proof (length_socks_frames (Delimited_Close framed) wk (frames_Delimited_Close framed))
    as Hl.
  intros fd s' Hfd Hs'. assert (fd = n).
  { apply lookup_lt_Some in Hs'. lia. }
  subst fd. rewrite HDn in Hs. congruence.
Qed.

Lemma handleConnection_tunnel_post c id w :
  let '((framed, buffered, err), w1) := handleConnection_tunnel c id w in
  match err with
  | Some _ => no_socket_left_open w w1
  | None => tunnel_at (length (socks w)) framed w1
  end.
Proof.
  unfold handleConnection_tunnel.
  rewrite bind_run. unfold read_client at 1. cbn iota beta.
  rewrite bind_run.
  destruct (connectWithTimeout _ ControlPort w) as [[remoteConn [e|]] w0] eqn:Hdial.
  { apply connectWithTimeout_failed in Hdial. destruct Hdial as (Hs & _).
    cbn. intros fd s Hfd Hl. apply lookup_lt_Some in Hl. rewrite Hs in Hl. lia. }
  apply connectWithTimeout_ok in Hdial.
  destruct Hdial as (-> & (s0 & Hsocks & _) & Hdel & _).
  set (n := length (socks w)) in *.
  rewrite bind_run. unfold NewDelimited at 1. cbn iota beta.
  set (w2 := with_delims _ w0).
  assert (Ht2 : tunnel_at n (length (delims w0)) w2).
  { split.
    - subst w2. cbn. rewrite Hsocks, length_app. cbn. lia.
    - eexists. split.
      + subst w2. cbn [delims with_delims].
        rewrite lookup_app_r by lia. rewrite Nat.sub_diag. reflexivity.
      + reflexivity. }
  set (framed := length (delims w0)) in *.
  rewrite bind_run. unfold read_client at 1. cbn iota beta.
  rewrite bind_run.
  set (hs := match clients w2 !! c with
             | Some C => match c_auth C with
                         | Some a => ClientHandshake a framed
                         | None => mret None
                         end
             | None => mret None
             end).
  assert (Hhs : frames hs /\ keeps_conns hs).
  { subst hs. destruct (clients w2 !! c) as [C|];
      [destruct (c_auth C)|]; split;
      auto using frames_ret, keeps_conns_ret, frames_ClientHandshake,
        keeps_conns_ClientHandshake. }
  change (match match clients w2 !! c with
                | Some C => c_auth C
                | None => None
                end with
          | Some a => ClientHandshake a framed
          | None => mret None
          end) with
    (match match clients w2 !! c with
           | Some C => c_auth C
           | None => None
           end with
     | Some a => ClientHandshake a framed
     | None => @mret M _ (option error) None
     end).
  assert (Heq : (match match clients w2 !! c with
                       | Some C => c_auth C
                       | None => None
                       end with
                 | Some a => ClientHandshake a framed
                 | None => mret None
                 end) = hs).
  { subst hs. now destruct (clients w2 !! c). }
  rewrite Heq.
  pose proof (tunnel_at_step hs n framed w2 (proj1 Hhs) (proj2 Hhs) Ht2) as Ht3.
  destruct (hs w2) as [[e|] w3]; cbn [snd] in Ht3.
  { rewrite bind_run. pose proof (close_tunnel n framed w3 w eq_refl Ht3) as H.
    now destruct (Delimited_Close framed w3). }
  rewrite bind_run.
  pose proof (tunnel_at_step (SendJSON framed (encodeAccept id)) n framed w3
                (frames_SendJSON _ _) (keeps_conns_SendJSON _ _) Ht3) as Ht4.
  destruct (SendJSON framed (encodeAccept id) w3) as [[e|] w4]; cbn [snd] in Ht4.
  { rewrite bind_run. pose proof (close_tunnel n framed w4 w eq_refl Ht4) as H.
    now destruct (Delimited_Close framed w4). }
  rewrite bind_run.
  pose proof (tunnel_at_step (net_SetDeadline n false) n framed w4
                (frames_on_sock _ _ _) (keeps_conns_on_sock _ _ _) Ht4) as Ht5.
  destruct (net_SetDeadline n false w4) as [x w5]; cbn [snd] in Ht5.
  rewrite bind_run.
  pose proof (tunnel_at_step (BufferedData framed) n framed w5
                (frames_BufferedData _) (keeps_conns_BufferedData _) Ht5) as Ht6.
  destruct (BufferedData framed w5) as [[buffered [e|]] w6]; cbn [snd] in Ht6.
  { rewrite bind_run. pose proof (close_tunnel n framed w6 w eq_refl Ht6) as H.
    now destruct (Delimited_Close framed w6). }
  exact Ht6.
Qed.

Lemma closed_frames_sock {A} fd fd' (bad : A) f w :
  (forall c, is_closed c = true -> is_closed (f c).2 = true) ->
  closed fd w -> closed fd (on_sock fd' bad f w).2.
Proof. apply closed_on_sock. Qed.

Lemma handleConnection_local_post c framed buffered w D :
  delims w !! framed = Some D -> d_conn D < length (socks w) ->
  let '(r, w') := handleConnection_local c framed buffered w in
  r <> None ->
  closed (d_conn D) w'
  /\ length (socks w) <= length (socks w')
  /\ forall fd s, length (socks w) <= fd -> socks w' !! fd = Some s -> is_closed s = true.
Proof.
  intros HD Hlt. unfold handleConnection_local.
  rewrite bind_run. unfold read_client at 1. cbn iota beta.
  rewrite bind_run. unfold read_client at 1. cbn iota beta.
  rewrite bind_run.
  destruct (connectWithTimeout _ _ w) as [[L [e|]] w1] eqn:Hdial.
  { apply connectWithTimeout_failed in Hdial. destruct Hdial as (Hs & Hd & _).
    rewrite bind_run.
    pose proof (Delimited_Close_closes framed w1 D ltac:(congruence) ltac:(congruence)) as Hc.
    pose proof (length_socks_frames (Delimited_Close framed) w1 (frames_Delimited_Close _))
      as Hl.
    destruct (Delimited_Close framed w1) as [x w']. cbn [snd] in *. intros _.
    rewrite Hs in Hl.
    split; [exact Hc|]. split; [lia|].
    intros fd s Hfd Hl'. apply lookup_lt_Some in Hl'. lia. }
  apply connectWithTimeout_ok in Hdial.
  destruct Hdial as (-> & (s0 & Hsocks & Hopen & Hout0) & Hdel & _).
  set (L := length (socks w)) in *.
  assert (Hlen1 : length (socks w1) = S L) by (rewrite Hsocks, length_app; cbn; lia).
  assert (HD1 : delims w1 !! framed = Some D) by congruence.
  rewrite bind_run.
  set (wr := if 0 <? length buffered
             then net_Write L buffered ≫= λ '(_, err), mret err
             else mret None).
  assert (Hwr : frames wr /\ keeps_conns wr).
  { subst wr. destruct (0 <? length buffered); unfold net_Write; split.
    - frames_tac.
    - keeps_conns_tac.
    - apply frames_ret.
    - apply keeps_conns_ret. }
  destruct Hwr as [Hwf Hwk].
  pose proof (length_socks_frames wr w1 Hwf) as Hlen2.
  destruct (Hwk w1 framed D HD1) as (D2 & HD2 & HDc).
  destruct (wr w1) as [[e|] w2]; cbn [snd] in *.
  - (* the write failed *)
    rewrite bind_run.
    pose proof (net_Close_closed L w2 ltac:(lia)) as Hc1.
    pose proof (length_socks_frames (net_Close L) w2 (frames_net_Close _)) as Hlen3.
    pose proof (keeps_conns_on_sock L (Some NetClosed) conn_Close w2 framed D2 HD2)
      as (D3 & HD3 & HDc3).
    fold (net_Close L) in HD3.
    destruct (net_Close L w2) as [x w3]; cbn [snd] in *.
    rewrite bind_run.
    pose proof (Delimited_Close_closes framed w3 D3 HD3 ltac:(lia)) as Hc2.
    pose proof (closed_Delimited_Close L framed w3 Hc1) as Hc1'.
    pose proof (length_socks_frames (Delimited_Close framed) w3 (frames_Delimited_Close _))
      as Hlen4.
    destruct (Delimited_Close framed w3) as [y w4]; cbn [snd] in *. intros _.
    split; [congruence|]. split; [lia|].
    intros fd s Hfd Hs. assert (fd = L) by (apply lookup_lt_Some in Hs; lia). subst fd.
    destruct Hc1' as (s' & Hs' & Hcl). congruence.
  - (* the proxy *)
    rewrite bind_run. unfold RawConn. rewrite HD2. cbn iota beta.
    pose proof (proxy_closes L (d_conn D2) w2 ltac:(lia) ltac:(lia)) as Hp.
    destruct (proxy L (d_conn D2) w2) as [r w3].
    destruct Hp as (Hlen3 & _ & Hp). intros Hr. destruct (Hp Hr) as [HcL HcT].
    split; [congruence|]. split; [lia|].
    intros fd s Hfd Hs. assert (fd = L) by (apply lookup_lt_Some in Hs; lia). subst fd.
    destruct HcL as (s' & Hs' & Hcl). congruence.
Qed.

(** Property X13.
    A session leaves no socket open.  When [handleConnection] has
    returned, with or without an error and whatever the relay, the local
    service and the schedule of the goroutines did, every socket it has
    opened, the tunnel to the relay and the connection to the local
    service, is closed. *)
Theorem handleConnection_leaves_no_socket_open (c : nat) (id : UUID) (w : World) :
  let '(r, w') := handleConnection c id w in
  match r with
  | Some _ => no_socket_left_open w w'
  | None => True
  end.
Proof.
  unfold handleConnection. rewrite bind_run.
  assert (Hup : forall f w0, socks (update_client c f w0).2 = socks w0).
  { intros f w0. unfold update_client, modify. cbn. now destruct (clients w0 !! c). }
  pose proof (Hup (add_activeProxies 1) w) as Hs0.
  destruct (update_client c (add_activeProxies 1) w) as [[] w0]. cbn [snd] in Hs0.
  rewrite bind_run.
  pose proof (handleConnection_tunnel_post c id w0) as Ht.
  destruct (handleConnection_tunnel c id w0) as [[[framed buffered] err] w1].
  rewrite bind_run.
  destruct err as [e|].
  - cbn [mret M_ret ret]. rewrite bind_run.
    pose proof (Hup (add_activeProxies (-1)) w1) as Hs1.
    destruct (update_client c (add_activeProxies (-1)) w1) as [[] w2]. cbn [snd] in Hs1.
    cbn [mret M_ret ret]. unfold no_socket_left_open in *. rewrite Hs1, <- Hs0. exact Ht.
  - destruct Ht as [Hlen (D & HD & HDn)].
    pose proof (handleConnection_local_post c framed buffered w1 D HD ltac:(lia)) as Hl.
    destruct (handleConnection_local c framed buffered w1) as [r w2].
    destruct r as [err|]; [|exact I].
    specialize (Hl ltac:(discriminate)). destruct Hl as (Hc & Hle & Hnew).
    rewrite bind_run.
    pose proof (Hup (add_activeProxies (-1)) w2) as Hs2.
    destruct (update_client c (add_activeProxies (-1)) w2) as [[] w3]. cbn [snd] in Hs2.
    cbn [mret M_ret ret]. unfold no_socket_left_open. rewrite Hs2, <- Hs0.
    intros fd s Hfd Hs.
    destruct (decide (fd = d_conn D)) as [->|Hne].
    + destruct Hc as (s' & Hs' & Hcl). congruence.
    + apply (Hnew fd s); [lia|exact Hs].
Qed.

Lemma listens_refl c w : listens c w w.
Proof. unfold listens. split_and!; eauto. Qed.

Lemma listens_trans c w1 w2 w3 : listens c w1 w2 -> listens c w2 w3 -> listens c w1 w3.
Proof.
  intros (A1 & A2 & A3 & A4 & A5) (B1 & B2 & B3 & B4 & B5). unfold listens. split_and!.
  - congruence.
  - auto.
  - congruence.
  - intros d D HD. destruct (A4 d D HD) as (D1 & H1 & E1).
    destruct (B4 d D1 H1) as (D2 & H2 & E2). exists D2. split; [exact H2|congruence].
  - intros C HC. destruct (A5 C HC) as (C1 & H1 & E1 & F1).
    destruct (B5 C1 H1) as (C2 & H2 & E2 & F2). exists C2. split_and!; congruence.
Qed.

Lemma listens_frames {A} (m : M A) c w :
  frames m -> keeps_conns m -> listens c w (m w).2.
Proof.
  intros Hf Hk. destruct (Hf w) as (F1 & F2 & F3 & F4 & F5 & F6 & F7 & F8 & F9).
  unfold listens.
  split; [exact F4|]. split; [intros t; now rewrite F5|]. split; [exact F8|].
  split; [intros d D HD; apply (Hk w d D HD)|].
  intros C HC. exists C. rewrite F1. auto.
Qed.

Lemma listens_update_client c w f :
  (forall C, c_conn (f C) = c_conn C /\ closeOnce (f C) = closeOnce C) ->
  listens c w (update_client c f w).2.
Proof.
  intros Hf. unfold update_client, modify. cbn [snd].
  destruct (clients w !! c) as [C0|] eqn:E; [|apply listens_refl].
  unfold listens. cbn [contexts goroutines socks delims clients with_clients].
  split_and!; eauto.
  intros C HC. exists (f C0). split; [apply list_lookup_insert_eq; eapply lookup_lt_Some; eauto|].
  assert (C = C0) by congruence. subst. apply Hf.
Qed.

Lemma listens_log c w l : listens c w (log_Printf l w).2.
Proof. unfold log_Printf, modify, listens. cbn. split_and!; eauto. Qed.

Lemma listens_go c w t : listens c w (go t w).2.
Proof.
  unfold go, modify, listens. cbn. split_and!; eauto.
  intros t' H. apply in_or_app. now left.
Qed.

Lemma Listen_body_listens c w : listens c w (Listen_body c w).2.
Proof.
  unfold Listen_body. rewrite bind_run. unfold read_client at 1. cbn iota beta.
  rewrite bind_run. unfold deref at 1. cbn iota beta. rewrite bind_run.
  match goal with
  | |- context [RecvServer ?d false w] =>
      pose proof (listens_frames (RecvServer d false) c w (frames_RecvServer _ _)
                    (keeps_conns_RecvServer _ _)) as H;
      destruct (RecvServer d false w) as [[[msg ok] err] w1]
  end.
  cbn [snd] in H. destruct err as [e|]; [exact H|].
  destruct ok; cbn [negb]; [|exact H].
  destruct (Kind msg).
  - rewrite bind_run. eapply listens_trans; [exact H|].
    pose proof (listens_log c w1 (LogUnknownMessage msg)) as H'.
    now destruct (log_Printf _ w1).
  - rewrite bind_run. eapply listens_trans; [exact H|].
    pose proof (listens_log c w1 (LogUnexpectedControl ServerHello)) as H'.
    now destruct (log_Printf _ w1).
  - rewrite bind_run. eapply listens_trans; [exact H|].
    pose proof (listens_log c w1 (LogUnexpectedControl ServerChallenge)) as H'.
    now destruct (log_Printf _ w1).
  - rewrite bind_run. unfold time_Now at 1. cbn iota beta. rewrite bind_run.
    eapply listens_trans; [exact H|].
    pose proof (listens_update_client c w1 (set_lastHeartbeat (now w1))
                  ltac:(intros C; split; reflexivity)) as H'.
    now destruct (update_client c _ w1).
  - rewrite bind_run. eapply listens_trans; [exact H|].
    pose proof (listens_go c w1 (GoHandleConnection c (ID msg))) as H'.
    now destruct (go _ w1).
  - exact H.
Qed.

Lemma Listen_loop_listens fuel c : forall w, listens c w (Listen_loop fuel c w).2.
Proof.
  induction fuel as [|fuel IH]; intros w; [apply listens_refl|].
  rewrite Listen_loop_step. pose proof (Listen_body_listens c w) as H.
  destruct (Listen_body c w) as [[|err] w1]; cbn [snd] in *; [|exact H].
  eapply listens_trans; [exact H|apply IH].
Qed.

(** Property X14.
    [Listen] shuts the client down when it returns.  On a client that
    was not closed, for every number of passes and whatever the relay
    sends: when [Listen] has returned, with or without an error, the
    client is not connected, the context [Listen] made is cancelled and
    the goroutine that watches it has been started; that goroutine then
    calls [Close], which closes the control socket. *)
Theorem Listen_shuts_the_client_down
  (fuel : nat) (c : nat) (ctx : option nat) (w : World)
  (C : Client) (d : nat) (D : Delimited) (s : Conn) :
  clients w !! c = Some C -> c_conn C = Some d -> closeOnce C = false ->
  framed_on w d D s ->
  let '(r, w1) := Listen fuel c ctx w in
  match r with
  | Some _ =>
      (Connected c w1).1 = false
      /\ contexts w1 !! length (contexts w) = Some true
      /\ In (GoCloseWhenDone (length (contexts w)) c) (goroutines w1)
      /\ let '(ran, w2) := run_GoCloseWhenDone (length (contexts w)) c w1 in
         ran = true /\ closed (d_conn D) w2 /\ (Connected c w2).1 = false
  | None => True
  end.
Proof.
  intros HC Hconn Honce [HD Hs].
  unfold Listen. rewrite bind_run. unfold WithCancel at 1. cbn iota beta.
  set (ctx' := length (contexts w)).
  set (w0 := with_contexts _ w).
  rewrite bind_run. unfold go at 1, modify. cbn iota beta.
  set (w0' := with_goroutines _ w0).
  rewrite bind_run.
  pose proof (listens_update_client c w0' (set_connected true)
                ltac:(intros C0; split; reflexivity)) as Hl1.
  destruct (update_client c (set_connected true) w0') as [[] w0''] eqn:Hup. cbn [snd] in Hl1.
  rewrite bind_run.
  pose proof (Listen_loop_listens fuel c w0'') as Hl2.
  destruct (Listen_loop fuel c w0'') as [[err|] w1]; [|exact I]. cbn [snd] in Hl2.
  rewrite bind_run.
  pose proof (listens_update_client c w1 (set_connected false)
                ltac:(intros C0; split; reflexivity)) as Hl3.
  assert (Hconnected : forall C1, clients w1 !! c = Some C1 ->
            exists C2, clients (update_client c (set_connected false) w1).2 !! c = Some C2
                       /\ connected C2 = false).
  { intros C1 H1. unfold update_client, modify. cbn [snd]. rewrite H1.
    cbn [clients with_clients]. eexists. split;
      [apply list_lookup_insert_eq; eapply lookup_lt_Some; eauto|reflexivity]. }
  destruct (update_client c (set_connected false) w1) as [[] w2]. cbn [snd] in *.
  rewrite bind_run. unfold cancel, modify. cbn iota beta. cbn [mret M_ret ret].
  set (w3 := with_contexts _ w2).
  pose proof (listens_trans _ _ _ _ Hl1 (listens_trans _ _ _ _ Hl2 Hl3)) as Hl.
  destruct Hl as (Lc & Lg & Ls & Ld & Lcl).
  assert (HC0 : clients w0' !! c = Some C) by exact HC.
  destruct (Lcl C HC0) as (C2 & HC2 & Econn & Eonce).
  assert (Hcon2 : connected C2 = false).
  { pose proof (listens_trans _ _ _ _ Hl1 Hl2) as (_ & _ & _ & _ & Lcl1).
    destruct (Lcl1 C HC0) as (C1 & HC1 & _).
    destruct (Hconnected C1 HC1) as (C2' & HC2' & Hf). congruence. }
  assert (HD0 : delims w0' !! d = Some D) by exact HD.
  destruct (Ld d D HD0) as (D2 & HD2 & EDc).
  assert (Hlt : d_conn D < length (socks w2)).
  { rewrite Ls. apply lookup_lt_Some in Hs. exact Hs. }
  destruct (lookup_lt_is_Some_2 _ _ Hlt) as [s2 Hs2].
  split; [|split; [|split]].
  - unfold Connected, read_client. cbn [fst clients with_contexts w3]. now rewrite HC2, Hcon2.
  - subst w3. cbn [contexts with_contexts]. rewrite Lc. subst w0' w0.
    cbn [contexts with_goroutines with_contexts].
    apply list_lookup_insert_eq. rewrite length_app. cbn. lia.
  - subst w3. cbn [goroutines with_contexts]. apply Lg. subst w0'.
    cbn [goroutines with_goroutines]. apply in_or_app. right. now left.
  - unfold run_GoCloseWhenDone.
    assert (Hctx : contexts w3 !! ctx' = Some true).
    { subst w3. cbn [contexts with_contexts]. rewrite Lc. subst w0' w0.
      cbn [contexts with_goroutines with_contexts].
      apply list_lookup_insert_eq. rewrite length_app. cbn. lia. }
    rewrite Hctx.
    assert (Hf3 : framed_on w3 d D2 s2).
    { split; [exact HD2|]. rewrite EDc. exact Hs2. }
    rewrite (Close_first c w3 C2 d D2 s2 HC2 ltac:(congruence) ltac:(congruence) Hf3).
    split; [reflexivity|]. split.
    + exists (conn_Close s2).2. split; [|reflexivity].
      rewrite <- EDc. apply put_framed_sock. cbn [socks with_clients]. rewrite EDc. exact Hlt.
    + unfold Connected, read_client, put_framed. cbn [fst clients with_delims with_socks with_clients].
      rewrite list_lookup_insert_eq by (eapply lookup_lt_Some; eauto). reflexivity.
Qed.

Lemma Listen_shuts_the_client_down_witness :
  let w := listen_world (segment (frame (quoted "Heartbeat"))) in
  let '(r, w1) := Listen 5 0 None w in
  match r with
  | Some _ =>
      (Connected 0 w1).1 = false
      /\ contexts w1 !! length (contexts w) = Some true
      /\ In (GoCloseWhenDone (length (contexts w)) 0) (goroutines w1)
      /\ let '(ran, w2) := run_GoCloseWhenDone (length (contexts w)) 0 w1 in
         ran = true
         /\ closed (d_conn (mkDelimited 0 (mkReader [] None) (mkWriter [] None))) w2
         /\ (Connected 0 w2).1 = false
  | None => True
  end.
Proof.
  cbv zeta.
  exact (Listen_shuts_the_client_down 5 0 None
           (listen_world (segment (frame (quoted "Heartbeat"))))
           (mkClient (Some 0) "relay.example" "localhost" 8000 9000 None true 0 0 false)
           0 (mkDelimited 0 (mkReader [] None) (mkWriter [] None))
           (mkConn (segment (frame (quoted "Heartbeat"))) [] None NoDeadline NoDeadline 0)
           eq_refl eq_refl eq_refl (conj eq_refl eq_refl)).
Defined.

Example Listen_run_to_the_end :
  (Listen 5 0 None (listen_world (segment (frame (quoted "Heartbeat"))))).1 = Some None.
Proof. vm_compute. reflexivity. Qed.

Lemma RecvFrame_closed d timeout w D c :
  framed_on w d D c -> is_closed c = true ->
  (RecvFrame d timeout w).1 = ([], false, Some NetClosed).
Proof.
  intros Hf Hcl. unfold RecvFrame. rewrite bind_run. unfold d_SetReadDeadline.
  rewrite (on_delim_run _ _ _ _ _ _ Hf).
  2:{ intros a D' c'. unfold conn_SetReadDeadline. rewrite Hcl. now intros [= <- <- <-]. }
  unfold conn_SetReadDeadline. rewrite Hcl. reflexivity.
Qed.

Lemma RecvServer_closed d timeout w D c :
  framed_on w d D c -> is_closed c = true ->
  (RecvServer d timeout w).1 = (ServerMessage_zero, false, Some NetClosed).
Proof.
  intros Hf Hcl. unfold RecvServer. rewrite bind_run.
  pose proof (RecvFrame_closed d timeout w D c Hf Hcl) as H.
  destruct (RecvFrame d timeout w) as [[[frame ok] err] w1]. cbn [fst] in H.
  inversion H; subst. reflexivity.
Qed.

Lemma Listen_body_closed c w C d D s :
  clients w !! c = Some C -> c_conn C = Some d ->
  framed_on w d D s -> is_closed s = true ->
  (Listen_body c w).1 = Return (Some NetClosed).
Proof.
  intros HC Hconn Hf Hcl. unfold Listen_body.
  rewrite bind_run. unfold read_client at 1. rewrite HC, Hconn.
  rewrite bind_run. unfold deref. cbn [default from_option id]. rewrite bind_run.
  pose proof (RecvServer_closed d false w D s Hf Hcl) as H.
  destruct (RecvServer d false w) as [[[msg ok] err] w1]. cbn [fst] in H.
  inversion H; subst. reflexivity.
Qed.

(** Property X15.
    [Listen] after [Close].  On a client that has been closed, [Listen]
    does not wait for the relay: its first receive finds the control
    socket closed, and [Listen] returns the error of a closed
    connection, which it does not take for the clean end of the stream. *)
Theorem Listen_after_Close_fails
  (fuel : nat) (c : nat) (ctx : option nat) (w : World)
  (C : Client) (d : nat) (D : Delimited) (s : Conn) :
  clients w !! c = Some C -> closeOnce C = false -> c_conn C = Some d ->
  framed_on w d D s ->
  (Listen (S fuel) c ctx (Close c w).2).1 = Some (Some NetClosed).
Proof.
  intros HC Honce Hconn Hf.
  rewrite (Close_first c w C d D s HC Honce Hconn Hf). cbn [snd].
  set (w1 := put_framed d D (conn_Close s).2 _).
  assert (Hlt : d_conn D < length (socks w))
    by (destruct Hf as [_ Hs]; eapply lookup_lt_Some; eauto).
  assert (Hf1 : framed_on w1 d D (conn_Close s).2).
  { destruct Hf as [HD Hs]. split.
    - subst w1. unfold put_framed. cbn [delims with_delims with_socks with_clients].
      apply list_lookup_insert_eq. eapply lookup_lt_Some; eauto.
    - subst w1. apply put_framed_sock. exact Hlt. }
  assert (HC1 : clients w1 !! c = Some (set_connected false (set_closeOnce C))).
  { subst w1. unfold put_framed. cbn [clients with_delims with_socks with_clients].
    apply list_lookup_insert_eq. eapply lookup_lt_Some; eauto. }
  clearbody w1.
  unfold Listen. rewrite bind_run. unfold WithCancel at 1. cbn iota beta.
  rewrite bind_run. unfold go at 1, modify. cbn iota beta.
  rewrite bind_run. unfold update_client at 1, modify. cbn iota beta.
  cbn [clients with_goroutines with_contexts]. rewrite HC1.
  set (w2 := with_clients _ _).
  assert (HC2 : clients w2 !! c
                = Some (set_connected true (set_connected false (set_closeOnce C)))).
  { subst w2. cbn [clients with_clients]. apply list_lookup_insert_eq.
    eapply lookup_lt_Some; eauto. }
  assert (Hf2 : framed_on w2 d D (conn_Close s).2) by exact Hf1.
  rewrite bind_run, Listen_loop_step.
  pose proof (Listen_body_closed c w2 _ d D _ HC2 Hconn Hf2 eq_refl) as Hb.
  destruct (Listen_body c w2) as [flow w3]. cbn [fst] in Hb. subst flow.
  rewrite bind_run. destruct (update_client c (set_connected false) w3) as [[] w4].
  rewrite bind_run. reflexivity.
Qed.

Lemma Listen_after_Close_fails_witness :
  (Listen 1 0 None
     (Close 0 (listen_world (segment (frame (quoted "Heartbeat"))))).2).1
  = Some (Some NetClosed).
Proof.
  exact (Listen_after_Close_fails 0 0 None
           (listen_world (segment (frame (quoted "Heartbeat"))))
           (mkClient (Some 0) "relay.example" "localhost" 8000 9000 None true 0 0 false)
           0 (mkDelimited 0 (mkReader [] None) (mkWriter [] None))
           (mkConn (segment (frame (quoted "Heartbeat"))) [] None NoDeadline NoDeadline 0)
           eq_refl eq_refl eq_refl (conj eq_refl eq_refl)).
Defined.

Lemma Listen_body_run c w C d :
  clients w !! c = Some C -> c_conn C = Some d ->
  Listen_body c w =
    let '((msg, ok, err), w1) := RecvServer d false w in
    match err with
    | Some e => (Return (Some e), w1)
    | None =>
        if negb ok then (Return None, w1)
        else
          match Kind msg with
          | ServerHeartbeat =>
              (Continue, (update_client c (set_lastHeartbeat (now w1)) w1).2)
          | ServerConnection => (Continue, (go (GoHandleConnection c (ID msg)) w1).2)
          | ServerHello | ServerChallenge =>
              (Continue, (log_Printf (LogUnexpectedControl (Kind msg)) w1).2)
          | ServerError => (Return (Some (ServerRejected (ErrorText msg))), w1)
          | KindNone => (Continue, (log_Printf (LogUnknownMessage msg) w1).2)
          end
    end.
Proof.
  intros HC Hconn. unfold Listen_body.
  rewrite bind_run. unfold read_client at 1. rewrite HC, Hconn.
  rewrite bind_run. unfold deref. cbn [default from_option id]. rewrite bind_run.
  destruct (RecvServer d false w) as [[[msg ok] err] w1].
  destruct err; [reflexivity|]. destruct ok; [|reflexivity]. cbn [negb].
  destruct (Kind msg) eqn:HK; try reflexivity.
Qed.

Lemma listening_effect c d bytes w w' :
  socks w' = socks w -> delims w' = delims w ->
  (forall C, clients w !! c = Some C ->
     exists C', clients w' !! c = Some C' /\ c_conn C' = c_conn C) ->
  listening c d bytes w -> listening c d bytes w'.
Proof.
  intros Hs Hd Hc [(C & HC & Hconn) (D & s & [HD Hsk] & H)].
  split.
  - destruct (Hc C HC) as (C' & HC' & E). exists C'. split; [exact HC'|congruence].
  - exists D, s. split; [split; congruence|exact H].
Qed.

(** One pass of the loop on a message that is not an error. *)
Lemma Listen_body_message c d p tail w m :
  listening c d (frame p ++ tail) w ->
  ~ In x00 p -> length p <= MaxFrameLength ->
  decodeServerMessage p = (m, None) -> Kind m <> ServerError ->
  exists w',
    Listen_body c w = (Continue, w')
    /\ listening c d tail w'
    /\ goroutines w' = goroutines w ++ sessions c [m].
Proof.
  intros [(C & HC & Hconn) (D & s & Hf & Hopen & Herr & Hall & Hbytes)] Hp Hlen Hdec HK.
  unfold frame in Hbytes. rewrite <- app_assoc in Hbytes. cbn [app] in Hbytes.
  destruct (RecvServer_takes_frame d false w D s p tail Hf Hopen Herr Hall Hbytes Hp Hlen)
    as (r' & c' & Hrecv & Htail & Herr' & Hall' & Hopen' & _).
  rewrite (Listen_body_run c w C d HC Hconn), Hrecv, Hdec. cbn [fst snd negb].
  set (w1 := put_framed d (mkDelimited (d_conn D) r' (d_w D)) c' w).
  assert (Hl1 : listening c d tail w1).
  { split.
    - exists C. split; [exact HC|exact Hconn].
    - exists (mkDelimited (d_conn D) r' (d_w D)), c'.
      split; [eapply framed_on_put; eauto|]. auto. }
  assert (Hg1 : goroutines w1 = goroutines w) by reflexivity.
  unfold sessions. cbn [flat_map]. rewrite app_nil_r.
  destruct (Kind m) eqn:Ek; try contradiction.
  - eexists. split; [reflexivity|]. split; [|cbn; now rewrite app_nil_r].
    eapply listening_effect; [| | |exact Hl1]; try reflexivity. eauto.
  - eexists. split; [reflexivity|]. split; [|cbn; now rewrite app_nil_r].
    eapply listening_effect; [| | |exact Hl1]; try reflexivity. eauto.
  - eexists. split; [reflexivity|]. split; [|cbn; now rewrite app_nil_r].
    eapply listening_effect; [| | |exact Hl1]; try reflexivity. eauto.
  - eexists. split; [reflexivity|]. split.
    + assert (HC1 : clients w1 !! c = Some C) by exact HC.
      eapply listening_effect; [| | |exact Hl1].
      * unfold update_client, modify. cbn [snd]. rewrite HC1. reflexivity.
      * unfold update_client, modify. cbn [snd]. rewrite HC1. reflexivity.
      * intros C0 HC0. unfold update_client, modify. cbn [snd]. rewrite HC0.
        cbn [clients with_clients]. eexists. split;
          [apply list_lookup_insert_eq; eapply lookup_lt_Some; eauto|reflexivity].
    + assert (HC1 : clients w1 !! c = Some C) by exact HC.
      rewrite app_nil_r. unfold update_client, modify. cbn [snd]. rewrite HC1. reflexivity.
  - eexists. split; [reflexivity|]. split; [|reflexivity].
    eapply listening_effect; [| | |exact Hl1]; try reflexivity. eauto.
Qed.

Lemma Listen_body_end c d w :
  listening c d [] w ->
  exists w', Listen_body c w = (Return None, w') /\ goroutines w' = goroutines w.
Proof.
  intros [(C & HC & Hconn) (D & s & Hf & Hopen & Herr & Hall & Hbytes)].
  apply app_eq_nil in Hbytes. destruct Hbytes as [Hbuf Hstream].
  pose proof (all_data_stream_nil _ Hall Hstream) as Hin.
  destruct (RecvServer_at_end d false w D s Hf Hopen Herr Hbuf Hin) as (r' & c' & Hrecv & _).
  rewrite (Listen_body_run c w C d HC Hconn), Hrecv. cbn [negb].
  eexists. split; reflexivity.
Qed.

(** Property X16.
    [Listen] takes the messages of the relay in their order.  When the
    control stream holds the frames of the messages [msgs], none of them
    an error, and then ends, the loop of [Listen] has enough with one
    pass for each message and one for the end: it returns without error,
    and the sessions it has started are those of the [Connection]
    messages, in order, each with the id of its message. *)
Theorem Listen_starts_the_sessions_in_order
  (c d : nat) (ps : list (list byte)) (msgs : list ServerMessage) :
  Forall2 (fun p m => ~ In x00 p /\ length p <= MaxFrameLength
                      /\ decodeServerMessage p = (m, None) /\ Kind m <> ServerError)
          ps msgs ->
  forall (fuel : nat) (w : World),
  listening c d (concat (List.map frame ps)) w ->
  length ps < fuel ->
  let '(r, w') := Listen_loop fuel c w in
  r = Some None /\ goroutines w' = goroutines w ++ sessions c msgs.
Proof.
  induction 1 as [|p m ps msgs (Hp & Hlen & Hdec & HK) _ IH]; intros fuel w Hl Hfuel.
  - destruct fuel as [|fuel]; [cbn in Hfuel; lia|].
    rewrite Listen_loop_step. destruct (Listen_body_end c d w Hl) as (w' & -> & Hg).
    split; [reflexivity|]. cbn. now rewrite app_nil_r.
  - destruct fuel as [|fuel]; [cbn in Hfuel; lia|].
    rewrite Listen_loop_step. cbn [List.map concat] in Hl.
    destruct (Listen_body_message c d p _ w m Hl Hp Hlen Hdec HK) as (w1 & -> & Hl1 & Hg1).
    specialize (IH fuel w1 Hl1 ltac:(cbn in Hfuel; lia)).
    destruct (Listen_loop fuel c w1) as [r w'].
    destruct IH as [-> Hg]. split; [reflexivity|].
    rewrite Hg, Hg1. unfold sessions. cbn [flat_map]. rewrite app_nil_r, <- app_assoc.
    reflexivity.
Qed.

Lemma Listen_starts_the_sessions_in_order_witness :
  let ps := [quoted "Heartbeat";
             object1 "Connection" (x22 :: uuid.String session_id ++ [x22])] in
  let w := listen_world (segment (concat (List.map frame ps))) in
  (Listen_loop 3 0 w).1 = Some None
  /\ goroutines (Listen_loop 3 0 w).2 = [GoHandleConnection 0 session_id].
Proof.
  set (ps := [quoted "Heartbeat";
              object1 "Connection" (x22 :: uuid.String session_id ++ [x22])]).
  set (msgs := [mkServerMessage ServerHeartbeat 0 uuid_Nil EmptyString;
                mkServerMessage ServerConnection 0 session_id EmptyString]).
  set (w := listen_world (segment (concat (List.map frame ps)))).
  assert (HF : Forall2 (fun p m => ~ In x00 p /\ length p <= MaxFrameLength
                          /\ decodeServerMessage p = (m, None) /\ Kind m <> ServerError)
                       ps msgs).
  { apply Forall2_cons; [|apply Forall2_cons; [|apply Forall2_nil]];
      (split; [vm_compute; intuition discriminate|]);
      (split; [vm_compute; lia|]);
      (split; [vm_compute; reflexivity|discriminate]). }
  assert (Hl : listening 0 0 (concat (List.map frame ps)) w).
  { split.
    - eexists. split; reflexivity.
    - eexists _, _. split; [split; reflexivity|].
      split; [reflexivity|]. split; [reflexivity|].
      split; [repeat constructor|]. vm_compute. reflexivity. }
  assert (Hlt : length ps < 3) by (cbn; lia).
  pose proof (Listen_starts_the_sessions_in_order 0 0 ps msgs HF 3 w Hl Hlt) as H.
  cbv zeta. fold ps. fold w.
  destruct (Listen_loop 3 0 w) as [r w'].
  destruct H as [-> Hg]. cbn [fst snd]. split; [reflexivity|].
  rewrite Hg. reflexivity.
Defined.

(* ================================================================== *)
(** * The connection to the relay *)
(* ================================================================== *)

Lemma RecvServer_in_order d timeout w D s p tail out :
  in_order w d D s (frame p ++ tail) out ->
  ~ In x00 p -> length p <= MaxFrameLength ->
  exists D' s',
    d_conn D' = d_conn D
    /\ RecvServer d timeout w =
         (((decodeServerMessage p).1, true, (decodeServerMessage p).2),
          put_framed d D' s' w)
    /\ in_order (put_framed d D' s' w) d D' s' tail out.
Proof.
  intros (Hf & Hopen & Herr & Hall & Hbytes & Hwbuf & Hwerr & Hbud & Hout) Hp Hlen.
  unfold frame in Hbytes. rewrite <- app_assoc in Hbytes. cbn [app] in Hbytes.
  destruct (RecvServer_takes_frame d timeout w D s p tail Hf Hopen Herr Hall Hbytes Hp Hlen)
    as (r' & c' & Hrecv & Htail & Herr' & Hall' & Hopen' & (Ho & Hb & _ & _)).
  exists (mkDelimited (d_conn D) r' (d_w D)), c'.
  split; [reflexivity|]. split; [exact Hrecv|].
  split; [eapply framed_on_put; eauto|].
  cbn [d_r d_w]. split_and!; auto; congruence.
Qed.

Lemma SendJSON_in_order d v w D s bytes out payload :
  in_order w d D s bytes out ->
  JSON.Marshal v = (payload, None) -> length payload <= MaxFrameLength ->
  exists D' s',
    d_conn D' = d_conn D
    /\ SendJSON d v w = (None, put_framed d D' s' w)
    /\ in_order (put_framed d D' s' w) d D' s' bytes (out ++ frame payload).
Proof.
  intros (Hf & Hopen & Herr & Hall & Hbytes & Hwbuf & Hwerr & Hbud & Hout) Hm Hlen.
  rewrite (SendJSON_run _ _ _ _ _ _ Hf Hopen Hwbuf Hwerr Hm Hlen).
  unfold conn_Write.
  change (is_closed (set_wdeadline Armed s)) with (is_closed s).
  change (wbudget (set_wdeadline Armed s)) with (wbudget s).
  rewrite Hopen, Hbud.
  eexists _, _. split; [|split; [reflexivity|]]; [reflexivity|].
  split; [eapply framed_on_put; eauto|].
  cbn [d_r d_w wbuf werr incoming outgoing wbudget set_wdeadline rdeadline wdeadline closes].
  split_and!; auto. now rewrite Hout.
Qed.

(** The handshake on a connection in order whose next frame is a
    challenge. *)
Lemma ClientHandshake_in_order a d w D s p tail out msg :
  in_order w d D s (frame p ++ tail) out ->
  ~ In x00 p -> length p <= MaxFrameLength ->
  decodeServerMessage p = (msg, None) -> Kind msg = ServerChallenge ->
  exists D' s' w',
    d_conn D' = d_conn D
    /\ ClientHandshake a d w = (None, w')
    /\ clients w' = clients w
    /\ in_order w' d D' s' tail
         (out ++ frame (object1 "Authenticate" (quoted (Answer a (ID msg))))).
Proof.
  intros Hin Hp Hlen Hdec HK.
  destruct (RecvServer_in_order d true w D s p tail out Hin Hp Hlen)
    as (D1 & s1 & HD1 & Hrecv & Hin1).
  destruct (Marshal_encodeAuthenticate a (ID msg)) as [Hm Hl].
  destruct (SendJSON_in_order d _ _ D1 s1 tail out _ Hin1 Hm
              ltac:(rewrite Hl; unfold MaxFrameLength; lia))
    as (D2 & s2 & HD2 & Hsend & Hin2).
  exists D2, s2, (put_framed d D2 s2 (put_framed d D1 s1 w)).
  split; [congruence|]. split; [|split; [reflexivity|exact Hin2]].
  unfold ClientHandshake. rewrite bind_run, Hrecv, Hdec. cbn [fst snd negb].
  rewrite HK. exact Hsend.
Qed.

Lemma decodeServerMessage_Hello port :
  (0 <= port <= 65535)%Z ->
  decodeServerMessage (object1 "Hello" (Decimal.Itoa port))
  = (mkServerMessage ServerHello port uuid_Nil EmptyString, None).
Proof.
  intros Hp. destruct (Itoa_spec port ltac:(lia)) as (Hcan & Hval & _).
  rewrite (decode_object1 _ "Hello" (JSON.JNumber (Decimal.Itoa port))).
  2:{ apply parse_object1; [reflexivity|]. intros fuel rest.
      now apply parse_value_number. }
  cbn [String.eqb Ascii.eqb Bool.eqb JSON.decode_uint16]. rewrite Hval.
  replace (port <=? 65535)%Z with true by (symmetry; apply Z.leb_le; lia).
  reflexivity.
Qed.

Lemma decodeServerMessage_Challenge id :
  length id = 16 ->
  decodeServerMessage (object1 "Challenge" (x22 :: uuid.String id ++ [x22]))
  = (mkServerMessage ServerChallenge 0 id EmptyString, None).
Proof.
  intros Hlen. pose proof (uuid_String_plain id) as Hpl.
  rewrite (decode_object1 _ _ _ (parse_object1_string "Challenge" _ eq_refl Hpl)).
  cbn [String.eqb Ascii.eqb Bool.eqb JSON.decode_string].
  now rewrite (uuid_Parse_String id Hlen).
Qed.

(** The texts of the messages of the relay have no zero byte and fit a
    frame. *)
Lemma Hello_text port :
  (0 <= port <= 65535)%Z ->
  ~ In x00 (object1 "Hello" (Decimal.Itoa port))
  /\ length (object1 "Hello" (Decimal.Itoa port)) <= MaxFrameLength.
Proof.
  intros Hp. destruct (Marshal_encodeHello port Hp) as [Hm Hl].
  split; [exact (Marshal_no_zero _ _ Hm)|exact Hl].
Qed.

Lemma Challenge_text id :
  length id = 16 ->
  ~ In x00 (object1 "Challenge" (x22 :: uuid.String id ++ [x22]))
  /\ length (object1 "Challenge" (x22 :: uuid.String id ++ [x22])) <= MaxFrameLength.
Proof.
  intros Hid.
  assert (Hq : JSON.quote (uuid.String id) = x22 :: uuid.String id ++ [x22])
    by (apply quote_plain, uuid_String_plain).
  assert (Hm : JSON.Marshal (JSON.VMap1 "Challenge" (JSON.VText (uuid.String id)))
               = (object1 "Challenge" (x22 :: uuid.String id ++ [x22]), None)).
  { apply (Marshal_object "Challenge" _ (JSON.VText _)); [reflexivity|].
    cbn [JSON.Marshal]. now rewrite Hq. }
  split; [exact (Marshal_no_zero _ _ Hm)|].
  unfold object1, quoted, MaxFrameLength.
  repeat first [rewrite length_app | progress cbn [length]].
  rewrite (uuid_String_length id Hid).
  change (length (Bytes.of_string "Challenge")) with 9. lia.
Qed.

(** A dial that the network answers with a connection. *)
Lemma connectWithTimeout_connects host port w peer budget rest :
  network w !! JoinHostPort host (Bytes.to_string (Decimal.Itoa port))
    = Some (DialConnects peer budget :: rest) ->
  connectWithTimeout host port w =
    ((length (socks w), None),
     with_network (<[JoinHostPort host (Bytes.to_string (Decimal.Itoa port)) := rest]>
                     (network w))
       (with_socks (socks w ++ [mkConn peer [] budget NoDeadline NoDeadline 0]) w)).
Proof.
  intros H. unfold connectWithTimeout. rewrite bind_run. unfold DialTimeout.
  rewrite H. reflexivity.
Qed.

(** Property X17.
    [NewClient] with a relay that follows the protocol.  When the relay
    accepts the connection on the control port and takes what is
    written, and its stream begins, if a secret is given, with a
    challenge, and then has a [Hello] with a port: [NewClient] returns a
    client and no error; the client is new, connected, and its remote
    port is the port of the relay's [Hello]; the control socket is open
    and has got, in this order, the answer to the challenge if a secret
    is given, and the [Hello] with the desired port, each as one
    frame. *)
Theorem NewClient_connects_to_a_relay
  (localHost : string) (localPort : Z) (to : string) (desiredPort : Z) (secret : string)
  (w : World) (peer : list event) (rest : list DialOutcome)
  (id : UUID) (port : Z) (tail : list byte) :
  network w !! JoinHostPort to (Bytes.to_string (Decimal.Itoa ControlPort))
    = Some (DialConnects peer None :: rest) ->
  all_data peer ->
  (0 <= desiredPort <= 65535)%Z -> (0 <= port <= 65535)%Z -> length id = 16 ->
  stream peer =
    (if String.eqb secret EmptyString then []
     else frame (object1 "Challenge" (x22 :: uuid.String id ++ [x22])))
    ++ frame (object1 "Hello" (Decimal.Itoa port)) ++ tail ->
  let '((client, err), w') := NewClient localHost localPort to desiredPort secret w in
  client = Some (length (clients w)) /\ err = None
  /\ (RemotePort (length (clients w)) w').1 = port
  /\ (Connected (length (clients w)) w').1 = true
  /\ exists s, socks w' !! length (socks w) = Some s
       /\ is_closed s = false
       /\ outgoing s =
            (if String.eqb secret EmptyString then []
             else frame (object1 "Authenticate"
                           (quoted (Answer (NewAuthenticator secret) id))))
            ++ frame (object1 "Hello" (Decimal.Itoa desiredPort)).
Proof.
  intros Hnet Hall Hdp Hport Hid Hstream.
  pose proof (connectWithTimeout_connects to ControlPort w peer None rest Hnet) as Hdial.
  set (w1 := with_network _ _) in Hdial.
  set (n := length (socks w)) in *.
  set (d := length (delims w1)).
  set (D0 := mkDelimited n (mkReader [] None) (mkWriter [] None)).
  set (c0 := mkConn peer [] None NoDeadline NoDeadline 0).
  set (w2 := (NewDelimited n w1).2).
  assert (Hin0 : in_order w2 d D0 c0 (stream peer) []).
  { split.
    - split.
      + unfold w2, NewDelimited. cbn [snd delims with_delims]. fold d.
        rewrite lookup_app_r by (unfold d; lia). unfold d. now rewrite Nat.sub_diag.
      + unfold w2, NewDelimited, w1. cbn [snd socks with_delims with_socks with_network d_conn D0].
        rewrite lookup_app_r by (unfold n; lia). unfold n. now rewrite Nat.sub_diag.
    - split_and!; auto. }
  destruct (Hello_text port Hport) as [Hhz Hhl].
  destruct (Marshal_encodeHello desiredPort Hdp) as [Hm Hml].
  pose proof (NewClient_response localHost localPort to desiredPort secret w n w1) as R.
  destruct (String.eqb secret EmptyString) eqn:Hs.
  - cbn [app] in Hstream. rewrite Hstream in Hin0.
    destruct (SendJSON_in_order d _ _ D0 c0 _ _ _ Hin0 Hm Hml)
      as (D3 & s3 & HD3 & Hsend & Hin3).
    destruct (RecvServer_in_order d true _ D3 s3 _ tail _ Hin3 Hhz Hhl)
      as (D4 & s4 & HD4 & Hrecv & Hin4).
    rewrite (decodeServerMessage_Hello port Hport) in Hrecv. cbn [fst snd] in Hrecv.
    specialize (R None w2 _ _ _ Hdial (conj eq_refl eq_refl) Hsend Hrecv).
    destruct (NewClient localHost localPort to desiredPort secret w) as [[client err] w'].
    cbn [Kind Port] in R. destruct R as (-> & -> & HR & HC & Hsocks).
    split_and!; auto.
    destruct Hin4 as ((_ & Hsk) & Hopen & _ & _ & _ & _ & _ & _ & Hout).
    exists s4. rewrite Hsocks. split; [|split; [exact Hopen|exact Hout]].
    replace n with (d_conn D4) by (rewrite HD4, HD3; reflexivity). exact Hsk.
  - rewrite Hstream in Hin0.
    destruct (Challenge_text id Hid) as [Hcz Hcl].
    destruct (ClientHandshake_in_order (NewAuthenticator secret) d w2 D0 c0 _ _ _ _
                Hin0 Hcz Hcl (decodeServerMessage_Challenge id Hid) eq_refl)
      as (D2 & s2 & w2' & HD2 & Hhs & Hcl2 & Hin2).
    cbn [ID] in Hin2.
    destruct (SendJSON_in_order d _ _ D2 s2 _ _ _ Hin2 Hm Hml)
      as (D3 & s3 & HD3 & Hsend & Hin3).
    destruct (RecvServer_in_order d true _ D3 s3 _ tail _ Hin3 Hhz Hhl)
      as (D4 & s4 & HD4 & Hrecv & Hin4).
    rewrite (decodeServerMessage_Hello port Hport) in Hrecv. cbn [fst snd] in Hrecv.
    specialize (R (Some (NewAuthenticator secret)) w2' _ _ _ Hdial
                  (conj eq_refl Hhs) Hsend Hrecv).
    destruct (NewClient localHost localPort to desiredPort secret w) as [[client err] w'].
    cbn [Kind Port] in R. destruct R as (-> & -> & HR & HC & Hsocks).
    change (clients (put_framed d D4 s4 (put_framed d D3 s3 w2'))) with (clients w2') in *.
    rewrite Hcl2 in *.
    split_and!; auto.
    destruct Hin4 as ((_ & Hsk) & Hopen & _ & _ & _ & _ & _ & _ & Hout).
    exists s4. rewrite Hsocks. split; [|split; [exact Hopen|exact Hout]].
    replace n with (d_conn D4) by (rewrite HD4, HD3, HD2; reflexivity). exact Hsk.
Qed.

Lemma NewClient_connects_to_a_relay_witness :
  let w := relay_world
             (segment (frame (object1 "Challenge" (x22 :: uuid.String session_id ++ [x22]))
                       ++ frame (object1 "Hello" (Decimal.Itoa 9000)))) in
  let r := NewClient "localhost" 8000 "relay.example" 0 "s3cret" w in
  r.1 = (Some 0, None)
  /\ (RemotePort 0 r.2).1 = 9000%Z
  /\ exists s, socks r.2 !! 0 = Some s
       /\ outgoing s =
            frame (object1 "Authenticate"
                     (quoted (Answer (NewAuthenticator "s3cret") session_id)))
            ++ frame (object1 "Hello" (Decimal.Itoa 0)).
Proof.
  set (peer := segment (frame (object1 "Challenge" (x22 :: uuid.String session_id ++ [x22]))
                        ++ frame (object1 "Hello" (Decimal.Itoa 9000)))).
  set (w := relay_world peer).
  assert (Hnet : network w !! JoinHostPort "relay.example"
                                 (Bytes.to_string (Decimal.Itoa ControlPort))
                 = Some [DialConnects peer None]) by (vm_compute; reflexivity).
  assert (Hall : all_data peer) by (vm_compute; repeat constructor).
  assert (Hstream : stream peer =
            (if String.eqb "s3cret" EmptyString then []
             else frame (object1 "Challenge" (x22 :: uuid.String session_id ++ [x22])))
            ++ frame (object1 "Hello" (Decimal.Itoa 9000)) ++ [])
    by (vm_compute; reflexivity).
  pose proof (NewClient_connects_to_a_relay "localhost" 8000 "relay.example" 0 "s3cret"
                w peer [] session_id 9000 [] Hnet Hall
                ltac:(lia) ltac:(lia) eq_refl Hstream) as H.
  cbv zeta.
  destruct (NewClient "localhost" 8000 "relay.example" 0 "s3cret" w) as [[client err] w'].
  cbn [fst snd].
  destruct H as (-> & -> & HR & _ & s & Hs & _ & Hout).
  split; [reflexivity|]. split; [exact HR|].
  exists s. split; [exact Hs|exact Hout].
Defined.

(* ================================================================== *)
(** * The response to the hello, and the buffered bytes of a session *)
(* ================================================================== *)

(** Claim C1, which the code does not meet.  The claim gives the
    authentication-required error to a challenge that arrives when no
    secret was configured, and the unexpected-initial-message error to
    any other message that is neither a hello nor an error.  The switch
    of [NewClient] takes a challenge to the first of the two whether or
    not a secret was given.  For every secret that is not empty and
    every relay that accepts the connection, sends a challenge and,
    after the answer, a second challenge in place of its hello:
    [NewClient] has sent the [Authenticate] with the answer made from
    the secret and then its [Hello], and returns no client and the
    error whose text says that no secret was provided, not the
    unexpected-initial-message error; the socket is closed. *)
Theorem NewClient_challenge_with_secret_says_no_secret
  (localHost : string) (localPort : Z) (to : string) (desiredPort : Z) (secret : string)
  (w : World) (peer : list event) (rest : list DialOutcome)
  (id1 id2 : UUID) (tail : list byte) :
  String.eqb secret EmptyString = false ->
  network w !! JoinHostPort to (Bytes.to_string (Decimal.Itoa ControlPort))
    = Some (DialConnects peer None :: rest) ->
  all_data peer ->
  (0 <= desiredPort <= 65535)%Z -> length id1 = 16 -> length id2 = 16 ->
  stream peer =
    frame (object1 "Challenge" (x22 :: uuid.String id1 ++ [x22]))
    ++ frame (object1 "Challenge" (x22 :: uuid.String id2 ++ [x22])) ++ tail ->
  let '((client, err), w') := NewClient localHost localPort to desiredPort secret w in
  client = None
  /\ err = Some AuthenticationRequired
  /\ err <> Some (UnexpectedInitialMessage ServerChallenge)
  /\ exists s, socks w' !! length (socks w) = Some s
       /\ is_closed s = true
       /\ outgoing s =
            frame (object1 "Authenticate"
                     (quoted (Answer (NewAuthenticator secret) id1)))
            ++ frame (object1 "Hello" (Decimal.Itoa desiredPort)).
Proof.
  intros Hs Hnet Hall Hdp Hid1 Hid2 Hstream.
  pose proof (connectWithTimeout_connects to ControlPort w peer None rest Hnet) as Hdial.
  set (w1 := with_network _ _) in Hdial.
  set (n := length (socks w)) in *.
  set (d := length (delims w1)).
  set (D0 := mkDelimited n (mkReader [] None) (mkWriter [] None)).
  set (c0 := mkConn peer [] None NoDeadline NoDeadline 0).
  set (w2 := (NewDelimited n w1).2).
  assert (Hin0 : in_order w2 d D0 c0 (stream peer) []).
  { split.
    - split.
      + unfold w2, NewDelimited. cbn [snd delims with_delims]. fold d.
        rewrite lookup_app_r by (unfold d; lia). unfold d. now rewrite Nat.sub_diag.
      + unfold w2, NewDelimited, w1.
        cbn [snd socks with_delims with_socks with_network d_conn D0].
        rewrite lookup_app_r by (unfold n; lia). unfold n. now rewrite Nat.sub_diag.
    - split_and!; auto. }
  rewrite Hstream in Hin0.
  destruct (Challenge_text id1 Hid1) as [Hz1 Hl1].
  destruct (Challenge_text id2 Hid2) as [Hz2 Hl2].
  destruct (Marshal_encodeHello desiredPort Hdp) as [Hm Hml].
  destruct (ClientHandshake_in_order (NewAuthenticator secret) d w2 D0 c0 _ _ _ _
              Hin0 Hz1 Hl1 (decodeServerMessage_Challenge id1 Hid1) eq_refl)
    as (D2 & s2 & w2' & HD2 & Hhs & Hcl2 & Hin2).
  cbn [ID app] in Hin2.
  destruct (SendJSON_in_order d _ _ D2 s2 _ _ _ Hin2 Hm Hml)
    as (D3 & s3 & HD3 & Hsend & Hin3).
  destruct (RecvServer_in_order d true _ D3 s3 _ tail _ Hin3 Hz2 Hl2)
    as (D4 & s4 & HD4 & Hrecv & Hin4).
  rewrite (decodeServerMessage_Challenge id2 Hid2) in Hrecv. cbn [fst snd] in Hrecv.
  destruct Hin4 as ((_ & Hsk) & Hopen & _ & _ & _ & _ & _ & _ & Hout).
  assert (Hn : d_conn D4 = n) by (rewrite HD4, HD3, HD2; reflexivity).
  rewrite Hn in Hsk.
  unfold NewClient. rewrite bind_run, Hdial. cbn iota beta.
  rewrite bind_run. unfold NewDelimited at 1.
  change (with_delims _ w1) with w2. fold d.
  rewrite bind_run, Hs. cbn [negb]. rewrite bind_run, Hhs. cbn iota beta.
  cbn [mret M_ret ret].
  rewrite bind_run, Hsend. rewrite bind_run, Hrecv. cbn [negb Kind].
  rewrite bind_run. unfold net_Close. rewrite (on_sock_run _ _ _ _ _ Hsk).
  cbn [mret M_ret ret fst snd].
  split; [reflexivity|]. split; [reflexivity|]. split; [discriminate|].
  exists (conn_Close s4).2. split.
  - cbn [socks with_socks]. apply list_lookup_insert_eq. eapply lookup_lt_Some; eauto.
  - split; [|exact Hout].
    unfold conn_Close, is_closed. reflexivity.
Qed.

Lemma NewClient_challenge_with_secret_says_no_secret_witness :
  let w := relay_world
             (segment (frame (object1 "Challenge" (x22 :: uuid.String session_id ++ [x22]))
                       ++ frame (object1 "Challenge"
                                   (x22 :: uuid.String session_id ++ [x22])))) in
  let r := NewClient "localhost" 8000 "relay.example" 0 "s3cret" w in
  r.1 = (None, Some AuthenticationRequired)
  /\ exists s, socks r.2 !! 0 = Some s
       /\ is_closed s = true
       /\ outgoing s =
            frame (object1 "Authenticate"
                     (quoted (Answer (NewAuthenticator "s3cret") session_id)))
            ++ frame (object1 "Hello" (Decimal.Itoa 0)).
Proof.
  set (peer := segment (frame (object1 "Challenge" (x22 :: uuid.String session_id ++ [x22]))
                        ++ frame (object1 "Challenge"
                                    (x22 :: uuid.String session_id ++ [x22])))).
  set (w := relay_world peer).
  assert (Hnet : network w !! JoinHostPort "relay.example"
                                 (Bytes.to_string (Decimal.Itoa ControlPort))
                 = Some [DialConnects peer None]) by (vm_compute; reflexivity).
  assert (Hall : all_data peer) by (vm_compute; repeat constructor).
  assert (Hstream : stream peer =
            frame (object1 "Challenge" (x22 :: uuid.String session_id ++ [x22]))
            ++ frame (object1 "Challenge" (x22 :: uuid.String session_id ++ [x22])) ++ [])
    by (vm_compute; reflexivity).
  pose proof (NewClient_challenge_with_secret_says_no_secret
                "localhost" 8000 "relay.example" 0 "s3cret"
                w peer [] session_id session_id [] eq_refl Hnet Hall
                ltac:(lia) eq_refl eq_refl Hstream) as H.
  cbv zeta.
  destruct (NewClient "localhost" 8000 "relay.example" 0 "s3cret" w) as [[client err] w'].
  cbn [fst snd].
  destruct H as (-> & -> & _ & s & Hs & Hc & Hout).
  split; [reflexivity|]. exists s. split; [exact Hs|]. split; [exact Hc|exact Hout].
Defined.

(** The write of the buffered bytes to the local socket. *)
Lemma write_buffered L b w s0 :
  socks w !! L = Some s0 -> is_closed s0 = false -> outgoing s0 = [] ->
  exists sL,
    (if 0 <? length b
     then net_Write L b ≫= λ '(_, err), mret err
     else mret None) w
    = ((if takes (wbudget s0) (length b) then None else Some NetReset),
       with_socks (<[L := sL]> (socks w)) w)
    /\ incoming sL = incoming s0
    /\ outgoing sL = (if takes (wbudget s0) (length b) then b
                      else firstn (default 0 (wbudget s0)) b).
Proof.
  intros HL Hopen Hout.
  destruct (0 <? length b) eqn:Hb.
  - rewrite bind_run. unfold net_Write. rewrite (on_sock_run _ _ _ _ _ HL).
    unfold conn_Write. rewrite Hopen, Hout. unfold takes.
    destruct (wbudget s0) as [k|]; [destruct (length b <=? k)|];
      cbn; eexists; split_and!; reflexivity.
  - apply Nat.ltb_ge in Hb. assert (b = []) as -> by (destruct b; [reflexivity|cbn in Hb; lia]).
    exists s0. replace (takes (wbudget s0) (length [])) with true
      by (unfold takes; destruct (wbudget s0); reflexivity).
    rewrite list_insert_id by exact HL.
    split_and!; auto. now destruct w.
Qed.

(** The second part of a session whose dial of the local service is
    answered: the local socket is there and has received the buffered
    bytes first. *)
Lemma handleConnection_local_writes (c framed : nat) (b : list byte) (w : World)
  (D : Delimited) (T : Conn) (C : Client)
  (peer : list event) (budget : option nat) (rest : list DialOutcome) :
  delims w !! framed = Some D -> socks w !! d_conn D = Some T ->
  clients w !! c = Some C ->
  network w !! JoinHostPort (c_localHost C)
                 (Bytes.to_string (Decimal.Itoa (c_localPort C)))
    = Some (DialConnects peer budget :: rest) ->
  let '(r, w') := handleConnection_local c framed b w in
  exists s, socks w' !! length (socks w) = Some s /\
    if takes budget (length b)
    then exists relayed,
           outgoing s = b ++ relayed /\ relayed `prefix_of` stream (incoming T)
    else exists k, budget = Some k /\ r = Some (Some (WriteBuffered NetReset))
                   /\ outgoing s = firstn k b.
Proof.
  intros HD HT HC Hnet. unfold handleConnection_local.
  rewrite bind_run. unfold read_client at 1. rewrite HC. cbn iota beta.
  rewrite bind_run. unfold read_client at 1. rewrite HC. cbn iota beta.
  rewrite bind_run.
  unfold connectWithTimeout. rewrite bind_run. unfold DialTimeout. rewrite Hnet.
  cbn iota beta. cbn [mret M_ret ret].
  set (L := length (socks w)).
  set (s0 := mkConn peer [] budget NoDeadline NoDeadline 0).
  set (w1 := with_network _ _).
  assert (HTlt : d_conn D < L) by (eapply lookup_lt_Some; eauto).
  assert (HneLT : L <> d_conn D) by lia.
  assert (HL1 : socks w1 !! L = Some s0).
  { unfold w1. cbn [socks with_network with_socks].
    rewrite lookup_app_r by (subst L; lia). subst L. now rewrite Nat.sub_diag. }
  assert (HT1 : socks w1 !! d_conn D = Some T).
  { unfold w1. cbn [socks with_network with_socks].
    rewrite lookup_app_l by exact HTlt. exact HT. }
  assert (HD1 : delims w1 !! framed = Some D) by exact HD.
  rewrite bind_run.
  destruct (write_buffered L b w1 s0 HL1 eq_refl eq_refl) as (sL & Hw & HinL & HoutL).
  change (net_Write L b ≫= λ '(_, err), mret err) with
    (net_Write L b ≫= λ pat : nat * option error, let '(_, err) := pat in mret err) in Hw.
  rewrite Hw. clear Hw.
  change (wbudget s0) with budget in *.
  set (w2 := with_socks (<[L := sL]> (socks w1)) w1).
  assert (HL2 : socks w2 !! L = Some sL).
  { unfold w2. cbn [socks with_socks]. apply list_lookup_insert_eq.
    eapply lookup_lt_Some; eauto. }
  assert (HT2 : socks w2 !! d_conn D = Some T).
  { unfold w2. cbn [socks with_socks].
    rewrite list_lookup_insert_ne by exact HneLT. exact HT1. }
  destruct (takes budget (length b)) eqn:Htakes.
  - (* the proxy *)
    rewrite bind_run. unfold RawConn.
    change (delims w2) with (delims w). rewrite HD. cbn iota beta.
    unfold proxy. rewrite bind_run. unfold get. cbn iota beta.
    rewrite bind_run.
    pose proof (proxy_run_inv L (d_conn D) b (stream (incoming T)) (schedule w2)
                  (mkProxyState Reading false Reading false [] AwaitFirst) w2 HneLT) as Hinv.
    cbn [copyAB] in Hinv.
    specialize (Hinv ltac:(exists sL, T, []; rewrite app_nil_r; repeat split; auto)).
    destruct (proxy_run L (d_conn D) (schedule w2) _ w2) as [[st sched'] w3].
    cbn [fst snd] in Hinv. cbn iota beta.
    rewrite bind_run. unfold modify. cbn iota beta.
    destruct Hinv as (sL' & sT' & relayed & HL' & HT' & Hout' & Hst').
    assert (Hfin : exists s, socks (with_schedule sched' w3) !! L = Some s
              /\ exists relayed, outgoing s = b ++ relayed
                                 /\ relayed `prefix_of` stream (incoming T)).
    { exists sL'. split; [exact HL'|]. exists relayed. split; [exact Hout'|].
      destruct (copyAB st).
      - eapply prefix_intro; exact Hst'.
      - apply (prefix_intro _ (chunk ++ stream (incoming sT'))). exact Hst'.
      - exact Hst'. }
    destruct (caller st); exact Hfin.
  - (* the write failed *)
    rewrite bind_run. unfold net_Close. rewrite (on_sock_run _ _ _ _ _ HL2).
    set (w3 := with_socks _ w2).
    assert (HL3 : socks w3 !! L = Some (conn_Close sL).2).
    { unfold w3. cbn [socks with_socks]. apply list_lookup_insert_eq.
      eapply lookup_lt_Some; eauto. }
    rewrite bind_run. unfold Delimited_Close, d_Close, on_delim.
    change (delims w3) with (delims w). rewrite HD.
    assert (HT3 : socks w3 !! d_conn D = Some T).
    { unfold w3. cbn [socks with_socks].
      rewrite list_lookup_insert_ne by exact HneLT. exact HT2. }
    rewrite HT3. cbn iota beta. cbn [mret M_ret ret].
    exists (conn_Close sL).2. split.
    + cbn [socks with_delims with_socks].
      rewrite list_lookup_insert_ne by (intros E; apply HneLT; symmetry; exact E).
      exact HL3.
    + destruct budget as [k|]; [|discriminate].
      exists k. split; [reflexivity|]. split; [reflexivity|]. exact HoutL.
Qed.

(** Claim C8.  A session whose first part found the bytes [b] buffered
    in its framed connection after the accept exchange, and whose dial
    of the local service is answered: the local socket is there, and
    whatever the goroutines of the proxy do and in whatever order, it has
    received [b] followed by bytes of the tunnel in the order the tunnel
    delivers them, when the local service takes [b].  When the local
    service takes only [k] bytes, fewer than [b] has, the session has
    returned the error of that write and the local socket has received
    the first [k] bytes of [b] and nothing else. *)
Theorem handleConnection_buffered_bytes_first
  (c : nat) (id : UUID) (w : World)
  (framed : nat) (b : list byte) (w1 : World) (D : Delimited) (T : Conn) (C : Client)
  (peer : list event) (budget : option nat) (rest : list DialOutcome) :
  handleConnection_tunnel c id (update_client c (add_activeProxies 1) w).2
    = ((framed, b, None), w1) ->
  delims w1 !! framed = Some D -> socks w1 !! d_conn D = Some T ->
  clients w1 !! c = Some C ->
  network w1 !! JoinHostPort (c_localHost C)
                  (Bytes.to_string (Decimal.Itoa (c_localPort C)))
    = Some (DialConnects peer budget :: rest) ->
  let '(r, w') := handleConnection c id w in
  exists s, socks w' !! length (socks w1) = Some s /\
    if takes budget (length b)
    then exists relayed,
           outgoing s = b ++ relayed /\ relayed `prefix_of` stream (incoming T)
    else exists k, budget = Some k /\ r = Some (Some (WriteBuffered NetReset))
                   /\ outgoing s = firstn k b.
Proof.
  intros Htun HD HT HC Hnet. unfold handleConnection.
  rewrite bind_run.
  destruct (update_client c (add_activeProxies 1) w) as [[] w0] eqn:Hup.
  cbn [snd] in Htun. rewrite bind_run, Htun. cbn iota beta.
  rewrite bind_run.
  pose proof (handleConnection_local_writes c framed b w1 D T C peer budget rest
                HD HT HC Hnet) as Hloc.
  destruct (handleConnection_local c framed b w1) as [r w2].
  destruct Hloc as (s & Hs & Hb).
  destruct r as [err|].
  - rewrite bind_run. unfold update_client, modify. cbn iota beta.
    cbn [mret M_ret ret]. exists s. split; [|exact Hb].
    destruct (clients w2 !! c); exact Hs.
  - cbn [mret M_ret ret]. exists s. split; [exact Hs|exact Hb].
Qed.

Lemma handleConnection_buffered_bytes_first_witness :
  (handleConnection_tunnel 0 session_id
     (update_client 0 (add_activeProxies 1) session_world).2).1
    = (0, Bytes.of_string "GET /", None)
  /\ let '(r, w') := handleConnection 0 session_id session_world in
     exists s, socks w' !! 1 = Some s
       /\ exists relayed,
            outgoing s = Bytes.of_string "GET /" ++ relayed
            /\ relayed `prefix_of` Bytes.of_string " HTTP/1.1".
Proof.
  split; [vm_compute; reflexivity|].
  set (w1 := (handleConnection_tunnel 0 session_id
                (update_client 0 (add_activeProxies 1) session_world).2).2).
  pose proof (handleConnection_buffered_bytes_first 0 session_id session_world
                0 (Bytes.of_string "GET /") w1
                (mkDelimited 0 (mkReader [] None) (mkWriter [] None))
                (default (mkConn [] [] None NoDeadline NoDeadline 0) (socks w1 !! 0))
                (mkClient None "relay.example" "localhost" 8000 9000
                   (Some (NewAuthenticator "s3cret")) true 1 0 false)
                (segment (Bytes.of_string "200 OK")) None []
                ltac:(vm_compute; reflexivity) ltac:(vm_compute; reflexivity)
                ltac:(vm_compute; reflexivity) ltac:(vm_compute; reflexivity)
                ltac:(vm_compute; reflexivity)) as H.
  replace (length (socks w1)) with 1 in H by (vm_compute; reflexivity).
  replace (stream (incoming
             (default (mkConn [] [] None NoDeadline NoDeadline 0) (socks w1 !! 0))))
    with (Bytes.of_string " HTTP/1.1") in H by (vm_compute; reflexivity).
  exact H.
Defined.
